(** * ChromeSort: the ball-sort puzzle engine

    A shallow embedding of the game logic of ChromeSort: the difficulty
    model ([getLevelConfig], constants.ts), the rule engine and the level
    generator ([isValidMove], [checkWinCondition], [generateLevel],
    utils/gameLogic.ts) and the session handlers of the App component
    ([handleTubeClick], [handleUndo], [handleReset], [initLevel]).

    JavaScript numbers that the program only ever uses as array indices,
    tube ids, color ids and capacities are [nat]; the counters of a session
    and level indices are [Z].  The arithmetic of the difficulty model and
    the product [Math.random () * length] of the generator are computed as
    the code computes them, in binary64: each operation returns the Number
    nearest to the exact result.  Code that can raise a [TypeError] returns
    an [option].  The randomness of the generator is a sequence [rand] of
    numbers, one per call of [Math.random], and the ball ids are a sequence
    [uuid].  Boards are values, except for [handleReset], which is also
    modelled on a heap of arrays and objects to tell a copy of a board from
    the board itself.

    The code comes first, then the properties. *)

From Stdlib Require Import ZArith QArith Qround Qabs Qpower Lia Lqa DecimalString.
From Stdlib Require Import SpecFloat.
From stdpp Require Import base option list strings gmap.

Local Open Scope Z_scope.

(** ** types.ts *)

Definition ColorId := nat.

Record Ball := mkBall {
  ball_id : string;   (* unique id, used by the layout animations only *)
  colorId : ColorId
}.

Record TubeData := mkTube {
  tube_id : nat;
  balls : list Ball;  (* bottom to top: the last ball is the top one *)
  capacity : nat
}.

Record LevelConfig := mkConfig {
  numColors : Z;
  numEmpty : Z;
  shuffles : Z;
  cfg_maxMoves : Z;
  timeLimit : Z
}.

(** ** constants.ts *)

Definition BALL_COLORS : list string :=
  [ "#ef4444"; "#3b82f6"; "#22c55e"; "#eab308"; "#a855f7"; "#06b6d4";
    "#f97316"; "#ec4899"; "#64748b"; "#8b5cf6"; "#14b8a6"; "#d946ef" ]%string.

Definition TUBE_CAPACITY : nat := 4.
Definition TOTAL_LEVELS : Z := 30.

(** ** JavaScript numbers

    A finite Number is a rational [m * 2 ^ e] with a significand [m] of at
    most 53 bits.  An arithmetic operation returns the Number nearest to
    its exact result, and of two nearest ones the one with the even
    significand.  The range of the exponent of binary64 (from [2 ^ -1074]
    to [2 ^ 971]) is left out: no operation below gets near it unless a
    level index beyond [10 ^ 307] is given. *)

Definition pow2 (e : Z) : Q := Qpower 2 e.

(** [2 ^ 53] as a significand is [2 ^ 52] at the next exponent. *)
Definition isNumber (x : Q) : Prop :=
  ∃ m e : Z, Z.abs m ≤ 2 ^ 53 ∧ (x == inject_Z m * pow2 e)%Q.

(** The exponent [e] of the last bit of a significand of 53 bits:
    [2 ^ (e + 52) <= |x| < 2 ^ (e + 53)].  The difference of the binary
    logarithms of numerator and denominator is the binary logarithm of [x]
    or one more. *)
Definition exponent (x : Q) : Z :=
  let k := Z.log2 (Z.abs (Qnum x)) - Z.log2 (Zpos (Qden x)) in
  (if Qle_bool (pow2 k) (Qabs x) then k else k - 1) - 52.

(** The nearest integer, and of two nearest ones the even one. *)
Definition roundHalfEven (q : Q) : Z :=
  let f := Qfloor q in
  match Qcompare (q - inject_Z f) (1 # 2) with
  | Lt => f
  | Gt => f + 1
  | Eq => if Z.even f then f else f + 1
  end.

(** The Number nearest to [x]: the significand [x / 2 ^ e] rounded to an
    integer. *)
Definition nearestNumber (x : Q) : Q :=
  let e := exponent x in
  (inject_Z (roundHalfEven (x * pow2 (- e))) * pow2 e)%Q.

(** The greatest Number that is not above [x]. *)
Definition numberBelow (x : Q) : Q :=
  let e := exponent x in
  (inject_Z (Qfloor (x * pow2 (- e))) * pow2 e)%Q.

(** [x + y] and [x * y] on Numbers. *)
Definition addNumber (x y : Q) : Q := nearestNumber (x + y).
Definition mulNumber (x y : Q) : Q := nearestNumber (x * y).

(** The integer that a Number with an integer value is. *)
Definition integerValue (x : Q) : Z := Qfloor x.

(** [Math.floor] and [Math.ceil]: the results are integers, and every
    Number with a fraction is below [2 ^ 52], so that they are Numbers. *)
Definition Math_floor (q : Q) : Z := Qfloor q.
Definition Math_ceil (q : Q) : Z := Qceiling q.

(** [Math.random ()] returns a Number that is at least 0 and below 1.  The
    [i]-th call returns the Number at or next below the [i]-th term [r] of
    the sequence of random numbers: every Number is returned, for [r] that
    Number itself. *)
Definition Math_random (r : Q) : Q := numberBelow r.

(** The same operations in the specification of IEEE 754 of the standard
    library, at the precision (53) and the exponent bound (1024) of
    binary64, on the positive floats [mx * 2 ^ ex] and [my * 2 ^ ey]; and
    that a float of that specification is the rational [x]. *)
Definition binary64_mul (mx : positive) (ex : Z) (my : positive) (ey : Z) : spec_float :=
  SFmul 53 1024 (S754_finite false mx ex) (S754_finite false my ey).

Definition binary64_add (mx : positive) (ex : Z) (my : positive) (ey : Z) : spec_float :=
  SFadd 53 1024 (S754_finite false mx ex) (S754_finite false my ey).

Definition binary64_is (f : spec_float) (x : Q) : Prop :=
  match f with
  | S754_zero _ => (x == 0)%Q
  | S754_finite s m e =>
      (x == (if s then - inject_Z (Zpos m) else inject_Z (Zpos m)) * pow2 e)%Q
  | _ => False
  end.

Global Arguments pow2 : simpl never.
Global Arguments exponent : simpl never.
Global Arguments roundHalfEven : simpl never.
Global Arguments nearestNumber : simpl never.
Global Arguments numberBelow : simpl never.
Global Arguments addNumber : simpl never.
Global Arguments mulNumber : simpl never.
Global Arguments integerValue : simpl never.
Global Arguments Math_floor : simpl never.
Global Arguments Math_ceil : simpl never.
Global Arguments Math_random : simpl never.

(** [getLevelConfig] of a level index that is an integer (every integer
    of at most 53 bits is a Number): the chain of
    [if (levelIndex >= k) numColors = c] statements is a chain of
    rebindings; [shuffles], [maxMoves] and [timeLimit] are Numbers with an
    integer value, kept as integers in the record. *)
Definition getLevelConfig (levelIndex : Z) : LevelConfig :=
  let numColors := 4 in
  let numColors := if 1 <=? levelIndex then 5 else numColors in
  let numColors := if 3 <=? levelIndex then 6 else numColors in
  let numColors := if 5 <=? levelIndex then 7 else numColors in
  let numColors := if 7 <=? levelIndex then 8 else numColors in
  let numColors := if 10 <=? levelIndex then 9 else numColors in
  let numColors := if 13 <=? levelIndex then 10 else numColors in
  let numColors := if 16 <=? levelIndex then 11 else numColors in
  let numColors := if 19 <=? levelIndex then 12 else numColors in
  let numColors := Z.min numColors (Z.of_nat (length BALL_COLORS)) in
  let shuffles := addNumber 60 (mulNumber (inject_Z levelIndex) 6) in
  let maxMoves := addNumber (inject_Z (Math_floor shuffles)) 3 in
  let timeLimit :=
    addNumber 30 (inject_Z (Math_ceil (mulNumber maxMoves (15 # 10)))) in
  {| numColors := numColors;
     numEmpty := 2;
     shuffles := integerValue shuffles;
     cfg_maxMoves := integerValue maxMoves;
     timeLimit := integerValue timeLimit |}.

Global Arguments getLevelConfig : simpl never.

(** ** utils/gameLogic.ts: the rule engine *)

(** [sourceTube.balls[sourceTube.balls.length - 1]] is [last]; the
    [None] cases of the final match are behind the two emptiness tests. *)
Definition isValidMove (sourceTube destTube : TubeData) : bool :=
  if (tube_id sourceTube =? tube_id destTube)%nat then false
  else if (length (balls sourceTube) =? 0)%nat then false
  else if (capacity destTube <=? length (balls destTube))%nat then false
  else
    let sourceBall := last (balls sourceTube) in
    if (length (balls destTube) =? 0)%nat then true
    else
      let destBall := last (balls destTube) in
      match sourceBall, destBall with
      | Some sb, Some db => (colorId sb =? colorId db)%nat
      | _, _ => false
      end.

(** The callback of [tubes.every] in [checkWinCondition]. *)
Definition tubeIsFine (tube : TubeData) : bool :=
  if (length (balls tube) =? 0)%nat then true
  else if negb (length (balls tube) =? TUBE_CAPACITY)%nat then false
  else
    match head (balls tube) with
    | Some first => forallb (fun b => (colorId b =? colorId first)%nat) (balls tube)
    | None => true
    end.

Definition checkWinCondition (tubes : list TubeData) : bool :=
  forallb tubeIsFine tubes.

(** A stack of balls is monochrome when any two of its balls have the
    same color. *)
Definition monochrome (bs : list Ball) : Prop :=
  ∀ b1 b2, b1 ∈ bs → b2 ∈ bs → colorId b1 = colorId b2.

(** ** Sample balls, tubes and boards *)

Definition redBall : Ball := {| ball_id := "r"; colorId := 0%nat |}.
Definition blueBall : Ball := {| ball_id := "b"; colorId := 1%nat |}.
Definition fourReds : list Ball := [redBall; redBall; redBall; redBall].
Definition fourBlues : list Ball := [blueBall; blueBall; blueBall; blueBall].

Definition tube (i : nat) (bs : list Ball) : TubeData :=
  {| tube_id := i; balls := bs; capacity := TUBE_CAPACITY |}.

(** A board of one tube of capacity 5 with four red balls. *)
Definition wideBoard : list TubeData :=
  [ {| tube_id := 0; balls := fourReds; capacity := 5 |} ].

(** ** utils/gameLogic.ts: the level generator *)

(** [arr[k]] for a computed (integer) index: [None] is [undefined]. *)
Definition arrayGet {A} (arr : list A) (k : Z) : option A :=
  if k <? 0 then None else arr !! Z.to_nat k.

(** [balls.pop()] leaves all balls but the last, [balls.push(b)] adds [b]
    on top; [slice(0, -1)] and [[...balls, b]] build the same lists. *)
Definition popped (t : TubeData) : TubeData :=
  {| tube_id := tube_id t;
     balls := take (length (balls t) - 1) (balls t);
     capacity := capacity t |}.

Definition pushed (t : TubeData) (b : Ball) : TubeData :=
  {| tube_id := tube_id t; balls := balls t ++ [b]; capacity := capacity t |}.

(** The solved board of step 1.  [uuid k] is the result of the [k]-th call
    of [uuidv4]. *)
Definition solvedTube (uuid : nat → string) (numColors : Z) (i : nat) : TubeData :=
  {| tube_id := i;
     capacity := TUBE_CAPACITY;
     balls :=
       if Z.of_nat i <? numColors
       then map (λ j, {| ball_id := uuid (i * TUBE_CAPACITY + j)%nat; colorId := i |})
                (seq 0 TUBE_CAPACITY)
       else [] |}.

Definition solvedBoard (uuid : nat → string) (numColors : Z) (totalTubes : nat)
  : list TubeData :=
  map (solvedTube uuid numColors) (seq 0 totalTubes).

Record Move := mkMove { from : nat; to : nat }.

Global Instance Move_eq_dec : EqDecision Move.
Proof. solve_decision. Defined.

(** The inner [for dest] loop and the outer [for src] loop that fill
    [availableMoves].  A lookup that fails stands for an index outside the
    array, which the loops never produce ([totalTubes] is its length). *)
Definition movesFrom (tubes : list TubeData) (totalTubes src : nat) : list Move :=
  seq 0 totalTubes ≫= λ dest,
    if (src =? dest)%nat then []
    else match tubes !! dest with
         | Some d =>
             if (length (balls d) <? capacity d)%nat
             then [ {| from := src; to := dest |} ] else []
         | None => []
         end.

Definition availableMoves (tubes : list TubeData) (totalTubes : nat) : list Move :=
  seq 0 totalTubes ≫= λ src,
    match tubes !! src with
    | Some s =>
        if (length (balls s) =? 0)%nat then [] else movesFrom tubes totalTubes src
    | None => []
    end.

Definition usefulMoves (available : list Move) (previousSource : Z) : list Move :=
  filter (λ m, Z.of_nat (to m) ≠ previousSource) available.

Definition movePool (tubes : list TubeData) (totalTubes : nat) (previousSource : Z)
  : list Move :=
  let available := availableMoves tubes totalTubes in
  let useful := usefulMoves available previousSource in
  if (0 <? length useful)%nat then useful else available.

(** [Math.floor (Math.random () * movePool.length)] for the random number
    [r]; the length of an array is below [2 ^ 32], a Number. *)
Definition randomIndex (r : Q) (len : nat) : Z :=
  Math_floor (mulNumber (Math_random r) (inject_Z (Z.of_nat len))).

(** [tubes[from].balls.pop()] followed by [tubes[to].balls.push(ball)]:
    two in-place updates of the array of tubes. *)
Definition performMove (tubes : list TubeData) (m : Move) : option (list TubeData) :=
  src ← tubes !! from m;
  ball ← last (balls src);
  let tubes1 := <[from m := popped src]> tubes in
  dst ← tubes1 !! to m;
  Some (<[to m := pushed dst ball]> tubes1).

(** The shuffle loop with [n] iterations left, of which [i] is the next:
    [rand i] is the random number drawn in iteration [i].  [None] is a
    run-time error (an access through [undefined]). *)
Fixpoint shuffleLoop (rand : nat → Q) (totalTubes n i : nat)
    (tubes : list TubeData) (previousSource : Z) : option (list TubeData) :=
  match n with
  | O => Some tubes
  | S n' =>
      let pool := movePool tubes totalTubes previousSource in
      if (0 <? length pool)%nat then
        randomMove ← arrayGet pool (randomIndex (rand i) (length pool));
        tubes' ← performMove tubes randomMove;
        shuffleLoop rand totalTubes n' (S i) tubes' (Z.of_nat (from randomMove))
      else Some tubes
  end.

Definition isAllSame (bs : list Ball) : option bool :=
  first ← head bs;
  Some (forallb (λ b, (colorId b =? colorId first)%nat) bs).

(** One iteration of the [for] loop of the post-shuffle validation, on the
    tube at index [i].  [validDest] is found before the pop, by id, and is
    the object at the index [list_find] returns. *)
Definition breakSolved (i : nat) (st : list TubeData * bool)
  : option (list TubeData * bool) :=
  let '(tubes, hasSolvedTube) := st in
  tube ← tubes !! i;
  if (length (balls tube) =? TUBE_CAPACITY)%nat then
    isAllSame ← isAllSame (balls tube);
    if isAllSame : bool then
      match list_find (λ t, tube_id t ≠ i ∧ (length (balls t) < capacity t)%nat) tubes with
      | Some (j, _) =>
          ball ← last (balls tube);
          let tubes1 := <[i := popped tube]> tubes in
          validDest ← tubes1 !! j;
          Some (<[j := pushed validDest ball]> tubes1, true)
      | None => Some (tubes, true)
      end
    else Some (tubes, hasSolvedTube)
  else Some (tubes, hasSolvedTube).

Fixpoint scanTubes (idxs : list nat) (st : list TubeData * bool)
  : option (list TubeData * bool) :=
  match idxs with
  | [] => Some st
  | i :: rest => st' ← breakSolved i st; scanTubes rest st'
  end.

(** The [while (hasSolvedTube && attempts < 100)] loop; [fuel] is
    [100 - attempts]. *)
Fixpoint validateLoop (fuel totalTubes : nat) (tubes : list TubeData)
    (hasSolvedTube : bool) : option (list TubeData) :=
  match fuel with
  | O => Some tubes
  | S fuel' =>
      if hasSolvedTube then
        st ← scanTubes (seq 0 totalTubes) (tubes, false);
        validateLoop fuel' totalTubes st.1 st.2
      else Some tubes
  end.

Definition generateLevel (rand : nat → Q) (uuid : nat → string) (config : LevelConfig)
  : option (list TubeData) :=
  let totalTubes := Z.to_nat (numColors config + numEmpty config) in
  let tubes := solvedBoard uuid (numColors config) totalTubes in
  tubes ← shuffleLoop rand totalTubes (Z.to_nat (shuffles config)) 0 tubes (-1);
  validateLoop 100 totalTubes tubes true.

(** *** The scrambling rule in words

    A move is legal for scrambling when its source holds a ball, its
    destination has room, and the two differ. *)
Definition legalMove (tubes : list TubeData) (m : Move) : Prop :=
  from m ≠ to m
  ∧ ∃ s d, tubes !! from m = Some s ∧ tubes !! to m = Some d
           ∧ balls s ≠ [] ∧ (length (balls d) < capacity d)%nat.

Definition reverseMove (m : Move) : Move := {| from := to m; to := from m |}.

(** The pool of a scramble step as the specification words it: every legal
    move but the exact reverse of the preceding move, or every legal move
    when nothing else is legal. *)
Definition spec_movePool (tubes : list TubeData) (totalTubes : nat)
    (previousMove : option Move) : list Move :=
  let available := availableMoves tubes totalTubes in
  let nonReverse :=
    filter (λ m, Some m ≠ reverseMove <$> previousMove) available in
  if (0 <? length nonReverse)%nat then nonReverse else available.

(** A board in the middle of a scramble, before and after the move from
    tube 0 to tube 1, and a move into the tube that move emptied by one. *)
Definition unscrambledBoard : list TubeData :=
  [ tube 0 fourReds; tube 1 [blueBall]; tube 2 [blueBall; blueBall];
    tube 3 [blueBall] ].

Definition scrambledBoard : list TubeData :=
  [ tube 0 [redBall; redBall; redBall]; tube 1 [blueBall; redBall];
    tube 2 [blueBall; blueBall]; tube 3 [blueBall] ].

Definition firstMove : Move := {| from := 0; to := 1 |}.
Definition refillMove : Move := {| from := 2; to := 0 |}.

(** *** What the generator maintains

    The number of balls of a color in a stack and on a board, and the number
    of balls on a board. *)
Definition countColor (c : ColorId) (bs : list Ball) : nat :=
  length (filter (λ b, colorId b = c) bs).

Definition boardCount (c : ColorId) (tubes : list TubeData) : nat :=
  sum_list_with (λ t, countColor c (balls t)) tubes.

Definition totalBalls (tubes : list TubeData) : nat :=
  sum_list_with (λ t, length (balls t)) tubes.

(** A pre-solved tube: full and of one color. *)
Definition presolved (t : TubeData) : Prop :=
  length (balls t) = TUBE_CAPACITY ∧ monochrome (balls t).

(** A board of [totalTubes] tubes with all balls of [colors] colors: tube
    [i] has id [i] and capacity [TUBE_CAPACITY] and is not over-full, and
    each of the colors below [colors] has [TUBE_CAPACITY] balls. *)
Record boardOK (totalTubes colors : nat) (tubes : list TubeData) : Prop := {
  ok_length : length tubes = totalTubes;
  ok_tube : ∀ i t, tubes !! i = Some t →
      tube_id t = i ∧ capacity t = TUBE_CAPACITY
      ∧ (length (balls t) ≤ TUBE_CAPACITY)%nat;
  ok_colors : ∀ c,
      boardCount c tubes = if decide (c < colors)%nat then TUBE_CAPACITY else 0%nat;
  ok_total : totalBalls tubes = (colors * TUBE_CAPACITY)%nat
}.

(** ** App: the session *)

(** The session record of types.ts, over the representation [B] of a
    board: the board itself, [list TubeData], where only its value matters,
    and the address of the array of tubes where the identity of the arrays
    and objects matters as well.  [initialTubes] is optional: saves of an
    older version lack it, and [handleReset] tests for it. *)
Record GameStateOf (B : Type) := mkGameState {
  tubes : B;
  initialTubes : option B;
  selectedTubeId : option nat;
  moves : Z;
  maxMoves : Z;
  level : Z;
  isCompleted : bool;
  isFailed : bool;
  history : list B;
  timeLeft : Z;
  totalTime : Z
}.

Global Arguments mkGameState {B} _ _ _ _ _ _ _ _ _ _ _.
Global Arguments tubes {B} _.
Global Arguments initialTubes {B} _.
Global Arguments selectedTubeId {B} _.
Global Arguments moves {B} _.
Global Arguments maxMoves {B} _.
Global Arguments level {B} _.
Global Arguments isCompleted {B} _.
Global Arguments isFailed {B} _.
Global Arguments history {B} _.
Global Arguments timeLeft {B} _.
Global Arguments totalTime {B} _.

Abbreviation GameState := (GameStateOf (list TubeData)).

(** The three states of a session. *)
Inductive Status := Playing | Completed | Failed.

Definition sessionStatus (s : GameState) : Status :=
  if isCompleted s then Completed else if isFailed s then Failed else Playing.

Definition isPlaying (s : GameState) : Prop :=
  isCompleted s = false ∧ isFailed s = false.

(** [{ ...prev, selectedTubeId: sel }]. *)
Definition withSelection (prev : GameState) (sel : option nat) : GameState :=
  {| tubes := tubes prev; initialTubes := initialTubes prev;
     selectedTubeId := sel;
     moves := moves prev; maxMoves := maxMoves prev; level := level prev;
     isCompleted := isCompleted prev; isFailed := isFailed prev;
     history := history prev;
     timeLeft := timeLeft prev; totalTime := totalTime prev |}.

(** [tubes.find (t => t.id === id)]. *)
Definition findTube (tubes : list TubeData) (id : nat) : option TubeData :=
  snd <$> list_find (λ t, tube_id t = id) tubes.

(** [JSON.parse (JSON.stringify (tubes))] rebuilds every array and object
    of the board from its fields. *)
Definition cloneBall (b : Ball) : Ball :=
  {| ball_id := ball_id b; colorId := colorId b |}.

Definition cloneTube (t : TubeData) : TubeData :=
  {| tube_id := tube_id t; balls := map cloneBall (balls t); capacity := capacity t |}.

Definition deepClone (tubes : list TubeData) : list TubeData := map cloneTube tubes.

Definition initLevel (rand : nat → Q) (uuid : nat → string) (levelIndex : Z)
  : option GameState :=
  let config := getLevelConfig levelIndex in
  newTubes ← generateLevel rand uuid config;
  let initialTubes := deepClone newTubes in
  Some {| tubes := newTubes;
          initialTubes := Some initialTubes;
          selectedTubeId := None;
          moves := 0;
          maxMoves := cfg_maxMoves config;
          level := levelIndex;
          isCompleted := false;
          isFailed := false;
          history := [];
          timeLeft := timeLimit config;
          totalTime := timeLimit config |}.

(** The [tubes.map] of a valid move: new objects for the tubes with the
    source and the destination id, the others as they are. *)
Definition moveBall (tubes : list TubeData) (sourceTube destTube : TubeData)
    (ballToMove : Ball) : list TubeData :=
  map (λ t,
      if (tube_id t =? tube_id sourceTube)%nat then
        {| tube_id := tube_id t;
           balls := take (length (balls t) - 1) (balls t);
           capacity := capacity t |}
      else if (tube_id t =? tube_id destTube)%nat then
        {| tube_id := tube_id t; balls := balls t ++ [ballToMove]; capacity := capacity t |}
      else t)
    tubes.

(** [handleTubeClick].  [None] is the [TypeError] of a move whose source
    or destination lookup yields [undefined]. *)
Definition handleTubeClick (gameState : GameState) (id : nat) : option GameState :=
  if isCompleted gameState || isFailed gameState then Some gameState
  else
    let prev := gameState in
    match selectedTubeId prev with
    | None =>
        match findTube (tubes prev) id with
        | None => Some prev
        | Some tube =>
            if (length (balls tube) =? 0)%nat then Some prev
            else Some (withSelection prev (Some id))
        end
    | Some selected =>
        if (selected =? id)%nat then Some (withSelection prev None)
        else
          sourceTube ← findTube (tubes prev) selected;
          destTube ← findTube (tubes prev) id;
          if isValidMove sourceTube destTube then
            ballToMove ← last (balls sourceTube);
            let newTubes := moveBall (tubes prev) sourceTube destTube ballToMove in
            let newMoveCount := moves prev + 1 in
            let isWin := checkWinCondition newTubes in
            let isFail := negb isWin && (maxMoves prev <=? newMoveCount) in
            Some {| tubes := newTubes;
                    initialTubes := initialTubes prev;
                    selectedTubeId := None;
                    moves := newMoveCount;
                    maxMoves := maxMoves prev;
                    level := level prev;
                    isCompleted := isWin;
                    isFailed := isFail;
                    history := history prev ++ [tubes prev];
                    timeLeft := timeLeft prev;
                    totalTime := totalTime prev |}
          else if (0 <? length (balls destTube))%nat
               then Some (withSelection prev (Some id))
               else Some (withSelection prev None)
    end.

(** The unlock frontier a winning move writes ([setUnlockedLevels]). *)
Definition unlockAfterWin (prev : GameState) (unlockedLevels : Z) : Z :=
  if (unlockedLevels <=? level prev + 1) && (level prev + 1 <? TOTAL_LEVELS)
  then level prev + 2 else unlockedLevels.

Definition handleUndo (prev : GameState) : GameState :=
  if (length (history prev) =? 0)%nat || isFailed prev || isCompleted prev then prev
  else
    match last (history prev) with
    | None => prev
    | Some previousTubes =>
        {| tubes := previousTubes;
           initialTubes := initialTubes prev;
           selectedTubeId := None;
           moves := moves prev;
           maxMoves := maxMoves prev;
           level := level prev;
           isCompleted := false;
           isFailed := false;
           history := take (length (history prev) - 1) (history prev);
           timeLeft := timeLeft prev;
           totalTime := totalTime prev |}
    end.

(** [handleReset]; the board is generated anew only for a state without
    [initialTubes]. *)
Definition handleReset (rand : nat → Q) (uuid : nat → string) (gameState : GameState)
  : option GameState :=
  let config := getLevelConfig (level gameState) in
  resetTubes ← match initialTubes gameState with
               | Some initial => Some (deepClone initial)
               | None => generateLevel rand uuid config
               end;
  Some {| tubes := resetTubes;
          initialTubes := Some (default resetTubes (initialTubes gameState));
          selectedTubeId := None;
          moves := 0;
          maxMoves := cfg_maxMoves config;
          level := level gameState;
          isCompleted := false;
          isFailed := false;
          history := [];
          timeLeft := timeLimit config;
          totalTime := timeLimit config |}.

(** *** [handleReset] on the heap

    Whether the board after a reset is a copy or the very arrays and objects
    of [initialTubes] is a question about references.  For it, arrays and
    objects live in a heap at addresses, and a session holds the addresses
    of its boards. *)
Definition loc := nat.

Inductive Obj :=
  | OBall (id : string) (color : ColorId)
  | OTube (id : nat) (ballsAt : loc) (cap : nat)
  | OArray (elems : list loc).

(** [new]: the object is stored at an address not in use. *)
Definition alloc (h : gmap loc Obj) (o : Obj) : gmap loc Obj * loc :=
  let l := fresh (dom h) in (<[l := o]> h, l).

Global Arguments alloc : simpl never.

(** [JSON.stringify] walks the board from the address of its array down
    to the balls; a read returns the value found together with the addresses
    visited.  [None]: the address does not hold what the walk expects. *)
Definition readBallAt (h : gmap loc Obj) (l : loc) : option (Ball * list loc) :=
  match h !! l with
  | Some (OBall i c) => Some ({| ball_id := i; colorId := c |}, [l])
  | _ => None
  end.

Definition readArrayAt {A} (readOne : gmap loc Obj → loc → option (A * list loc))
    (h : gmap loc Obj) (arr : loc) : option (list A * list loc) :=
  match h !! arr with
  | Some (OArray ls) =>
      rs ← mapM (readOne h) ls;
      Some (rs.*1, arr :: concat rs.*2)
  | _ => None
  end.

Definition readTubeAt (h : gmap loc Obj) (l : loc) : option (TubeData * list loc) :=
  match h !! l with
  | Some (OTube i arr cap) =>
      r ← readArrayAt readBallAt h arr;
      Some ({| tube_id := i; balls := r.1; capacity := cap |}, l :: r.2)
  | _ => None
  end.

Definition readBoardAt (h : gmap loc Obj) (p : loc)
  : option (list TubeData * list loc) :=
  readArrayAt readTubeAt h p.

Definition readBoard (h : gmap loc Obj) (p : loc) : option (list TubeData) :=
  fst <$> readBoardAt h p.

(** [JSON.parse] builds a new object for every ball and tube and a new
    array for every list, bottom up. *)
Definition allocBall (h : gmap loc Obj) (b : Ball) : gmap loc Obj * loc :=
  alloc h (OBall (ball_id b) (colorId b)).

Fixpoint allocList {A} (allocOne : gmap loc Obj → A → gmap loc Obj * loc)
    (h : gmap loc Obj) (xs : list A) : gmap loc Obj * list loc :=
  match xs with
  | [] => (h, [])
  | x :: xs' =>
      let '(h1, l) := allocOne h x in
      let '(h2, ls) := allocList allocOne h1 xs' in
      (h2, l :: ls)
  end.

Definition allocArray {A} (allocOne : gmap loc Obj → A → gmap loc Obj * loc)
    (h : gmap loc Obj) (xs : list A) : gmap loc Obj * loc :=
  let '(h1, ls) := allocList allocOne h xs in
  alloc h1 (OArray ls).

Definition allocTube (h : gmap loc Obj) (t : TubeData) : gmap loc Obj * loc :=
  let '(h1, arr) := allocArray allocBall h (balls t) in
  alloc h1 (OTube (tube_id t) arr (capacity t)).

Definition allocBoard (h : gmap loc Obj) (b : list TubeData) : gmap loc Obj * loc :=
  allocArray allocTube h b.

Global Arguments allocBoard : simpl never.

(** What allocation and reading owe each other: a read survives the growth
    of the heap; an allocation only adds to the heap, and reading at the
    address it returns gives back the value, from addresses that were free
    before. *)
Definition allocSpec {A} (allocOne : gmap loc Obj → A → gmap loc Obj * loc)
    (readOne : gmap loc Obj → loc → option (A * list loc)) : Prop :=
  (∀ h h' l r, readOne h l = Some r → h ⊆ h' → readOne h' l = Some r)
  ∧ (∀ h x,
       h ⊆ (allocOne h x).1
       ∧ ∃ fp, readOne (allocOne h x).1 (allocOne h x).2 = Some (x, fp)
               ∧ ∀ l, l ∈ fp → h !! l = None).

(** [JSON.parse (JSON.stringify (initialTubes))] on the heap. *)
Definition deepCloneAt (h : gmap loc Obj) (p : loc) : option (gmap loc Obj * loc) :=
  b ← readBoard h p;
  Some (allocBoard h b).

(** [handleReset] on the heap.  The generator, too, returns a board built
    of new arrays and objects. *)
Definition handleResetAt (rand : nat → Q) (uuid : nat → string)
    (h : gmap loc Obj) (gameState : GameStateOf loc)
  : option (gmap loc Obj * GameStateOf loc) :=
  let config := getLevelConfig (level gameState) in
  r ← match initialTubes gameState with
      | Some initial => deepCloneAt h initial
      | None => allocBoard h <$> generateLevel rand uuid config
      end;
  let '(h', resetTubes) := r in
  Some (h',
        {| tubes := resetTubes;
           initialTubes := Some (default resetTubes (initialTubes gameState));
           selectedTubeId := None;
           moves := 0;
           maxMoves := cfg_maxMoves config;
           level := level gameState;
           isCompleted := false;
           isFailed := false;
           history := [];
           timeLeft := timeLimit config;
           totalTime := timeLimit config |}).

(** The session a heap session stands for: its boards read from the
    heap. *)
Definition sessionAt (h : gmap loc Obj) (gs : GameStateOf loc) : option GameState :=
  board ← readBoard h (tubes gs);
  initial ← match initialTubes gs with
            | Some p => Some <$> readBoard h p
            | None => Some None
            end;
  hist ← mapM (readBoard h) (history gs);
  Some {| tubes := board;
          initialTubes := initial;
          selectedTubeId := selectedTubeId gs;
          moves := moves gs;
          maxMoves := maxMoves gs;
          level := level gs;
          isCompleted := isCompleted gs;
          isFailed := isFailed gs;
          history := hist;
          timeLeft := timeLeft gs;
          totalTime := totalTime gs |}.

(** The timer callback, run once a second while the session is playing
    and time is left. *)
Definition tick (prev : GameState) : GameState :=
  let newTime := timeLeft prev - 1 in
  {| tubes := tubes prev; initialTubes := initialTubes prev;
     selectedTubeId := selectedTubeId prev;
     moves := moves prev; maxMoves := maxMoves prev; level := level prev;
     isCompleted := isCompleted prev;
     isFailed := if newTime <=? 0 then true else isFailed prev;
     history := history prev;
     timeLeft := if newTime <=? 0 then 0 else newTime;
     totalTime := totalTime prev |}.

(** The property of the selection that the click handler relies on: the
    selected id, if there is one, is found on the board, at a tube that
    holds a ball. *)
Definition selectionOK (s : GameState) : Prop :=
  match selectedTubeId s with
  | None => True
  | Some selected =>
      selected ∈ map tube_id (tubes s)
      ∧ ∃ t, findTube (tubes s) selected = Some t ∧ balls t ≠ []
  end.

(** The sessions the player can reach: a level is started, then tubes are
    clicked, moves undone, the level reset, and the timer ticks. *)
Inductive reachable : GameState → Prop :=
  | reach_init rand uuid levelIndex s :
      initLevel rand uuid levelIndex = Some s → reachable s
  | reach_click s id s' :
      reachable s → handleTubeClick s id = Some s' → reachable s'
  | reach_undo s : reachable s → reachable (handleUndo s)
  | reach_reset rand uuid s s' :
      reachable s → handleReset rand uuid s = Some s' → reachable s'
  | reach_tick s :
      reachable s → isPlaying s → 0 < timeLeft s → reachable (tick s).

(** The board of the first scenario, [[R,R,R,R],[B,B,B,B],[],[]], and a
    session on it with tube 0 selected. *)
Definition sampleBoard : list TubeData :=
  [tube 0 fourReds; tube 1 fourBlues; tube 2 []; tube 3 []].

Definition sampleSession (selected : option nat) (moves maxMoves : Z) : GameState :=
  {| tubes := sampleBoard; initialTubes := Some sampleBoard;
     selectedTubeId := selected;
     moves := moves; maxMoves := maxMoves; level := 0;
     isCompleted := false; isFailed := false;
     history := []; timeLeft := 125; totalTime := 125 |}.

(** A configuration without an empty tube. *)
Definition noEmptyConfig : LevelConfig :=
  {| numColors := 4; numEmpty := 0; shuffles := 60;
     cfg_maxMoves := 63; timeLimit := 125 |}.

(** A sample source of random numbers in [[0, 1)] and of ball ids. *)
Definition sampleRand (i : nat) : Q := Z.of_nat ((i * 37 + 11) mod 100) # 100.

Definition sampleUuid (k : nat) : string :=
  ("ball-" +:+ NilEmpty.string_of_uint (Nat.to_uint k))%string.

(** A heap that holds the sample board twice, as the board in play and as
    [initialTubes], and a failed session on it. *)
Definition sampleHeap : gmap loc Obj * (loc * loc) :=
  let '(h1, p1) := allocBoard ∅ sampleBoard in
  let '(h2, p2) := allocBoard h1 sampleBoard in
  (h2, (p1, p2)).

Definition sampleSessionAt : GameStateOf loc :=
  {| tubes := sampleHeap.2.1; initialTubes := Some sampleHeap.2.2;
     selectedTubeId := Some 1%nat;
     moves := 63; maxMoves := 63; level := 0;
     isCompleted := false; isFailed := true;
     history := []; timeLeft := 17; totalTime := 125 |}.

(** ** Proof steps used more than once *)

(** Case analysis on every integer comparison [a <=? b] of the goal. *)
Ltac case_leb :=
  repeat match goal with
         | |- context [(?a <=? ?b)%Z] => destruct (Z.leb_spec a b)
         end.

(** * Further code: what the components show and the rest of the App *)

(** ** Ball.tsx, Tube.tsx *)

(** [BALL_COLORS[ball.colorId]]: [None] is [undefined]. *)
Definition ballColor (ball : Ball) : option string := BALL_COLORS !! colorId ball.

(** [isCompleted] of the Tube component: the tube glows when it is full to
    its own capacity and of one color.  [None] is the [TypeError] of
    [tube.balls[0].colorId] on an empty array. *)
Definition tubeIsCompleted (tube : TubeData) : option bool :=
  if negb (length (balls tube) =? capacity tube)%nat then Some false
  else
    first ← head (balls tube);
    Some (forallb (λ b, (colorId b =? colorId first)%nat) (balls tube)).

(** ** utils/gameLogic.ts: what the generator does to the balls *)

(** All balls of a board, tube by tube. *)
Definition allBalls (tubes : list TubeData) : list Ball := tubes ≫= balls.

(** One scramble move: a legal move, performed. *)
Definition legalStep (tubes tubes' : list TubeData) : Prop :=
  ∃ m, legalMove tubes m ∧ performMove tubes m = Some tubes'.

(** ** App: the controls and the menu *)

(** [canUndo], as passed to the Controls component. *)
Definition canUndo (gameState : GameState) : bool :=
  (0 <? length (history gameState))%nat
  && negb (isCompleted gameState) && negb (isFailed gameState).

(** [isLocked] of the level grid, for the button of level index [idx]. *)
Definition isLocked (idx unlockedLevels : Z) : bool := unlockedLevels <? idx + 1.

(** The condition under which the win dialog offers [Next Level]. *)
Definition nextLevelOffered (gameState : GameState) : bool :=
  level gameState <? TOTAL_LEVELS - 1.

(** [handleLevelSelect]: the session afterwards (the menu is hidden on both
    paths). *)
Definition handleLevelSelect (rand : nat → Q) (uuid : nat → string)
    (gameState : option GameState) (levelIndex : Z) : option GameState :=
  match gameState with
  | Some gs =>
      if (level gs =? levelIndex) && negb (isCompleted gs) && negb (isFailed gs)
      then Some gs
      else initLevel rand uuid levelIndex
  | None => initLevel rand uuid levelIndex
  end.

(** The mounting condition of the timer, and [k] seconds of it. *)
Definition timerRuns (gameState : GameState) : bool :=
  negb (isCompleted gameState) && negb (isFailed gameState)
  && (0 <? timeLeft gameState).

(** ** What a session keeps

    The number of colors of a level, and the boards of a level: well formed
    for that number of colors and two empty tubes. *)
Definition levelColors (levelIndex : Z) : nat :=
  Z.to_nat (numColors (getLevelConfig levelIndex)).

Definition levelBoard (levelIndex : Z) (board : list TubeData) : Prop :=
  boardOK (levelColors levelIndex + 2) (levelColors levelIndex) board.

Record sessionInv (s : GameState) : Prop := {
  inv_board : levelBoard (level s) (tubes s);
  inv_history :
    Forall (λ b, levelBoard (level s) b ∧ checkWinCondition b = false) (history s);
  inv_initial : ∃ init, initialTubes s = Some init
                        ∧ levelBoard (level s) init
                        ∧ checkWinCondition init = false;
  inv_completed : isCompleted s = checkWinCondition (tubes s);
  inv_flags : isCompleted s = true → isFailed s = false;
  inv_failed : isFailed s = true → timeLeft s = 0 ∨ maxMoves s ≤ moves s;
  inv_moves : 0 ≤ moves s ∧ Z.of_nat (length (history s)) ≤ moves s;
  inv_time : timeLeft s ≤ totalTime s;
  inv_budget : 0 ≤ level s →
      (isPlaying s → moves s < maxMoves s ∧ 0 < timeLeft s)
      ∧ (isFailed s = true →
           (timeLeft s = 0 ∧ moves s < maxMoves s)
           ∨ (0 < timeLeft s ∧ moves s = maxMoves s))
      ∧ (isCompleted s = true → moves s ≤ maxMoves s ∧ 0 < timeLeft s)
}.

(** The title of the dialog of a failed session. *)
Definition failTitle (gameState : GameState) : string :=
  if timeLeft gameState =? 0 then "Time's Up!" else "Out of Moves".

(** A sample session: level 0 started with the sample random numbers, and
    the same session after tube 1 was selected and its ball moved onto
    tube 3. *)
Ltac sample_session H0 Hr :=
  eassert (H0 : initLevel sampleRand sampleUuid 0 = Some _)
    by (vm_compute; reflexivity);
  pose proof (reach_init _ _ _ _ H0) as Hr.

Ltac played_session Hr :=
  let H0 := fresh in
  let Hr0 := fresh in
  let H1 := fresh in
  let H2 := fresh in
  sample_session H0 Hr0;
  match type of H0 with
  | _ = Some ?s0 =>
      eassert (H1 : handleTubeClick s0 1%nat = Some _) by (vm_compute; reflexivity);
      match type of H1 with
      | _ = Some ?s1 =>
          eassert (H2 : handleTubeClick s1 3%nat = Some _)
            by (vm_compute; reflexivity);
          pose proof (reach_click _ _ _ (reach_click _ _ _ Hr0 H1) H2) as Hr
      end
  end.

(** [{ ...s, timeLeft: t, isFailed: failed }]. *)
Definition withClock (s : GameState) (t : Z) (failed : bool) : GameState :=
  {| tubes := tubes s; initialTubes := initialTubes s;
     selectedTubeId := selectedTubeId s;
     moves := moves s; maxMoves := maxMoves s; level := level s;
     isCompleted := isCompleted s; isFailed := failed;
     history := history s;
     timeLeft := t; totalTime := totalTime s |}.

(** The session after [handleLevelSelect]: the one there was, or one that
    [initLevel] started. *)
Definition reachableOrResumed (before : option GameState) (after : GameState) : Prop :=
  before = Some after ∨ reachable after.

(** ** Controls.tsx *)

From Stdlib Require Import Ascii DecimalNat.







(** The boards of a session hold the balls of [initialTubes]. *)
Definition ballsKept (s : GameState) : Prop :=
  ∃ init, initialTubes s = Some init
          ∧ allBalls (tubes s) ≡ₚ allBalls init
          ∧ Forall (λ b, allBalls b ≡ₚ allBalls init) (history s).

(** A series of clicks on tubes, one call of [handleTubeClick] each, and the
    clicks that solve the sample session's board in eleven moves. *)
Fixpoint clickAll (s : GameState) (ids : list nat) : option GameState :=
  match ids with
  | [] => Some s
  | i :: ids => s' ← handleTubeClick s i; clickAll s' ids
  end.

Definition solvingClicks : list nat :=
  [1; 3; 1; 3; 4; 3; 5; 4; 0; 5; 1; 0; 2; 5; 2; 5; 4; 2; 4; 2; 4; 0]%nat.

(** * Properties *)

(** ** JavaScript numbers *)

Lemma pow2_pos (e : Z) : (0 < pow2 e)%Q.
Proof. apply Qpower_0_lt. reflexivity. Qed.

Lemma pow2_add (a b : Z) : (pow2 (a + b) == pow2 a * pow2 b)%Q.
Proof. apply Qpower_plus. discriminate. Qed.

Lemma pow2_cancel (e : Z) : (pow2 (- e) * pow2 e == 1)%Q.
Proof. rewrite <- pow2_add. by replace (- e + e) with 0 by lia. Qed.

Lemma pow2_Z (n : Z) : 0 ≤ n → (pow2 n == inject_Z (2 ^ n))%Q.
Proof. intros Hn. unfold pow2. by rewrite Zpower_Qpower. Qed.

Lemma pow2_le (a b : Z) : a ≤ b → (pow2 a <= pow2 b)%Q.
Proof. intros H. apply Qpower_le_compat_l; [done|]. discriminate. Qed.

Lemma pow2_lt (a b : Z) : a < b → (pow2 a < pow2 b)%Q.
Proof. intros H. apply Qpower_lt_compat_l; [done|]. reflexivity. Qed.

Lemma pow2_lt_inv (a b : Z) : (pow2 a < pow2 b)%Q → a < b.
Proof. intros H. eapply Qpower_lt_compat_l_inv; [exact H|]. reflexivity. Qed.

Lemma exponent_spec (x : Q) :
  ¬ (x == 0)%Q →
  (pow2 (exponent x + 52) <= Qabs x ∧ Qabs x < pow2 (exponent x + 53))%Q.
Proof.
  destruct x as [n d]. intros Hx.
  assert (Hn : 0 < Z.abs n).
  { destruct (Z.eq_dec n 0) as [->|]; [by destruct Hx | lia]. }
  unfold exponent. cbn [Qnum Qden].
  set (a := Z.log2 (Z.abs n)). set (b := Z.log2 (Z.pos d)).
  set (X := Qabs (n # d)).
  assert (HX : (X * inject_Z (Z.pos d) == inject_Z (Z.abs n))%Q).
  { unfold X, Qabs, Qeq, inject_Z, Qmult. cbn [Qnum Qden].
    rewrite Pos.mul_1_r. lia. }
  destruct (Z.log2_spec (Z.abs n) Hn) as [Ha1 Ha2]. fold a in Ha1, Ha2.
  destruct (Z.log2_spec (Z.pos d) ltac:(lia)) as [Hb1 Hb2]. fold b in Hb1, Hb2.
  assert (0 ≤ a) by apply Z.log2_nonneg.
  assert (0 ≤ b) by apply Z.log2_nonneg.
  rewrite Zle_Qle, <- pow2_Z in Ha1, Hb1 by lia.
  rewrite Zlt_Qlt, <- pow2_Z in Ha2, Hb2 by lia.
  assert (Hd : (0 < inject_Z (Z.pos d))%Q) by (by rewrite <- (Zlt_Qlt 0)).
  assert (Hlow : (pow2 (a - b - 1) < X)%Q).
  { pose proof (pow2_add (a - b - 1) (Z.succ b)) as E.
    replace (a - b - 1 + Z.succ b) with a in E by lia.
    pose proof (pow2_pos (a - b - 1)). nra. }
  assert (Hhigh : (X < pow2 (a - b + 1))%Q).
  { pose proof (pow2_add (a - b + 1) b) as E.
    replace (a - b + 1 + b) with (Z.succ a) in E by lia.
    pose proof (pow2_pos (a - b + 1)). nra. }
  destruct (Qle_bool (pow2 (a - b)) X) eqn:Hcmp.
  - apply Qle_bool_iff in Hcmp.
    replace (a - b - 52 + 52) with (a - b) by lia.
    replace (a - b - 52 + 53) with (a - b + 1) by lia. done.
  - assert (X < pow2 (a - b))%Q.
    { apply Qnot_le_lt. intros Hle. apply Qle_bool_iff in Hle. congruence. }
    replace (a - b - 1 - 52 + 52) with (a - b - 1) by lia.
    replace (a - b - 1 - 52 + 53) with (a - b) by lia.
    split; [by apply Qlt_le_weak | done].
Qed.

Lemma pow2_52 : (pow2 52 == 4503599627370496)%Q.
Proof. reflexivity. Qed.

Lemma pow2_53 : (pow2 53 == 9007199254740992)%Q.
Proof. reflexivity. Qed.

Lemma pow2_le_inv (a b : Z) : (pow2 a <= pow2 b)%Q → a ≤ b.
Proof.
  intros H. destruct (Z_le_gt_dec a b) as [|Hgt]; [done|].
  apply Z.gt_lt, pow2_lt in Hgt. lra.
Qed.

(** The significand of a number that is not 0. *)
Lemma significand_bounds (x : Q) :
  (0 < x)%Q →
  (pow2 52 <= x * pow2 (- exponent x) ∧ x * pow2 (- exponent x) < pow2 53)%Q.
Proof.
  intros Hx.
  destruct (exponent_spec x) as [Hlo Hhi]; [lra|].
  rewrite Qabs_pos in Hlo, Hhi by lra.
  set (e := exponent x) in *.
  rewrite (Z.add_comm e), pow2_add in Hlo, Hhi.
  pose proof (pow2_cancel e). pose proof (pow2_pos e). pose proof (pow2_pos (- e)).
  pose proof (pow2_pos 52). pose proof (pow2_pos 53).
  split; nra.
Qed.

Lemma roundHalfEven_bounds (q : Q) :
  (q - (1 # 2) <= inject_Z (roundHalfEven q) ∧ inject_Z (roundHalfEven q) <= q + (1 # 2))%Q.
Proof.
  unfold roundHalfEven.
  pose proof (Qfloor_le q) as Hlo. pose proof (Qlt_floor q) as Hhi.
  rewrite inject_Z_plus in Hhi. change (inject_Z 1) with 1%Q in Hhi.
  destruct (Qcompare_spec (q - inject_Z (Qfloor q)) (1 # 2)) as [E|E|E].
  - destruct (Z.even _); rewrite ?inject_Z_plus; change (inject_Z 1) with 1%Q; lra.
  - lra.
  - rewrite inject_Z_plus. change (inject_Z 1) with 1%Q. lra.
Qed.

Lemma roundHalfEven_ge (z : Z) (q : Q) : (inject_Z z <= q)%Q → z ≤ roundHalfEven q.
Proof.
  intros H. apply Qfloor_resp_le in H. rewrite Qfloor_Z in H.
  unfold roundHalfEven. destruct (Qcompare _ _); [destruct (Z.even _)|..]; lia.
Qed.

Lemma roundHalfEven_le (z : Z) (q : Q) : (q <= inject_Z z)%Q → roundHalfEven q ≤ z.
Proof.
  intros H. pose proof (Qfloor_resp_le _ _ H) as Hf. rewrite Qfloor_Z in Hf.
  pose proof (Qfloor_le q) as Hlo.
  unfold roundHalfEven.
  destruct (Qcompare_spec (q - inject_Z (Qfloor q)) (1 # 2)) as [E|E|E].
  - destruct (Z.eq_dec (Qfloor q) z) as [Ez|]; [rewrite Ez in E; lra|].
    destruct (Z.even _); lia.
  - done.
  - destruct (Z.eq_dec (Qfloor q) z) as [Ez|]; [rewrite Ez in E; lra | lia].
Qed.

Lemma roundHalfEven_Z (z : Z) (q : Q) : (q == inject_Z z)%Q → roundHalfEven q = z.
Proof.
  intros E. apply Z.le_antisymm.
  - apply roundHalfEven_le. lra.
  - apply roundHalfEven_ge. lra.
Qed.

Lemma Qfloor_eq_Z (z : Z) (q : Q) : (q == inject_Z z)%Q → Qfloor q = z.
Proof. intros E. rewrite E. apply Qfloor_Z. Qed.

(** A Number has an integer significand at its exponent. *)
Lemma significand_integer (x : Q) (m j : Z) :
  Z.abs m ≤ 2 ^ 53 → (x == inject_Z m * pow2 j)%Q → ¬ (x == 0)%Q →
  ∃ z : Z, (x * pow2 (- exponent x) == inject_Z z)%Q.
Proof.
  intros Hm Ex Hx.
  destruct (exponent_spec x Hx) as [Hlo Hhi].
  set (e := exponent x) in *.
  assert (Eabs : (Qabs x == inject_Z (Z.abs m) * pow2 j)%Q).
  { rewrite Ex, Qabs_Qmult, (Qabs_pos (pow2 j)) by (apply Qlt_le_weak, pow2_pos).
    reflexivity. }
  assert (Hm' : (inject_Z (Z.abs m) <= pow2 53)%Q).
  { rewrite pow2_Z by lia. by rewrite <- Zle_Qle. }
  pose proof (pow2_pos j) as Hj.
  assert (Ht : -1 ≤ j - e).
  { assert (pow2 (e + 52) <= pow2 (53 + j))%Q; [|apply pow2_le_inv in H; lia].
    rewrite (pow2_add 53 j). rewrite Eabs in Hlo. nra. }
  assert (Esig : (x * pow2 (- e) == inject_Z m * pow2 (j - e))%Q).
  { replace (j - e) with (j + - e) by lia. rewrite pow2_add, Ex. ring. }
  destruct (Z_le_gt_dec 0 (j - e)) as [Hpos|Hneg].
  - exists (m * 2 ^ (j - e)).
    rewrite Esig, pow2_Z, inject_Z_mult by lia. reflexivity.
  - assert (Ej : j - e = -1) by lia.
    assert (Habs : Z.abs m = 2 ^ 53).
    { apply Z.le_antisymm; [done|].
      rewrite Zle_Qle, <- pow2_Z by lia.
      replace (e + 52) with (53 + j) in Hlo by lia.
      rewrite (pow2_add 53 j), Eabs in Hlo. nra. }
    exists (m / 2). rewrite Esig, Ej.
    assert (Em : m = 2 * (m / 2)).
    { apply Z.div_exact; [lia|].
      destruct (Z.abs_spec m) as [[_ E]|[_ E]]; rewrite Habs in E;
        [replace m with (2 ^ 53) by lia | replace m with (- 2 ^ 53) by lia];
        reflexivity. }
    rewrite Em at 1. rewrite inject_Z_mult.
    assert (E1 : (pow2 (-1) == 1 # 2)%Q) by reflexivity.
    rewrite E1. change (inject_Z 2) with 2%Q. field.
Qed.

Lemma Qmult_0_l_eq (x p : Q) : (x == 0)%Q → (x * p == inject_Z 0)%Q.
Proof. intros E. change (inject_Z 0) with 0%Q. nra. Qed.

(** A Number is its own nearest Number and the greatest Number at or
    below itself. *)
Lemma nearestNumber_exact (x : Q) (m j : Z) :
  Z.abs m ≤ 2 ^ 53 → (x == inject_Z m * pow2 j)%Q → (nearestNumber x == x)%Q.
Proof.
  intros Hm Ex. unfold nearestNumber.
  destruct (Qeq_dec x 0) as [E0|Hx].
  - rewrite (roundHalfEven_Z 0).
    + change (inject_Z 0) with 0%Q. rewrite Qmult_0_l. by symmetry.
    + by apply Qmult_0_l_eq.
  - destruct (significand_integer x m j Hm Ex Hx) as [z Ez].
    rewrite (roundHalfEven_Z z _ Ez), <- Ez.
    rewrite <- Qmult_assoc, pow2_cancel. ring.
Qed.

Lemma numberBelow_exact (x : Q) (m j : Z) :
  Z.abs m ≤ 2 ^ 53 → (x == inject_Z m * pow2 j)%Q → (numberBelow x == x)%Q.
Proof.
  intros Hm Ex. unfold numberBelow.
  destruct (Qeq_dec x 0) as [E0|Hx].
  - rewrite (Qfloor_eq_Z 0).
    + change (inject_Z 0) with 0%Q. rewrite Qmult_0_l. by symmetry.
    + by apply Qmult_0_l_eq.
  - destruct (significand_integer x m j Hm Ex Hx) as [z Ez].
    rewrite (Qfloor_eq_Z z _ Ez), <- Ez.
    rewrite <- Qmult_assoc, pow2_cancel. ring.
Qed.

Lemma nearestNumber_Z (z : Z) :
  Z.abs z ≤ 2 ^ 53 → (nearestNumber (inject_Z z) == inject_Z z)%Q.
Proof.
  intros Hz. apply (nearestNumber_exact _ z 0 Hz).
  change (pow2 0) with 1%Q. ring.
Qed.

(** The error of an operation is at most the 53rd binary place of its
    exact result. *)
Lemma nearestNumber_error (x : Q) :
  (0 <= x)%Q →
  (x - x * (1 # 9007199254740992) <= nearestNumber x
   ∧ nearestNumber x <= x + x * (1 # 9007199254740992))%Q.
Proof.
  intros Hx. unfold nearestNumber.
  destruct (Qeq_dec x 0) as [E0|Hne].
  - rewrite (roundHalfEven_Z 0).
    + change (inject_Z 0) with 0%Q. rewrite Qmult_0_l. lra.
    + by apply Qmult_0_l_eq.
  - assert (Hpos : (0 < x)%Q).
    { destruct (Qlt_le_dec 0 x) as [|Hle]; [done|]. destruct Hne. lra. }
    destruct (significand_bounds x Hpos) as [Hlo _].
    pose proof (roundHalfEven_bounds (x * pow2 (- exponent x))) as [Hr1 Hr2].
    set (e := exponent x) in *.
    set (r := inject_Z (roundHalfEven (x * pow2 (- e)))) in *.
    pose proof (pow2_cancel e). pose proof (pow2_pos e). pose proof (pow2_pos (- e)).
    rewrite pow2_52 in Hlo.
    assert (Hulp : (pow2 e * (1 # 2) <= x * (1 # 9007199254740992))%Q) by nra.
    split; nra.
Qed.

Lemma nearestNumber_nonneg (x : Q) : (0 <= x)%Q → (0 <= nearestNumber x)%Q.
Proof. intros Hx. pose proof (nearestNumber_error x Hx). lra. Qed.

(** Rounding does not cross an integer of at most 53 bits. *)
Lemma nearestNumber_ge_integer (x : Q) (n : Z) :
  0 ≤ n ≤ 2 ^ 53 → (inject_Z n <= x)%Q → (inject_Z n <= nearestNumber x)%Q.
Proof.
  intros Hn Hx.
  assert (H0 : (0 <= inject_Z n)%Q) by (rewrite <- (Zle_Qle 0); lia).
  destruct (Z.eq_dec n 0) as [->|Hn0]; [apply nearestNumber_nonneg; lra|].
  assert (H1 : (1 <= inject_Z n)%Q) by (rewrite <- (Zle_Qle 1); lia).
  assert (Hpos : (0 < x)%Q) by lra.
  destruct (significand_bounds x Hpos) as [Hlo _].
  unfold nearestNumber. set (e := exponent x) in *.
  pose proof (pow2_cancel e) as Hc. pose proof (pow2_pos e). pose proof (pow2_pos (- e)).
  destruct (Z_le_gt_dec e 0) as [He|He].
  - assert (Hz : n * 2 ^ (- e) ≤ roundHalfEven (x * pow2 (- e))).
    { apply roundHalfEven_ge. rewrite inject_Z_mult, <- pow2_Z by lia. nra. }
    rewrite Zle_Qle, inject_Z_mult, <- pow2_Z in Hz by lia.
    set (r := inject_Z (roundHalfEven (x * pow2 (- e)))) in *. nra.
  - assert (Hz : 2 ^ 52 ≤ roundHalfEven (x * pow2 (- e))).
    { apply roundHalfEven_ge. by rewrite <- pow2_Z. }
    rewrite Zle_Qle in Hz. change (inject_Z (2 ^ 52)) with 4503599627370496%Q in Hz.
    assert (He' : (2 <= pow2 e)%Q).
    { change 2%Q with (pow2 1). apply pow2_le. lia. }
    assert (Hn' : (inject_Z n <= 9007199254740992)%Q).
    { change 9007199254740992%Q with (inject_Z (2 ^ 53)). rewrite <- Zle_Qle. lia. }
    set (r := inject_Z (roundHalfEven (x * pow2 (- e)))) in *. nra.
Qed.

(** The nearest Number to an integer is an integer. *)
Lemma nearestNumber_integer (z : Z) :
  (nearestNumber (inject_Z z) == inject_Z (integerValue (nearestNumber (inject_Z z))))%Q.
Proof.
  unfold integerValue.
  destruct (Z_le_gt_dec (Z.abs z) (2 ^ 53)) as [Hz|Hz].
  - rewrite (Qfloor_eq_Z z); by rewrite nearestNumber_Z.
  - assert (Hx : ¬ (inject_Z z == 0)%Q).
    { change 0%Q with (inject_Z 0). rewrite inject_Z_injective. lia. }
    destruct (exponent_spec _ Hx) as [_ Hhi].
    change (Qabs (inject_Z z)) with (inject_Z (Z.abs z)) in Hhi.
    assert (He : 0 < exponent (inject_Z z)).
    { assert (pow2 53 < pow2 (exponent (inject_Z z) + 53))%Q; [|apply pow2_lt_inv in H; lia].
      eapply Qle_lt_trans; [|exact Hhi].
      rewrite pow2_Z by lia. rewrite <- Zle_Qle. lia. }
    unfold nearestNumber. set (e := exponent (inject_Z z)) in *.
    set (r := roundHalfEven _).
    assert (E : (inject_Z r * pow2 e == inject_Z (r * 2 ^ e))%Q).
    { rewrite pow2_Z, inject_Z_mult by lia. reflexivity. }
    rewrite (Qfloor_eq_Z (r * 2 ^ e)); [exact E | exact E].
Qed.

Lemma pow2_scale_back (x : Q) (e : Z) : (x * pow2 (- e) * pow2 e == x)%Q.
Proof. rewrite <- Qmult_assoc, pow2_cancel. ring. Qed.

Lemma numberBelow_le (x : Q) : (numberBelow x <= x)%Q.
Proof.
  unfold numberBelow. set (e := exponent x).
  rewrite <- (pow2_scale_back x e) at 2.
  apply Qmult_le_compat_r; [apply Qfloor_le | apply Qlt_le_weak, pow2_pos].
Qed.

Lemma numberBelow_nonneg (x : Q) : (0 <= x)%Q → (0 <= numberBelow x)%Q.
Proof.
  intros Hx. unfold numberBelow. set (e := exponent x).
  pose proof (pow2_pos e). pose proof (pow2_pos (- e)).
  assert (0 ≤ Qfloor (x * pow2 (- e))) as Hf.
  { rewrite <- (Qfloor_Z 0). apply Qfloor_resp_le.
    change (inject_Z 0) with 0%Q. nra. }
  rewrite Zle_Qle in Hf. set (f := inject_Z (Qfloor _)) in *.
  change (inject_Z 0) with 0%Q in Hf. nra.
Qed.

(** The greatest Number below 1 is [1 - 2 ^ -53]. *)
Lemma numberBelow_lt_1 (x : Q) :
  (0 <= x)%Q → (x < 1)%Q → (numberBelow x <= 1 - (1 # 9007199254740992))%Q.
Proof.
  intros Hx0 Hx1.
  destruct (Qeq_dec x 0) as [E0|Hne].
  - pose proof (numberBelow_le x). lra.
  - assert (Hpos : (0 < x)%Q).
    { destruct (Qlt_le_dec 0 x) as [|Hle]; [done|]. destruct Hne. lra. }
    destruct (significand_bounds x Hpos) as [Hlo Hhi].
    destruct (exponent_spec x) as [Hlo' _]; [done|].
    rewrite Qabs_pos in Hlo' by lra.
    unfold numberBelow. set (e := exponent x) in *.
    assert (He : e + 52 < 0).
    { apply pow2_lt_inv. change (pow2 0) with 1%Q. lra. }
    assert (Hpe : (pow2 e <= 1 # 9007199254740992)%Q).
    { change (1 # 9007199254740992)%Q with (pow2 (-53)). apply pow2_le. lia. }
    assert (Hf : Qfloor (x * pow2 (- e)) ≤ 2 ^ 53 - 1).
    { assert (Qfloor (x * pow2 (- e)) < 2 ^ 53); [|lia].
      rewrite Zlt_Qlt. eapply Qle_lt_trans; [apply Qfloor_le|].
      by rewrite <- pow2_Z. }
    assert (Hf0 : 0 ≤ Qfloor (x * pow2 (- e))).
    { rewrite <- (Qfloor_Z 0). apply Qfloor_resp_le.
      change (inject_Z 0) with 0%Q. pose proof (pow2_pos (- e)). nra. }
    rewrite Zle_Qle in Hf, Hf0.
    change (inject_Z (2 ^ 53 - 1)) with 9007199254740991%Q in Hf.
    change (inject_Z 0) with 0%Q in Hf0.
    pose proof (pow2_pos e).
    set (f := inject_Z (Qfloor _)) in *. nra.
Qed.

(** The operations respect the equality of rationals. *)
Lemma exponent_comp (x y : Q) : (x == y)%Q → ¬ (x == 0)%Q → exponent x = exponent y.
Proof.
  intros E Hx.
  assert (Hy : ¬ (y == 0)%Q) by (by rewrite <- E).
  destruct (exponent_spec x Hx) as [Hx1 Hx2].
  destruct (exponent_spec y Hy) as [Hy1 Hy2].
  assert (Eabs : (Qabs x == Qabs y)%Q) by (by apply Qabs_wd).
  assert (pow2 (exponent x + 52) < pow2 (exponent y + 53))%Q as H1%pow2_lt_inv by lra.
  assert (pow2 (exponent y + 52) < pow2 (exponent x + 53))%Q as H2%pow2_lt_inv by lra.
  lia.
Qed.

Lemma roundHalfEven_comp (q q' : Q) : (q == q')%Q → roundHalfEven q = roundHalfEven q'.
Proof.
  intros E. unfold roundHalfEven.
  assert (Ef : Qfloor q = Qfloor q') by (by apply Qfloor_comp).
  rewrite <- Ef.
  assert (Ec : Qcompare (q - inject_Z (Qfloor q)) (1 # 2)
               = Qcompare (q' - inject_Z (Qfloor q)) (1 # 2)).
  { apply Qcompare_comp; [|reflexivity]. by apply Qplus_comp. }
  by rewrite Ec.
Qed.

Lemma nearestNumber_comp (x y : Q) : (x == y)%Q → (nearestNumber x == nearestNumber y)%Q.
Proof.
  intros E. destruct (Qeq_dec x 0) as [E0|Hx].
  - assert (Ex : (nearestNumber x == x)%Q).
    { apply (nearestNumber_exact x 0 0); [done|].
      change (inject_Z 0 * pow2 0)%Q with (0 * 1)%Q. lra. }
    assert (Ey : (nearestNumber y == y)%Q).
    { apply (nearestNumber_exact y 0 0); [done|].
      change (inject_Z 0 * pow2 0)%Q with (0 * 1)%Q. lra. }
    lra.
  - unfold nearestNumber. rewrite <- (exponent_comp x y E Hx).
    rewrite (roundHalfEven_comp (y * pow2 (- exponent x)) (x * pow2 (- exponent x))).
    + reflexivity.
    + apply Qmult_comp; [by symmetry | reflexivity].
Qed.


Lemma nearestNumber_eq_Z (x : Q) (z : Z) :
  Z.abs z ≤ 2 ^ 53 → (x == inject_Z z)%Q → (nearestNumber x == inject_Z z)%Q.
Proof.
  intros Hz E. eapply Qeq_trans; [|exact E].
  apply (nearestNumber_exact x z 0 Hz). change (pow2 0) with 1%Q. lra.
Qed.

Lemma nearestNumber_eq_half (x : Q) (z : Z) :
  Z.abs z ≤ 2 ^ 53 → (x == inject_Z z * (1 # 2))%Q →
  (nearestNumber x == inject_Z z * (1 # 2))%Q.
Proof.
  intros Hz E. eapply Qeq_trans; [|exact E].
  by apply (nearestNumber_exact x z (-1) Hz).
Qed.

(** On these products and sums, among them the ones of the examples below,
    the operations return what the specification of binary64 of the
    standard library returns. *)
Lemma Number_binary64_samples :
  binary64_is (binary64_mul 3752999689475413 (-52) 6 0)
    (mulNumber (3752999689475413 # 2 ^ 52) 6)
  ∧ binary64_is (binary64_mul 7205759403792793 (-56) 7 0)
      (mulNumber (Math_random (1 # 10)) 7)
  ∧ binary64_is (binary64_mul 9007199254740991 (-53) 9 0)
      (mulNumber (Math_random (99999999999999999999 # 100000000000000000000)) 9)
  ∧ binary64_is (binary64_mul (2 ^ 51) 0 6 0) (mulNumber (inject_Z (2 ^ 51)) 6)
  ∧ binary64_is (binary64_add 60 0 (6 * 2 ^ 51) 0) (addNumber 60 (inject_Z (6 * 2 ^ 51)))
  ∧ binary64_is (binary64_add (60 + 6 * 2 ^ 51) 0 3 0)
      (addNumber (inject_Z (60 + 6 * 2 ^ 51)) 3)
  ∧ binary64_is (binary64_add 60 0 (6 * 10 ^ 16) 0) (addNumber 60 (inject_Z (6 * 10 ^ 16)))
  ∧ binary64_is (binary64_mul 60000000000000064 0 3 (-1))
      (mulNumber 60000000000000064 (15 # 10))
  ∧ binary64_is (binary64_add 30 0 90000000000000096 0) (addNumber 30 90000000000000096)
  ∧ binary64_is (binary64_mul 63 0 3 (-1)) (mulNumber 63 (15 # 10)).
Proof. split_and!; vm_compute; reflexivity. Qed.

(** [nearestNumber x] is a Number, and no Number is nearer to [x];
    [numberBelow x] is a Number, and the greatest one that is not above
    [x]. *)
Lemma Qabs_cases (x : Q) :
  (0 <= x ∧ Qabs x == x)%Q ∨ (x <= 0 ∧ Qabs x == - x)%Q.
Proof.
  destruct (Qlt_le_dec x 0) as [H|H].
  - right. split; [lra | apply Qabs_neg; lra].
  - left. split; [done | by apply Qabs_pos].
Qed.

Lemma roundHalfEven_nearest (q : Q) (z : Z) :
  (Qabs (inject_Z (roundHalfEven q) - q) <= Qabs (inject_Z z - q))%Q.
Proof.
  pose proof (roundHalfEven_bounds q) as [Hlo Hhi].
  pose proof (Qfloor_le q) as Hf1. pose proof (Qlt_floor q) as Hf2.
  rewrite inject_Z_plus in Hf2. change (inject_Z 1) with 1%Q in Hf2.
  assert (Hr : roundHalfEven q = Qfloor q ∨ roundHalfEven q = Qfloor q + 1).
  { unfold roundHalfEven. destruct (Qcompare _ _); [destruct (Z.even _)|..]; auto. }
  assert (Hz : z ≤ Qfloor q ∨ Qfloor q + 1 ≤ z) by lia.
  rewrite !Zle_Qle, inject_Z_plus in Hz. change (inject_Z 1) with 1%Q in Hz.
  assert (Er : (inject_Z (roundHalfEven q) == inject_Z (Qfloor q))%Q
               ∨ (inject_Z (roundHalfEven q) == inject_Z (Qfloor q) + 1)%Q).
  { destruct Hr as [->| ->]; [by left | right].
    rewrite inject_Z_plus. reflexivity. }
  apply Qabs_Qle_condition.
  destruct (Qabs_cases (inject_Z z - q)) as [[? E]|[? E]];
    destruct Hz, Er; lra.
Qed.

Lemma significand_abs (x : Q) :
  ¬ (x == 0)%Q →
  (pow2 52 <= Qabs (x * pow2 (- exponent x))
   ∧ Qabs (x * pow2 (- exponent x)) < pow2 53)%Q.
Proof.
  intros Hx. destruct (exponent_spec x Hx) as [Hlo Hhi].
  rewrite Qabs_Qmult, (Qabs_pos (pow2 _)) by apply Qlt_le_weak, pow2_pos.
  set (e := exponent x) in *.
  rewrite (Z.add_comm e), pow2_add in Hlo, Hhi.
  pose proof (pow2_cancel e). pose proof (pow2_pos e). pose proof (pow2_pos (- e)).
  pose proof (pow2_pos 52). pose proof (pow2_pos 53).
  split; nra.
Qed.

Lemma nearestNumber_isNumber (x : Q) : isNumber (nearestNumber x).
Proof.
  unfold nearestNumber. exists (roundHalfEven (x * pow2 (- exponent x))), (exponent x).
  split; [|reflexivity].
  destruct (Qeq_dec x 0) as [E0|Hx].
  - rewrite (roundHalfEven_Z 0); [done | by apply Qmult_0_l_eq].
  - destruct (significand_abs x Hx) as [_ Hhi].
    rewrite pow2_53 in Hhi.
    apply Qabs_Qlt_condition in Hhi as [Hlo Hhi].
    assert (roundHalfEven (x * pow2 (- exponent x)) ≤ 2 ^ 53).
    { apply roundHalfEven_le. change (inject_Z (2 ^ 53)) with 9007199254740992%Q. lra. }
    assert (- 2 ^ 53 ≤ roundHalfEven (x * pow2 (- exponent x))).
    { apply roundHalfEven_ge. change (inject_Z (- 2 ^ 53)) with (-9007199254740992)%Q. lra. }
    lia.
Qed.

Lemma nearestNumber_nearest (x y : Q) :
  isNumber y → (Qabs (nearestNumber x - x) <= Qabs (y - x))%Q.
Proof.
  intros (m & j & Hm & Ey).
  destruct (Qeq_dec x 0) as [E0|Hx].
  { assert (E : (nearestNumber x == x)%Q).
    { apply (nearestNumber_exact x 0 0); [done|].
      change (inject_Z 0 * pow2 0)%Q with (0 * 1)%Q. lra. }
    assert (E' : (nearestNumber x - x == 0)%Q) by lra.
    rewrite E'. apply Qabs_nonneg. }
  destruct (significand_abs x Hx) as [Hlo _]. rewrite pow2_52 in Hlo.
  unfold nearestNumber. set (e := exponent x) in *.
  set (s := (x * pow2 (- e))%Q) in *.
  pose proof (pow2_pos e) as He. pose proof (pow2_cancel e) as Hc.
  (* both distances, scaled to the significand *)
  assert (Es : ∀ w : Q, (Qabs (w * pow2 e - x) == Qabs (w - s) * pow2 e)%Q).
  { intros w. rewrite <- (Qabs_pos (pow2 e)) at 2 by lra.
    rewrite <- Qabs_Qmult. apply Qabs_wd. unfold s.
    transitivity (w * pow2 e - x * (pow2 (- e) * pow2 e))%Q; [rewrite Hc|]; ring. }
  set (y' := (inject_Z m * pow2 (j - e))%Q).
  assert (Ey' : (y == y' * pow2 e)%Q).
  { unfold y'. rewrite Ey, <- Qmult_assoc, <- pow2_add.
    by replace (j - e + e) with j by lia. }
  rewrite (Es (inject_Z _)).
  assert (Eyx : (Qabs (y - x) == Qabs (y' - s) * pow2 e)%Q).
  { rewrite <- Es. apply Qabs_wd. rewrite Ey'. reflexivity. }
  rewrite Eyx. apply Qmult_le_compat_r; [|lra].
  destruct (Z_le_gt_dec e j) as [Hj|Hj].
  - assert (E : (y' == inject_Z (m * 2 ^ (j - e)))%Q).
    { unfold y'. rewrite inject_Z_mult, pow2_Z by lia. reflexivity. }
    assert (E2 : (y' - s == inject_Z (m * 2 ^ (j - e)) - s)%Q) by (by rewrite E).
    rewrite (Qabs_wd _ _ E2). apply roundHalfEven_nearest.
  - (* a Number below the exponent of [x] is not beyond [2 ^ 52] *)
    assert (Hy' : (Qabs y' <= 4503599627370496)%Q).
    { unfold y'. rewrite Qabs_Qmult, (Qabs_pos (pow2 _)) by apply Qlt_le_weak, pow2_pos.
      change (Qabs (inject_Z m)) with (inject_Z (Z.abs m)).
      assert (Hp : (pow2 (j - e) <= 1 # 2)%Q).
      { change (1 # 2)%Q with (pow2 (-1)). apply pow2_le. lia. }
      rewrite Zle_Qle in Hm. change (inject_Z (2 ^ 53)) with 9007199254740992%Q in Hm.
      assert (0 <= inject_Z (Z.abs m))%Q by (rewrite <- (Zle_Qle 0); lia).
      pose proof (pow2_pos (j - e)). nra. }
    destruct (Qlt_le_dec 0 s) as [Hs|Hs].
    + rewrite (Qabs_pos s) in Hlo by lra.
      eapply Qle_trans; [apply (roundHalfEven_nearest s (2 ^ 52))|].
      change (inject_Z (2 ^ 52)) with 4503599627370496%Q.
      apply Qabs_Qle_condition in Hy' as [Hy1 Hy2].
      rewrite (Qabs_neg (4503599627370496 - s)), (Qabs_neg (y' - s)) by lra. lra.
    + rewrite (Qabs_neg s) in Hlo by lra.
      eapply Qle_trans; [apply (roundHalfEven_nearest s (- 2 ^ 52))|].
      change (inject_Z (- 2 ^ 52)) with (-4503599627370496)%Q.
      apply Qabs_Qle_condition in Hy' as [Hy1 Hy2].
      rewrite (Qabs_pos (-4503599627370496 - s)), (Qabs_pos (y' - s)) by lra. lra.
Qed.

Lemma numberBelow_isNumber (x : Q) : isNumber (numberBelow x).
Proof.
  unfold numberBelow. exists (Qfloor (x * pow2 (- exponent x))), (exponent x).
  split; [|reflexivity].
  destruct (Qeq_dec x 0) as [E0|Hx].
  - rewrite (Qfloor_eq_Z 0); [done | by apply Qmult_0_l_eq].
  - destruct (significand_abs x Hx) as [_ Hhi].
    rewrite pow2_53 in Hhi.
    apply Qabs_Qlt_condition in Hhi as [Hlo Hhi].
    assert (Qfloor (x * pow2 (- exponent x)) ≤ 2 ^ 53).
    { rewrite Zle_Qle. change (inject_Z (2 ^ 53)) with 9007199254740992%Q.
      pose proof (Qfloor_le (x * pow2 (- exponent x))). lra. }
    assert (- 2 ^ 53 ≤ Qfloor (x * pow2 (- exponent x))).
    { rewrite <- (Qfloor_Z (- 2 ^ 53)). apply Qfloor_resp_le.
      change (inject_Z (- 2 ^ 53)) with (-9007199254740992)%Q. lra. }
    lia.
Qed.

Lemma numberBelow_greatest (x y : Q) :
  isNumber y → (y <= x)%Q → (y <= numberBelow x)%Q.
Proof.
  intros (m & j & Hm & Ey) Hyx.
  destruct (Qeq_dec x 0) as [E0|Hx].
  { assert (E : (numberBelow x == x)%Q).
    { apply (numberBelow_exact x 0 0); [done|].
      change (inject_Z 0 * pow2 0)%Q with (0 * 1)%Q. lra. }
    lra. }
  destruct (significand_abs x Hx) as [Hlo _]. rewrite pow2_52 in Hlo.
  unfold numberBelow. set (e := exponent x) in *.
  set (s := (x * pow2 (- e))%Q) in *.
  pose proof (pow2_pos e) as He. pose proof (pow2_cancel e) as Hc.
  pose proof (pow2_pos (- e)) as He'.
  set (y' := (inject_Z m * pow2 (j - e))%Q).
  assert (Ey' : (y == y' * pow2 e)%Q).
  { unfold y'. rewrite Ey, <- Qmult_assoc, <- pow2_add.
    by replace (j - e + e) with j by lia. }
  assert (Hys : (y' <= s)%Q).
  { assert (E : (y' == y * pow2 (- e))%Q).
    { rewrite Ey', <- Qmult_assoc, (Qmult_comm (pow2 e)), Hc. ring. }
    rewrite E. unfold s. apply Qmult_le_compat_r; lra. }
  rewrite Ey'. apply Qmult_le_compat_r; [|lra].
  destruct (Z_le_gt_dec e j) as [Hj|Hj].
  - assert (E : (y' == inject_Z (m * 2 ^ (j - e)))%Q).
    { unfold y'. rewrite inject_Z_mult, pow2_Z by lia. reflexivity. }
    rewrite E in Hys |- *. rewrite <- Zle_Qle.
    apply Qfloor_resp_le in Hys. by rewrite Qfloor_Z in Hys.
  - assert (Hy' : (Qabs y' <= 4503599627370496)%Q).
    { unfold y'. rewrite Qabs_Qmult, (Qabs_pos (pow2 _)) by apply Qlt_le_weak, pow2_pos.
      change (Qabs (inject_Z m)) with (inject_Z (Z.abs m)).
      assert (Hp : (pow2 (j - e) <= 1 # 2)%Q).
      { change (1 # 2)%Q with (pow2 (-1)). apply pow2_le. lia. }
      rewrite Zle_Qle in Hm. change (inject_Z (2 ^ 53)) with 9007199254740992%Q in Hm.
      assert (0 <= inject_Z (Z.abs m))%Q by (rewrite <- (Zle_Qle 0); lia).
      pose proof (pow2_pos (j - e)). nra. }
    apply Qabs_Qle_condition in Hy' as [Hy1 Hy2].
    destruct (Qlt_le_dec 0 s) as [Hs|Hs].
    + rewrite (Qabs_pos s) in Hlo by lra.
      assert (2 ^ 52 ≤ Qfloor s) as Hf.
      { rewrite <- (Qfloor_Z (2 ^ 52)). apply Qfloor_resp_le.
        by change (inject_Z (2 ^ 52)) with 4503599627370496%Q. }
      rewrite Zle_Qle in Hf. change (inject_Z (2 ^ 52)) with 4503599627370496%Q in Hf.
      lra.
    + rewrite (Qabs_neg s) in Hlo by lra.
      assert (E : (s == inject_Z (- 2 ^ 52))%Q).
      { change (inject_Z (- 2 ^ 52)) with (-4503599627370496)%Q. lra. }
      rewrite (Qfloor_eq_Z _ _ E).
      change (inject_Z (- 2 ^ 52)) with (-4503599627370496)%Q. lra.
Qed.

(** ** The difficulty model *)

Lemma Math_floor_Z (z : Z) : Math_floor (inject_Z z) = z.
Proof. apply Qfloor_Z. Qed.

(** [ceil (m * 1.5)] in integer arithmetic. *)
Lemma Math_ceil_three_halves (m : Z) :
  Math_ceil (inject_Z m * (15 # 10)) = (3 * m + 1) / 2.
Proof.
  unfold Math_ceil, Qceiling, Qfloor, Qopp, Qmult, inject_Z. simpl.
  Z.div_mod_to_equations. lia.
Qed.

Lemma numColors_range (l : Z) :
  4 ≤ numColors (getLevelConfig l) ≤ Z.of_nat (length BALL_COLORS).
Proof.
  unfold getLevelConfig; simpl.
  case_leb; lia.
Qed.

Lemma numColors_mono (l l' : Z) :
  l ≤ l' → numColors (getLevelConfig l) ≤ numColors (getLevelConfig l').
Proof.
  intros Hle. unfold getLevelConfig; simpl.
  case_leb; lia.
Qed.

(** The three Numbers that [getLevelConfig] computes. *)
Lemma getLevelConfig_fields (l : Z) :
  let s := addNumber 60 (mulNumber (inject_Z l) 6) in
  let m := addNumber (inject_Z (Math_floor s)) 3 in
  let t := addNumber 30 (inject_Z (Math_ceil (mulNumber m (15 # 10)))) in
  shuffles (getLevelConfig l) = integerValue s
  ∧ cfg_maxMoves (getLevelConfig l) = integerValue m
  ∧ timeLimit (getLevelConfig l) = integerValue t.
Proof. done. Qed.

(** They have integer values, so that the record loses nothing. *)
Lemma nearestNumber_of_integer (x : Q) (z : Z) :
  (x == inject_Z z)%Q →
  (nearestNumber x == inject_Z (integerValue (nearestNumber x)))%Q.
Proof.
  intros E. pose proof (nearestNumber_comp _ _ E) as En.
  unfold integerValue. rewrite (Qfloor_comp _ _ En), En.
  apply nearestNumber_integer.
Qed.

Lemma getLevelConfig_integers (l : Z) :
  let s := addNumber 60 (mulNumber (inject_Z l) 6) in
  let m := addNumber (inject_Z (Math_floor s)) 3 in
  let t := addNumber 30 (inject_Z (Math_ceil (mulNumber m (15 # 10)))) in
  (s == inject_Z (shuffles (getLevelConfig l)))%Q
  ∧ (m == inject_Z (cfg_maxMoves (getLevelConfig l)))%Q
  ∧ (t == inject_Z (timeLimit (getLevelConfig l)))%Q.
Proof.
  intros s m t. destruct (getLevelConfig_fields l) as (-> & -> & ->).
  unfold addNumber, mulNumber. split_and!.
  - pose proof (nearestNumber_of_integer (inject_Z l * 6) (l * 6)) as E1.
    apply (nearestNumber_of_integer _
             (60 + integerValue (nearestNumber (inject_Z l * 6)))).
    rewrite inject_Z_plus, <- E1; [reflexivity|].
    rewrite inject_Z_mult. reflexivity.
  - apply (nearestNumber_of_integer _ (Math_floor s + 3)).
    rewrite inject_Z_plus. reflexivity.
  - apply (nearestNumber_of_integer _ (30 + Math_ceil (mulNumber m (15 # 10)))).
    rewrite inject_Z_plus. reflexivity.
Qed.

(** While every intermediate result has at most 53 bits, the operations
    are exact. *)
Lemma getLevelConfig_exact (l : Z) :
  - 2 ^ 48 ≤ l ≤ 2 ^ 48 →
  shuffles (getLevelConfig l) = 60 + 6 * l
  ∧ cfg_maxMoves (getLevelConfig l) = 63 + 6 * l
  ∧ timeLimit (getLevelConfig l) = 125 + 9 * l.
Proof.
  intros Hl. destruct (getLevelConfig_fields l) as (Es & Em & Et).
  cbv zeta in Es, Em, Et. unfold addNumber, mulNumber in Es, Em, Et.
  assert (E1 : (nearestNumber (inject_Z l * 6) == inject_Z (l * 6))%Q).
  { apply nearestNumber_eq_Z; [lia|]. rewrite inject_Z_mult. reflexivity. }
  assert (E2 : (nearestNumber (60 + nearestNumber (inject_Z l * 6))
                == inject_Z (60 + 6 * l))%Q).
  { apply nearestNumber_eq_Z; [lia|].
    rewrite inject_Z_plus, !inject_Z_mult in *.
    change (inject_Z 60) with 60%Q. change (inject_Z 6) with 6%Q in *. lra. }
  assert (F2 : Math_floor (nearestNumber (60 + nearestNumber (inject_Z l * 6)))
               = 60 + 6 * l) by (by apply Qfloor_eq_Z).
  rewrite F2 in Em, Et.
  assert (E3 : (nearestNumber (inject_Z (60 + 6 * l) + 3) == inject_Z (63 + 6 * l))%Q).
  { apply nearestNumber_eq_Z; [lia|].
    rewrite !inject_Z_plus, !inject_Z_mult.
    change (inject_Z 60) with 60%Q. change (inject_Z 63) with 63%Q. ring. }
  assert (E4 : (nearestNumber (nearestNumber (inject_Z (60 + 6 * l) + 3) * (15 # 10))
                == inject_Z (63 + 6 * l) * (15 # 10))%Q).
  { assert (E : (inject_Z (63 + 6 * l) * (15 # 10)
                 == inject_Z (3 * (63 + 6 * l)) * (1 # 2))%Q).
    { rewrite (inject_Z_mult 3). change (inject_Z 3) with 3%Q. lra. }
    rewrite E. apply nearestNumber_eq_half; [lia|]. lra. }
  assert (F4 : Math_ceil (nearestNumber (nearestNumber (inject_Z (60 + 6 * l) + 3)
                                         * (15 # 10)))
               = 95 + 9 * l).
  { unfold Math_ceil. rewrite (Qceiling_comp _ _ E4).
    fold (Math_ceil (inject_Z (63 + 6 * l) * (15 # 10))).
    rewrite Math_ceil_three_halves.
    replace (3 * (63 + 6 * l) + 1) with ((95 + 9 * l) * 2) by lia.
    by rewrite Z.div_mul by lia. }
  rewrite F4 in Et.
  assert (E5 : (nearestNumber (30 + inject_Z (95 + 9 * l)) == inject_Z (125 + 9 * l))%Q).
  { apply nearestNumber_eq_Z; [lia|].
    rewrite !inject_Z_plus, !inject_Z_mult.
    change (inject_Z 95) with 95%Q. change (inject_Z 125) with 125%Q. ring. }
  split_and!.
  - rewrite Es. unfold integerValue. by apply Qfloor_eq_Z.
  - rewrite Em. unfold integerValue. by apply Qfloor_eq_Z.
  - rewrite Et. unfold integerValue. by apply Qfloor_eq_Z.
Qed.

(** From level 0 on, whatever is rounded, there are moves and there is
    time. *)
Lemma getLevelConfig_limits_pos (l : Z) :
  0 ≤ l →
  63 ≤ cfg_maxMoves (getLevelConfig l) ∧ 124 ≤ timeLimit (getLevelConfig l).
Proof.
  intros Hl. destruct (getLevelConfig_fields l) as (_ & -> & ->).
  cbv zeta. unfold addNumber, mulNumber, integerValue, Math_floor.
  set (p := nearestNumber (inject_Z l * 6)).
  assert (Hp : (0 <= p)%Q).
  { apply nearestNumber_nonneg. rewrite Zle_Qle in Hl.
    change (inject_Z 0) with 0%Q in Hl. lra. }
  set (s := nearestNumber (60 + p)).
  assert (Hs : (60 <= s)%Q).
  { apply (nearestNumber_ge_integer _ 60); [lia|]. change (inject_Z 60) with 60%Q. lra. }
  assert (Hfs : 60 ≤ Qfloor s).
  { rewrite <- (Qfloor_Z 60). by apply Qfloor_resp_le. }
  set (m := nearestNumber (inject_Z (Qfloor s) + 3)).
  assert (Hm : (63 <= m)%Q).
  { apply (nearestNumber_ge_integer _ 63); [lia|]. rewrite Zle_Qle in Hfs.
    change (inject_Z 60) with 60%Q in Hfs. change (inject_Z 63) with 63%Q. lra. }
  split.
  { rewrite <- (Qfloor_Z 63). by apply Qfloor_resp_le. }
  set (h := nearestNumber (m * (15 # 10))).
  assert (Hh : (94 <= h)%Q).
  { apply (nearestNumber_ge_integer _ 94); [lia|]. change (inject_Z 94) with 94%Q. lra. }
  assert (Hc : 94 ≤ Math_ceil h).
  { rewrite Zle_Qle. unfold Math_ceil. eapply Qle_trans; [exact Hh | apply Qle_ceiling]. }
  set (t := nearestNumber (30 + inject_Z (Math_ceil h))).
  assert (Ht : (124 <= t)%Q).
  { apply (nearestNumber_ge_integer _ 124); [lia|]. rewrite Zle_Qle in Hc.
    change (inject_Z 94) with 94%Q in Hc. change (inject_Z 124) with 124%Q. lra. }
  rewrite <- (Qfloor_Z 124). by apply Qfloor_resp_le.
Qed.

(** C9, as the code has it.  [getLevelConfig] is a function of the level
    index alone.  For every index from 0 to [2 ^ 48], the 30 levels of the
    game among them, it yields [numEmpty = 2], [shuffles = 60 + 6 * index],
    [maxMoves = floor shuffles + 3] (that is [shuffles + 3]) and
    [timeLimit = 30 + ceil (maxMoves * 1.5)] (that is [125 + 9 * index]);
    [numColors] does not decrease with the index, is 4 at level 0 and never
    exceeds the 12 colors of the palette, which it reaches at level 19; level
    0 has 4 colors, 2 empty tubes, 60 shuffles, 63 moves and 125 seconds. *)
Theorem getLevelConfig_spec (levelIndex : Z) :
  0 ≤ levelIndex ≤ 2 ^ 48 →
  let c := getLevelConfig levelIndex in
  numEmpty c = 2
  ∧ shuffles c = 60 + 6 * levelIndex
  ∧ cfg_maxMoves c = Math_floor (inject_Z (shuffles c)) + 3
  ∧ cfg_maxMoves c = shuffles c + 3
  ∧ timeLimit c = 30 + Math_ceil (inject_Z (cfg_maxMoves c) * (15 # 10))
  ∧ timeLimit c = 125 + 9 * levelIndex
  ∧ (∀ l', levelIndex ≤ l' → numColors c ≤ numColors (getLevelConfig l'))
  ∧ numColors (getLevelConfig 0) = 4
  ∧ 4 ≤ numColors c ≤ 12
  ∧ length BALL_COLORS = 12%nat
  ∧ (19 ≤ levelIndex → numColors c = 12)
  ∧ getLevelConfig 0 =
      {| numColors := 4; numEmpty := 2; shuffles := 60;
         cfg_maxMoves := 63; timeLimit := 125 |}.
Proof.
  intros Hl c.
  destruct (getLevelConfig_exact levelIndex) as (Hs & Hm & Ht); [lia|].
  fold c in Hs, Hm, Ht.
  split_and!.
  - done.
  - done.
  - rewrite Math_floor_Z. lia.
  - lia.
  - rewrite Hm, Ht, Math_ceil_three_halves.
    replace (3 * (63 + 6 * levelIndex) + 1) with ((95 + 9 * levelIndex) * 2) by lia.
    rewrite Z.div_mul by lia. lia.
  - done.
  - intros l' Hl'. by apply numColors_mono.
  - done.
  - apply numColors_range.
  - apply (numColors_range levelIndex).
  - done.
  - intros H19. unfold c, getLevelConfig; simpl.
    case_leb; lia.
  - by vm_compute.
Qed.

Lemma getLevelConfig_spec_witness :
  0 ≤ 7 ≤ 2 ^ 48 ∧ timeLimit (getLevelConfig 7) = 125 + 9 * 7
  ∧ numColors (getLevelConfig 7) = 8.
Proof.
  assert (H7 : 0 ≤ 7 ≤ 2 ^ 48) by (split; [lia | by vm_compute]).
  split; [exact H7|].
  destruct (getLevelConfig_spec 7 H7) as (_ & _ & _ & _ & _ & Ht & _).
  split; [exact Ht | reflexivity].
Defined.

(** C9 as stated fails.  Beyond 53 bits the results are rounded: at level
    [2 ^ 51] the product and [shuffles] are still exact, but [shuffles + 3]
    is odd and lies between two Numbers, so that [maxMoves] is
    [shuffles + 4]; at level [10 ^ 16], a Number, [shuffles] is not
    [60 + 6 * index] and [timeLimit] is not [30 + ceil (maxMoves * 1.5)]. *)
Lemma getLevelConfig_rounding_counterexample :
  0 ≤ 2 ^ 51
  ∧ isNumber (inject_Z (2 ^ 51))
  ∧ shuffles (getLevelConfig (2 ^ 51)) = 60 + 6 * 2 ^ 51
  ∧ cfg_maxMoves (getLevelConfig (2 ^ 51)) = shuffles (getLevelConfig (2 ^ 51)) + 4
  ∧ cfg_maxMoves (getLevelConfig (2 ^ 51))
    ≠ Math_floor (inject_Z (shuffles (getLevelConfig (2 ^ 51)))) + 3
  ∧ 0 ≤ 10 ^ 16
  ∧ isNumber (inject_Z (10 ^ 16))
  ∧ shuffles (getLevelConfig (10 ^ 16)) = 60 + 6 * 10 ^ 16 + 4
  ∧ cfg_maxMoves (getLevelConfig (10 ^ 16)) = shuffles (getLevelConfig (10 ^ 16))
  ∧ timeLimit (getLevelConfig (10 ^ 16)) = 125 + 9 * 10 ^ 16 + 3
  ∧ timeLimit (getLevelConfig (10 ^ 16))
    ≠ 30 + Math_ceil (inject_Z (cfg_maxMoves (getLevelConfig (10 ^ 16))) * (15 # 10)).
Proof.
  split_and!.
  - by vm_compute.
  - exists 1, 51. split; by vm_compute.
  - by vm_compute.
  - by vm_compute.
  - by vm_compute.
  - by vm_compute.
  - exists (5 ^ 16), 16. split; by vm_compute.
  - by vm_compute.
  - by vm_compute.
  - by vm_compute.
  - by vm_compute.
Qed.

(** From here on [getLevelConfig] is used through the lemmas above. *)
Local Opaque getLevelConfig.

(** ** The rule engine *)

Lemma last_is_Some {A} (l : list A) : l ≠ [] → ∃ x, last l = Some x.
Proof.
  intros Hl. destruct (last l) eqn:E; [eauto|].
  by apply last_None in E.
Qed.

Lemma length_zero_iff {A} (l : list A) : (length l =? 0)%nat = true ↔ l = [].
Proof. rewrite Nat.eqb_eq. by destruct l. Qed.

(** C2. [isValidMove] is false when source and destination have the same
    id (so for a tube and itself), when the source is empty, and when the
    destination is at capacity; past these tests it is true for an empty
    destination, and for a non-empty one it is true exactly when the top
    balls of source and destination have the same color. *)
Theorem isValidMove_spec (sourceTube destTube : TubeData) :
  (tube_id sourceTube = tube_id destTube → isValidMove sourceTube destTube = false)
  ∧ isValidMove sourceTube sourceTube = false
  ∧ (balls sourceTube = [] → isValidMove sourceTube destTube = false)
  ∧ ((capacity destTube ≤ length (balls destTube))%nat →
       isValidMove sourceTube destTube = false)
  ∧ (tube_id sourceTube ≠ tube_id destTube → balls sourceTube ≠ [] →
     (length (balls destTube) < capacity destTube)%nat →
       (balls destTube = [] → isValidMove sourceTube destTube = true)
       ∧ (balls destTube ≠ [] →
            ∃ sourceBall destBall,
              last (balls sourceTube) = Some sourceBall
              ∧ last (balls destTube) = Some destBall
              ∧ (isValidMove sourceTube destTube = true
                 ↔ colorId sourceBall = colorId destBall))).
Proof.
  unfold isValidMove. split_and!.
  - intros ->. by rewrite Nat.eqb_refl.
  - by rewrite Nat.eqb_refl.
  - intros ->. simpl. by destruct (_ =? _)%nat.
  - intros Hcap. apply Nat.leb_le in Hcap. rewrite Hcap.
    by repeat destruct (_ =? _)%nat.
  - intros Hid Hsrc Hroom.
    apply Nat.eqb_neq in Hid. rewrite Hid.
    destruct (length (balls sourceTube) =? 0)%nat eqn:Hs.
    { by apply length_zero_iff in Hs. }
    destruct (Nat.leb_spec (capacity destTube) (length (balls destTube))); [lia|].
    split.
    + intros ->. done.
    + intros Hdst.
      destruct (last_is_Some _ Hsrc) as [sb Hsb], (last_is_Some _ Hdst) as [db Hdb].
      exists sb, db. rewrite Hsb, Hdb. split_and!; [done..|].
      destruct (length (balls destTube) =? 0)%nat eqn:Hd.
      { by apply length_zero_iff in Hd. }
      apply Nat.eqb_eq.
Qed.

Lemma isValidMove_spec_witness :
  isValidMove (tube 0 [blueBall; redBall])
              (tube 1 [redBall]) = true.
Proof.
  destruct (isValidMove_spec
              (tube 0 [blueBall; redBall])
              (tube 1 [redBall]))
    as (_ & _ & _ & _ & H).
  destruct H as [_ H]; [vm_compute; lia | done | vm_compute; lia |].
  destruct H as (sb & db & Hsb & Hdb & Hiff); [done|].
  apply Hiff. simpl in Hsb, Hdb. by simplify_eq.
Defined.

Lemma allSame_monochrome (first : Ball) (bs : list Ball) :
  head bs = Some first →
  forallb (λ b, (colorId b =? colorId first)%nat) bs = true ↔ monochrome bs.
Proof.
  intros Hhd. rewrite forallb_forall. split.
  - intros Hall b1 b2 H1%list_elem_of_In H2%list_elem_of_In.
    apply Hall, Nat.eqb_eq in H1. apply Hall, Nat.eqb_eq in H2. congruence.
  - intros Hmono b Hb%list_elem_of_In. apply Nat.eqb_eq, Hmono; [done|].
    destruct bs; simplify_eq/=. left.
Qed.

Lemma tubeIsFine_spec (tube : TubeData) :
  tubeIsFine tube = true
  ↔ balls tube = [] ∨ (length (balls tube) = TUBE_CAPACITY ∧ monochrome (balls tube)).
Proof.
  unfold tubeIsFine.
  destruct (length (balls tube) =? 0)%nat eqn:H0.
  { apply length_zero_iff in H0. tauto. }
  assert (balls tube ≠ []) by (intros E; by rewrite E in H0).
  destruct (Nat.eqb_spec (length (balls tube)) TUBE_CAPACITY) as [Hfull|Hnot]; simpl.
  - destruct (head (balls tube)) as [first|] eqn:Hhd.
    + rewrite (allSame_monochrome first) by done. tauto.
    + apply head_None in Hhd. tauto.
  - split; [done|]. intros [?|[? _]]; done.
Qed.

Lemma checkWinCondition_Forall (tubes : list TubeData) :
  checkWinCondition tubes = true
  ↔ Forall (λ t, balls t = []
                 ∨ (length (balls t) = TUBE_CAPACITY ∧ monochrome (balls t))) tubes.
Proof.
  unfold checkWinCondition. rewrite forallb_forall, Forall_forall.
  split; intros H t Ht.
  - apply tubeIsFine_spec, H. by apply list_elem_of_In.
  - apply tubeIsFine_spec, H. by apply list_elem_of_In.
Qed.

(** C3, as the code has it.  [checkWinCondition] is true exactly when every
    tube is empty or holds [TUBE_CAPACITY] (4) balls of one color: the
    fullness test is against the constant, not the tube's [capacity] field.
    On a board whose tubes all have capacity [TUBE_CAPACITY], as every
    generated board has, this is: every tube is empty, or full to its
    capacity and monochrome. *)
Theorem checkWinCondition_spec (tubes : list TubeData) :
  (checkWinCondition tubes = true
   ↔ Forall (λ t, balls t = []
                  ∨ (length (balls t) = TUBE_CAPACITY ∧ monochrome (balls t))) tubes)
  ∧ (Forall (λ t, capacity t = TUBE_CAPACITY) tubes →
     (checkWinCondition tubes = true
      ↔ Forall (λ t, balls t = []
                     ∨ (length (balls t) = capacity t ∧ monochrome (balls t))) tubes)).
Proof.
  split; [apply checkWinCondition_Forall|].
  intros Hcap. rewrite checkWinCondition_Forall.
  rewrite !Forall_forall in *. split; intros H t Ht.
  - rewrite (Hcap t Ht). by apply H.
  - rewrite <- (Hcap t Ht). by apply H.
Qed.

Lemma checkWinCondition_spec_witness :
  checkWinCondition [ tube 0 fourReds;
                      tube 1 [] ] = true
  ↔ Forall (λ t, balls t = [] ∨ (length (balls t) = capacity t ∧ monochrome (balls t)))
      [ tube 0 fourReds;
        tube 1 [] ].
Proof.
  apply (checkWinCondition_spec
           [ tube 0 fourReds;
             tube 1 [] ]).
  repeat constructor.
Defined.

(** C3 as stated fails: a tube of capacity 5 that holds four balls of one
    color is neither empty nor full to its capacity, and the board wins. *)
Lemma checkWinCondition_capacity_counterexample :
  checkWinCondition wideBoard = true
  ∧ ¬ Forall (λ t, balls t = []
                   ∨ (length (balls t) = capacity t ∧ monochrome (balls t)))
        wideBoard.
Proof.
  split; [reflexivity|].
  intros H. apply Forall_inv in H. simpl in H. destruct H as [?|[? _]]; done.
Qed.

(** ** The session: clicks *)

Lemma findTube_cons (t : TubeData) (l : list TubeData) (id : nat) :
  findTube (t :: l) id = if decide (tube_id t = id) then Some t else findTube l id.
Proof.
  unfold findTube. simpl. case_decide; [done|].
  by destruct (list_find _ l) as [[??]|].
Qed.

Lemma findTube_Some (l : list TubeData) (id : nat) (t : TubeData) :
  findTube l id = Some t → tube_id t = id ∧ t ∈ l.
Proof.
  induction l as [|x l IH]; [done|].
  rewrite findTube_cons. case_decide.
  - intros [= ->]. split; [done | left].
  - intros [? ?]%IH. split; [done | by right].
Qed.

Lemma findTube_is_Some (l : list TubeData) (id : nat) :
  id ∈ map tube_id l → is_Some (findTube l id).
Proof.
  induction l as [|x l IH]; simpl.
  - by intros ?%elem_of_nil.
  - rewrite findTube_cons. intros [->|Hin]%elem_of_cons.
    + rewrite decide_True by done. eauto.
    + case_decide; eauto.
Qed.

Lemma findTube_map (f : TubeData → TubeData) (l : list TubeData) (id : nat) :
  (∀ t, tube_id (f t) = tube_id t) →
  findTube (map f l) id = f <$> findTube l id.
Proof.
  intros Hf. induction l as [|x l IH]; [done|].
  simpl. rewrite !findTube_cons, Hf. by case_decide.
Qed.

Lemma take_pred_last {A} (l : list A) (x : A) :
  last l = Some x → l = take (length l - 1) l ++ [x].
Proof.
  intros Hl. destruct l as [|y l _] using rev_ind; [done|].
  rewrite last_snoc in Hl. simplify_eq.
  rewrite length_app. simpl.
  replace (length l + 1 - 1)%nat with (length l) by lia.
  by rewrite take_app_length.
Qed.

(** With distinct tube ids, the [tubes.map] of a move rewrites exactly the
    two positions of source and destination. *)
Lemma moveBall_insert (tubes : list TubeData) (i j : nat) (src dst : TubeData)
    (ball : Ball) :
  NoDup (map tube_id tubes) →
  tubes !! i = Some src → tubes !! j = Some dst → tube_id src ≠ tube_id dst →
  moveBall tubes src dst ball = <[j := pushed dst ball]> (<[i := popped src]> tubes).
Proof.
  intros Hnd Hi Hj Hne.
  assert (Hid : ∀ k t, tubes !! k = Some t → ∀ k' t', tubes !! k' = Some t' →
                 tube_id t = tube_id t' → k = k').
  { intros k t Hk k' t' Hk' Heq.
    eapply NoDup_lookup; [exact Hnd| |].
    - rewrite list_lookup_fmap, Hk. done.
    - rewrite list_lookup_fmap, Hk'. simpl. by rewrite Heq. }
  assert (i ≠ j) by (intros ->; simplify_eq).
  apply list_eq. intros k. unfold moveBall.
  rewrite list_lookup_fmap.
  destruct (decide (k = j)) as [->|Hkj].
  - rewrite list_lookup_insert_eq
      by (rewrite length_insert; by eapply lookup_lt_Some).
    rewrite Hj. simpl.
    destruct (Nat.eqb_spec (tube_id dst) (tube_id src)); [congruence|].
    by rewrite Nat.eqb_refl.
  - rewrite list_lookup_insert_ne by done.
    destruct (decide (k = i)) as [->|Hki].
    + rewrite list_lookup_insert_eq by (by eapply lookup_lt_Some).
      rewrite Hi. simpl. by rewrite Nat.eqb_refl.
    + rewrite list_lookup_insert_ne by done.
      destruct (tubes !! k) as [t|] eqn:Hk; [|done]. simpl.
      destruct (Nat.eqb_spec (tube_id t) (tube_id src)) as [E|_].
      { exfalso. apply Hki. by eapply Hid. }
      destruct (Nat.eqb_spec (tube_id t) (tube_id dst)) as [E|_]; [|done].
      exfalso. apply Hkj. by eapply Hid.
Qed.

Lemma moveBall_other (tubes : list TubeData) (src dst : TubeData) (ball : Ball)
    (k : nat) (t : TubeData) :
  tubes !! k = Some t → tube_id t ≠ tube_id src → tube_id t ≠ tube_id dst →
  moveBall tubes src dst ball !! k = Some t.
Proof.
  intros Hk Hs Hd. unfold moveBall. rewrite list_lookup_fmap, Hk. simpl.
  apply Nat.eqb_neq in Hs, Hd. by rewrite Hs, Hd.
Qed.

Lemma moveBall_find_source (tubes : list TubeData) (src dst : TubeData) (ball : Ball) :
  findTube tubes (tube_id src) = Some src →
  findTube (moveBall tubes src dst ball) (tube_id src) = Some (popped src).
Proof.
  intros Hs. unfold moveBall. rewrite findTube_map.
  - rewrite Hs. simpl. by rewrite Nat.eqb_refl.
  - intros t. by repeat destruct (_ =? _)%nat.
Qed.

Lemma moveBall_find_dest (tubes : list TubeData) (src dst : TubeData) (ball : Ball) :
  tube_id src ≠ tube_id dst →
  findTube tubes (tube_id dst) = Some dst →
  findTube (moveBall tubes src dst ball) (tube_id dst) = Some (pushed dst ball).
Proof.
  intros Hne Hd. unfold moveBall. rewrite findTube_map.
  - rewrite Hd. simpl.
    destruct (Nat.eqb_spec (tube_id dst) (tube_id src)); [congruence|].
    by rewrite Nat.eqb_refl.
  - intros t. by repeat destruct (_ =? _)%nat.
Qed.

Lemma isValidMove_true (src dst : TubeData) :
  isValidMove src dst = true →
  tube_id src ≠ tube_id dst ∧ (∃ ball, last (balls src) = Some ball)
  ∧ (length (balls dst) < capacity dst)%nat.
Proof.
  unfold isValidMove.
  destruct (Nat.eqb_spec (tube_id src) (tube_id dst)); [done|].
  destruct (length (balls src) =? 0)%nat eqn:Hs; [done|].
  destruct (Nat.leb_spec (capacity dst) (length (balls dst))); [done|].
  intros _. split_and!; [done| |done].
  apply last_is_Some. intros E. by rewrite E in Hs.
Qed.

Lemma handleTubeClick_move_eq (s : GameState) (selected id : nat)
    (sourceTube destTube : TubeData) (ball : Ball) :
  isPlaying s →
  selectedTubeId s = Some selected → selected ≠ id →
  findTube (tubes s) selected = Some sourceTube →
  findTube (tubes s) id = Some destTube →
  isValidMove sourceTube destTube = true →
  last (balls sourceTube) = Some ball →
  let newTubes := moveBall (tubes s) sourceTube destTube ball in
  handleTubeClick s id =
    Some {| tubes := newTubes;
            initialTubes := initialTubes s;
            selectedTubeId := None;
            moves := moves s + 1;
            maxMoves := maxMoves s;
            level := level s;
            isCompleted := checkWinCondition newTubes;
            isFailed := negb (checkWinCondition newTubes) && (maxMoves s <=? moves s + 1);
            history := history s ++ [tubes s];
            timeLeft := timeLeft s;
            totalTime := totalTime s |}.
Proof.
  intros [Hc Hf] Hsel Hne Hsrc Hdst Hvalid Hlast. unfold handleTubeClick.
  rewrite Hc, Hf, Hsel. simpl.
  apply Nat.eqb_neq in Hne. rewrite Hne, Hsrc. simpl. rewrite Hdst. simpl.
  by rewrite Hvalid, Hlast.
Qed.

(** C1. While playing with tube [selected] selected, a click on another
    tube [id] for which [isValidMove] holds takes the top ball off the
    source and puts it on top of the destination (all other tubes stay as
    they are; with distinct tube ids exactly the two positions change),
    appends the board before the move to the history, adds one to [moves]
    and clears the selection.  The session is then Completed if the new
    board wins, otherwise Failed if the new [moves] has reached [maxMoves],
    otherwise Playing; a move at [moves = maxMoves - 1] that does not win
    fails the session, and the two flags are never set together. *)
Theorem handleTubeClick_valid_move (s : GameState) (selected id : nat)
    (sourceTube destTube : TubeData) :
  isPlaying s →
  selectedTubeId s = Some selected → selected ≠ id →
  findTube (tubes s) selected = Some sourceTube →
  findTube (tubes s) id = Some destTube →
  isValidMove sourceTube destTube = true →
  ∃ ball s',
    handleTubeClick s id = Some s'
    ∧ balls sourceTube = balls (popped sourceTube) ++ [ball]
    ∧ findTube (tubes s') selected = Some (popped sourceTube)
    ∧ findTube (tubes s') id = Some (pushed destTube ball)
    ∧ (∀ k t, tubes s !! k = Some t → tube_id t ≠ selected → tube_id t ≠ id →
         tubes s' !! k = Some t)
    ∧ (NoDup (map tube_id (tubes s)) →
       ∃ i j, tubes s !! i = Some sourceTube ∧ tubes s !! j = Some destTube
              ∧ tubes s' = <[j := pushed destTube ball]> (<[i := popped sourceTube]> (tubes s)))
    ∧ history s' = history s ++ [tubes s]
    ∧ moves s' = moves s + 1
    ∧ selectedTubeId s' = None
    ∧ (initialTubes s' = initialTubes s ∧ maxMoves s' = maxMoves s ∧ level s' = level s
       ∧ timeLeft s' = timeLeft s ∧ totalTime s' = totalTime s)
    ∧ sessionStatus s' =
        (if checkWinCondition (tubes s') then Completed
         else if maxMoves s <=? moves s' then Failed else Playing)
    ∧ (checkWinCondition (tubes s') = false → moves s = maxMoves s - 1 →
         sessionStatus s' = Failed ∧ isFailed s' = true ∧ isCompleted s' = false)
    ∧ ¬ (isCompleted s' = true ∧ isFailed s' = true).
Proof.
  intros Hplay Hsel Hne Hsrc Hdst Hvalid.
  destruct (isValidMove_true _ _ Hvalid) as (Hids & [ball Hlast] & Hroom).
  destruct (findTube_Some _ _ _ Hsrc) as [Hsid Hsin].
  destruct (findTube_Some _ _ _ Hdst) as [Hdid Hdin].
  eexists ball, _. split.
  { by apply (handleTubeClick_move_eq s selected id sourceTube destTube ball). }
  cbn [tubes history moves selectedTubeId initialTubes maxMoves level timeLeft totalTime].
  set (newTubes := moveBall (tubes s) sourceTube destTube ball).
  split_and!; try done.
  - by apply take_pred_last.
  - subst selected newTubes. by apply moveBall_find_source.
  - subst id newTubes. by apply moveBall_find_dest.
  - intros k t Hk Hks Hkd. apply moveBall_other; congruence.
  - intros Hnd.
    apply list_elem_of_lookup in Hsin as [i Hi], Hdin as [j Hj].
    exists i, j. split_and!; [done..|]. by apply moveBall_insert.
  - unfold sessionStatus; simpl.
    destruct (checkWinCondition newTubes); simpl; [done|].
    by destruct (maxMoves s <=? moves s + 1).
  - intros Hwin Hm. unfold sessionStatus; simpl. rewrite Hwin. simpl.
    destruct (Z.leb_spec (maxMoves s) (moves s + 1)); [done | lia].
  - simpl. intros [H1 H2]. rewrite H1 in H2. done.
Qed.

Lemma handleTubeClick_valid_move_witness :
  ∃ s', handleTubeClick (sampleSession (Some 0%nat) 62 63) 2 = Some s'
        ∧ findTube (tubes s') 2 = Some (tube 2 [redBall])
        ∧ moves s' = 63
        ∧ sessionStatus s' = Failed.
Proof.
  destruct (handleTubeClick_valid_move (sampleSession (Some 0%nat) 62 63) 0 2
              (tube 0 fourReds) (tube 2 []))
    as (ball & s' & Hs' & Hb & _ & Hdst & _ & _ & _ & Hm & _ & _ & Hst & _).
  - split; reflexivity.
  - reflexivity.
  - lia.
  - reflexivity.
  - reflexivity.
  - reflexivity.
  - exists s'. split; [exact Hs'|].
    vm_compute in Hs'. injection Hs' as <-.
    vm_compute in Hb. injection Hb as <-.
    split; [exact Hdst|]. split; [exact Hm|]. exact Hst.
Defined.

(** C7. While playing with a tube selected, a click on another tube for
    which [isValidMove] fails changes nothing but the selection: board,
    history, moves, time left and the two flags (and every other field) are
    as before; the clicked tube becomes the selection if it holds a ball,
    and the selection is cleared if it is empty. *)
Theorem handleTubeClick_invalid_move (s : GameState) (selected id : nat)
    (sourceTube destTube : TubeData) :
  isPlaying s →
  selectedTubeId s = Some selected → selected ≠ id →
  findTube (tubes s) selected = Some sourceTube →
  findTube (tubes s) id = Some destTube →
  isValidMove sourceTube destTube = false →
  ∃ s',
    handleTubeClick s id = Some s'
    ∧ tubes s' = tubes s
    ∧ history s' = history s
    ∧ moves s' = moves s
    ∧ timeLeft s' = timeLeft s
    ∧ isCompleted s' = isCompleted s
    ∧ isFailed s' = isFailed s
    ∧ (initialTubes s' = initialTubes s ∧ maxMoves s' = maxMoves s
       ∧ level s' = level s ∧ totalTime s' = totalTime s)
    ∧ (balls destTube ≠ [] → selectedTubeId s' = Some id)
    ∧ (balls destTube = [] → selectedTubeId s' = None).
Proof.
  intros [Hc Hf] Hsel Hne Hsrc Hdst Hinvalid.
  exists (withSelection s (if (0 <? length (balls destTube))%nat then Some id else None)).
  split.
  - unfold handleTubeClick. rewrite Hc, Hf, Hsel. simpl.
    apply Nat.eqb_neq in Hne. rewrite Hne, Hsrc. simpl. rewrite Hdst. simpl.
    rewrite Hinvalid. by destruct (0 <? _)%nat.
  - simpl. split_and!; try done.
    + intros Hd. destruct (balls destTube); done.
    + by intros ->.
Qed.

Lemma handleTubeClick_invalid_move_witness :
  ∃ s', handleTubeClick (sampleSession (Some 0%nat) 1 63) 1 = Some s'
        ∧ tubes s' = sampleBoard ∧ moves s' = 1 ∧ selectedTubeId s' = Some 1%nat.
Proof.
  destruct (handleTubeClick_invalid_move (sampleSession (Some 0%nat) 1 63) 0 1
              (tube 0 fourReds) (tube 1 fourBlues))
    as (s' & Hs' & Ht & _ & Hm & _ & _ & _ & _ & Hsel & _).
  - split; reflexivity.
  - reflexivity.
  - lia.
  - reflexivity.
  - reflexivity.
  - reflexivity.
  - exists s'. split; [exact Hs'|]. split; [exact Ht|]. split; [exact Hm|].
    apply Hsel. discriminate.
Defined.

(** ** The session: undo *)

Lemma handleUndo_noop (s : GameState) :
  history s = [] ∨ isCompleted s = true ∨ isFailed s = true → handleUndo s = s.
Proof.
  unfold handleUndo. intros [->|[->| ->]]; simpl; [done| |].
  - by rewrite !orb_true_r.
  - by rewrite orb_true_r.
Qed.

Lemma handleUndo_playing (s : GameState) (h : list (list TubeData))
    (b : list TubeData) :
  isPlaying s → history s = h ++ [b] →
  handleUndo s =
    {| tubes := b; initialTubes := initialTubes s; selectedTubeId := None;
       moves := moves s; maxMoves := maxMoves s; level := level s;
       isCompleted := false; isFailed := false; history := h;
       timeLeft := timeLeft s; totalTime := totalTime s |}.
Proof.
  intros [Hc Hf] Hh. unfold handleUndo. rewrite Hc, Hf, Hh.
  rewrite last_snoc, length_app. simpl.
  replace (length h + 1 =? 0)%nat with false
    by (symmetry; apply Nat.eqb_neq; lia).
  simpl. replace (length h + 1 - 1)%nat with (length h) by lia.
  by rewrite take_app_length.
Qed.

Lemma handleUndo_moves (s : GameState) : moves (handleUndo s) = moves s.
Proof.
  unfold handleUndo. destruct (_ || _); [done|].
  by destruct (last (history s)).
Qed.

(** C6. While playing with a non-empty history, undo takes the last
    snapshot off the history, makes it the board and clears the selection,
    with [moves] as it was; it does nothing when the history is empty or the
    session is completed or failed; any number of undos leaves [moves]
    unchanged; and after a valid move that leaves the session playing, undo
    gives back the board and history from before the move while [moves]
    keeps the value the move gave it. *)
Theorem handleUndo_spec (s : GameState) :
  (∀ h b, isPlaying s → history s = h ++ [b] →
     let s' := handleUndo s in
     tubes s' = b ∧ history s' = h ∧ selectedTubeId s' = None
     ∧ moves s' = moves s ∧ isPlaying s'
     ∧ initialTubes s' = initialTubes s ∧ maxMoves s' = maxMoves s
     ∧ level s' = level s ∧ timeLeft s' = timeLeft s ∧ totalTime s' = totalTime s)
  ∧ (history s = [] ∨ isCompleted s = true ∨ isFailed s = true → handleUndo s = s)
  ∧ (∀ n, moves (Nat.iter n handleUndo s) = moves s)
  ∧ (∀ selected id sourceTube destTube s1,
       isPlaying s →
       selectedTubeId s = Some selected → selected ≠ id →
       findTube (tubes s) selected = Some sourceTube →
       findTube (tubes s) id = Some destTube →
       isValidMove sourceTube destTube = true →
       handleTubeClick s id = Some s1 → isPlaying s1 →
       tubes (handleUndo s1) = tubes s
       ∧ history (handleUndo s1) = history s
       ∧ moves (handleUndo s1) = moves s + 1
       ∧ moves (handleUndo s1) = moves s1
       ∧ selectedTubeId (handleUndo s1) = None).
Proof.
  split_and!.
  - intros h b Hplay Hh s'. unfold s'.
    rewrite (handleUndo_playing s h b) by done. by split_and!.
  - apply handleUndo_noop.
  - intros n. induction n as [|n IH]; [done|].
    simpl. by rewrite handleUndo_moves.
  - intros selected id sourceTube destTube s1 Hplay Hsel Hne Hsrc Hdst Hvalid Hs1 Hplay1.
    destruct (isValidMove_true _ _ Hvalid) as (_ & [ball Hlast] & _).
    rewrite (handleTubeClick_move_eq s selected id sourceTube destTube ball) in Hs1
      by done.
    injection Hs1 as <-.
    erewrite handleUndo_playing; [|done|done]. by simpl.
Qed.

Lemma handleUndo_spec_witness :
  ∃ s1, handleTubeClick (sampleSession (Some 0%nat) 0 63) 2 = Some s1
        ∧ tubes (handleUndo s1) = sampleBoard
        ∧ moves (handleUndo s1) = 1.
Proof.
  eexists. split; [vm_compute; reflexivity|].
  destruct (handleUndo_spec (sampleSession (Some 0%nat) 0 63))
    as (_ & _ & _ & Hround).
  edestruct (Hround 0%nat 2%nat (tube 0 fourReds) (tube 2 []))
    as (Ht & _ & Hm & _).
  - split; reflexivity.
  - reflexivity.
  - lia.
  - reflexivity.
  - reflexivity.
  - reflexivity.
  - vm_compute; reflexivity.
  - split; reflexivity.
  - split; [exact Ht | exact Hm].
Defined.

(** ** The session: the selection is always a tube of the board *)

Lemma findTube_elem_of (l : list TubeData) (id : nat) (t : TubeData) :
  findTube l id = Some t → id ∈ map tube_id l.
Proof.
  intros [<- Hin]%findTube_Some. by apply list_elem_of_fmap_2.
Qed.

Lemma selectionOK_select (s : GameState) (id : nat) (t : TubeData) :
  findTube (tubes s) id = Some t → balls t ≠ [] →
  selectionOK (withSelection s (Some id)).
Proof.
  intros Hfind Hne. unfold selectionOK; simpl. split; [|by eauto].
  by eapply findTube_elem_of.
Qed.

Lemma length_pos_nonempty {A} (l : list A) : (0 <? length l)%nat = true → l ≠ [].
Proof. by destruct l. Qed.

Lemma handleTubeClick_selectionOK (s s' : GameState) (id : nat) :
  selectionOK s → handleTubeClick s id = Some s' → selectionOK s'.
Proof.
  intros Hok. unfold handleTubeClick.
  destruct (isCompleted s || isFailed s); [by intros [= <-]|].
  destruct (selectedTubeId s) as [selected|] eqn:Hsel.
  - destruct (selected =? id)%nat; [by intros [= <-]|].
    destruct (findTube (tubes s) selected) as [sourceTube|]; [|done]. simpl.
    destruct (findTube (tubes s) id) as [destTube|] eqn:Hdst; [|done]. simpl.
    destruct (isValidMove sourceTube destTube).
    + destruct (last (balls sourceTube)); [|done]. by intros [= <-].
    + destruct (0 <? length (balls destTube))%nat eqn:Hd; intros [= <-]; [|done].
      eapply selectionOK_select; [done|]. by apply length_pos_nonempty.
  - destruct (findTube (tubes s) id) as [t|] eqn:Hfind; [|by intros [= <-]].
    destruct (length (balls t) =? 0)%nat eqn:Hlen; intros [= <-]; [done|].
    eapply selectionOK_select; [done|]. intros E. by rewrite E in Hlen.
Qed.

Lemma handleUndo_selectionOK (s : GameState) :
  selectionOK s → selectionOK (handleUndo s).
Proof.
  intros Hok. unfold handleUndo. destruct (_ || _); [done|].
  by destruct (last (history s)).
Qed.

Lemma handleReset_selection (rand : nat → Q) (uuid : nat → string) (s s' : GameState) :
  handleReset rand uuid s = Some s' → selectedTubeId s' = None.
Proof.
  unfold handleReset. destruct (initialTubes s); simpl.
  - by intros [= <-].
  - destruct (generateLevel _ _ _); simpl; [|done]. by intros [= <-].
Qed.

Lemma reachable_selectionOK (s : GameState) : reachable s → selectionOK s.
Proof.
  induction 1 as [rand uuid l s Hinit|s id s' _ IH Hclick|s _ IH
                 |rand uuid s s' _ IH Hreset|s _ IH _ _].
  - unfold initLevel in Hinit.
    destruct (generateLevel _ _ _); simplify_eq/=. done.
  - by eapply handleTubeClick_selectionOK.
  - by apply handleUndo_selectionOK.
  - unfold selectionOK. by rewrite (handleReset_selection _ _ _ _ Hreset).
  - done.
Qed.

(** A click never fails in a session whose selection is a tube of the
    board, when the clicked id is one too. *)
Lemma handleTubeClick_total (s : GameState) (id : nat) :
  selectionOK s → id ∈ map tube_id (tubes s) → is_Some (handleTubeClick s id).
Proof.
  intros Hok Hid. unfold handleTubeClick.
  destruct (isCompleted s || isFailed s); [by eauto|].
  unfold selectionOK in Hok.
  destruct (selectedTubeId s) as [selected|].
  - destruct Hok as (_ & t & Hfind & Hne).
    destruct (selected =? id)%nat; [by eauto|].
    rewrite Hfind. simpl.
    destruct (findTube_is_Some _ _ Hid) as [d ->]. simpl.
    destruct (isValidMove t d) eqn:Hvalid.
    + destruct (isValidMove_true _ _ Hvalid) as (_ & [ball ->] & _). by eauto.
    + destruct (0 <? _)%nat; by eauto.
  - destruct (findTube (tubes s) id) as [t|]; [|by eauto].
    destruct (_ =? _)%nat; by eauto.
Qed.

(** C10. In every session reached from a freshly started level by clicks,
    undo, reset (and timer ticks), the selection is either null or the id of
    a tube of the current board, and that tube holds a ball.  So in the
    click handler the lookup of the source tube finds it, the lookup of the
    destination finds the clicked tube whenever the click is on a tube of the
    board, and the handler returns a session. *)
Theorem reachable_selection_present (s : GameState) :
  reachable s →
  (selectedTubeId s = None
   ∨ ∃ selected t, selectedTubeId s = Some selected
                   ∧ selected ∈ map tube_id (tubes s)
                   ∧ findTube (tubes s) selected = Some t
                   ∧ balls t ≠ [])
  ∧ (∀ selected id, selectedTubeId s = Some selected →
       id ∈ map tube_id (tubes s) →
       is_Some (findTube (tubes s) selected)
       ∧ is_Some (findTube (tubes s) id)
       ∧ is_Some (handleTubeClick s id)).
Proof.
  intros Hreach. pose proof (reachable_selectionOK s Hreach) as Hok.
  split.
  - unfold selectionOK in Hok. destruct (selectedTubeId s) as [selected|]; [|by left].
    right. destruct Hok as (Hin & t & Hfind & Hne). by exists selected, t.
  - intros selected id Hsel Hid. split_and!.
    + unfold selectionOK in Hok. rewrite Hsel in Hok.
      destruct Hok as (_ & t & -> & _). by eauto.
    + by apply findTube_is_Some.
    + by apply handleTubeClick_total.
Qed.

Lemma reachable_selection_present_witness :
  ∃ s, reachable s ∧ selectedTubeId s = Some 1%nat
       ∧ is_Some (findTube (tubes s) 1) ∧ is_Some (handleTubeClick s 2).
Proof.
  eassert (H0 : initLevel sampleRand sampleUuid 0 = Some _)
    by (vm_compute; reflexivity).
  match type of H0 with
  | _ = Some ?s0 =>
      eassert (H1 : handleTubeClick s0 1%nat = Some _) by (vm_compute; reflexivity)
  end.
  pose proof (reach_click _ _ _ (reach_init _ _ _ _ H0) H1) as Hr.
  destruct (reachable_selection_present _ Hr) as [_ Hlook].
  eexists. split; [exact Hr|]. split; [reflexivity|].
  destruct (Hlook 1%nat 2%nat) as (Hsrc & _ & Hclick).
  - reflexivity.
  - apply list_elem_of_In. vm_compute. tauto.
  - split; [exact Hsrc | exact Hclick].
Defined.

(** ** The level generator: choosing a scramble move *)

Lemma Qfloor_eq_iff (x : Q) (k : Z) :
  Qfloor x = k ↔ (inject_Z k <= x ∧ x < inject_Z (k + 1))%Q.
Proof.
  split.
  - intros <-. split; [apply Qfloor_le | apply Qlt_floor].
  - intros [Hlo Hhi].
    apply Qfloor_resp_le in Hlo. rewrite Qfloor_Z in Hlo.
    assert (Qfloor x < k + 1); [|lia].
    rewrite Zlt_Qlt. eapply Qle_lt_trans; [apply Qfloor_le | exact Hhi].
Qed.

Lemma inject_Z_pos (len : nat) : (0 < len)%nat → (0 < inject_Z (Z.of_nat len))%Q.
Proof. intros H. change 0%Q with (inject_Z 0). rewrite <- Zlt_Qlt. lia. Qed.

(** [Math.random ()] is a Number from 0 up to the greatest Number below 1,
    and every such Number is returned. *)
Lemma Math_random_range (r : Q) :
  (0 <= r ∧ r < 1)%Q →
  (0 <= Math_random r ∧ Math_random r <= r ∧ Math_random r <= 1 - pow2 (-53))%Q.
Proof.
  intros [Hlo Hhi]. unfold Math_random. split_and!.
  - by apply numberBelow_nonneg.
  - apply numberBelow_le.
  - by apply numberBelow_lt_1.
Qed.

Lemma Math_random_Number (r : Q) : isNumber r → (Math_random r == r)%Q.
Proof. intros (m & e & Hm & E). by apply (numberBelow_exact r m e). Qed.

(** The product [Math.random () * len] rounds to a Number below [len]: the
    index is one of the array. *)
Lemma randomIndex_range (r : Q) (len : nat) :
  (0 <= r ∧ r < 1)%Q → (0 < len)%nat → 0 ≤ randomIndex r len < Z.of_nat len.
Proof.
  intros Hr Hlen.
  destruct (Math_random_range r Hr) as (Hx0 & _ & Hx1).
  change (pow2 (-53)) with (1 # 9007199254740992)%Q in Hx1.
  pose proof (inject_Z_pos len Hlen) as Hpos.
  unfold randomIndex, Math_floor, mulNumber.
  set (x := Math_random r) in *. set (n := inject_Z (Z.of_nat len)) in *.
  assert (Hp : (0 <= x * n)%Q) by nra.
  destruct (nearestNumber_error (x * n) Hp) as [_ Herr].
  pose proof (nearestNumber_nonneg (x * n) Hp) as Hnn.
  split.
  - rewrite <- (Qfloor_Z 0). by apply Qfloor_resp_le.
  - rewrite Zlt_Qlt. eapply Qle_lt_trans; [apply Qfloor_le|]. fold n. nra.
Qed.

(** A product that is rounded up to the next integer: the exact product
    is below 5, the index is 5. *)
Lemma randomIndex_rounded_up :
  isNumber (3752999689475413 # 2 ^ 52)
  ∧ Qfloor ((3752999689475413 # 2 ^ 52) * 6) = 4
  ∧ randomIndex (3752999689475413 # 2 ^ 52) 6 = 5.
Proof.
  split_and!.
  - exists 3752999689475413, (-52). split; by vm_compute.
  - by vm_compute.
  - by vm_compute.
Qed.

(** The index is [k] when the exact product is from [k] up to [k + 1]
    less its 53rd binary place, and only when the product is from [k]
    less its 53rd binary place up to [k + 1]: the rounding of the product
    moves the ends of the [k]-th of the [len] equal parts of the unit
    interval by that much. *)
Lemma randomIndex_interval (r : Q) (len : nat) (k : Z) :
  (0 <= r ∧ r < 1)%Q → (0 < len)%nat → Z.of_nat len ≤ 2 ^ 53 → 0 ≤ k →
  let p := (Math_random r * inject_Z (Z.of_nat len))%Q in
  ((inject_Z k <= p ∧ p <= inject_Z (k + 1) * (1 - pow2 (-53)))%Q →
   randomIndex r len = k)
  ∧ (randomIndex r len = k →
     (inject_Z k * (1 - pow2 (-53)) <= p ∧ p < inject_Z (k + 1))%Q).
Proof.
  intros Hr Hlen Hmax Hk p.
  pose proof (randomIndex_range r len Hr Hlen) as Hrange.
  destruct (Math_random_range r Hr) as (Hx0 & _ & Hx1).
  change (pow2 (-53)) with (1 # 9007199254740992)%Q in *.
  pose proof (inject_Z_pos len Hlen) as Hpos.
  unfold randomIndex, Math_floor, mulNumber in *. fold p in Hrange |- *.
  assert (Hp : (0 <= p)%Q) by (unfold p; nra).
  assert (Hpn : (p < inject_Z (Z.of_nat len))%Q) by (unfold p; nra).
  destruct (nearestNumber_error p Hp) as [_ Herr].
  rewrite inject_Z_plus. change (inject_Z 1) with 1%Q.
  assert (Hk0 : (0 <= inject_Z k)%Q) by (by rewrite <- (Zle_Qle 0)).
  split.
  - intros [Hlo Hhi]. apply Qfloor_eq_iff.
    rewrite inject_Z_plus. change (inject_Z 1) with 1%Q. split; [|lra].
    apply nearestNumber_ge_integer; [|done].
    assert (Hlt : (inject_Z k < inject_Z (Z.of_nat len))%Q) by lra.
    rewrite <- Zlt_Qlt in Hlt. lia.
  - intros Hidx. rewrite Hidx in Hrange.
    apply Qfloor_eq_iff in Hidx as [Hlo Hhi].
    rewrite inject_Z_plus in Hhi. change (inject_Z 1) with 1%Q in Hhi.
    split.
    + destruct (Qlt_le_dec p (inject_Z k * (1 - (1 # 9007199254740992)))); [lra | done].
    + destruct (Qlt_le_dec p (inject_Z k + 1)) as [|Hge]; [done|].
      assert (inject_Z (k + 1) <= nearestNumber p)%Q.
      { apply nearestNumber_ge_integer; [lia|].
        rewrite inject_Z_plus. by change (inject_Z 1) with 1%Q. }
      rewrite inject_Z_plus in H. change (inject_Z 1) with 1%Q in H. lra.
Qed.

Lemma arrayGet_Some {A} (arr : list A) (k : Z) :
  0 ≤ k < Z.of_nat (length arr) → ∃ x, arrayGet arr k = Some x ∧ arr !! Z.to_nat k = Some x.
Proof.
  intros Hk. unfold arrayGet.
  destruct (Z.ltb_spec k 0); [lia|].
  destruct (lookup_lt_is_Some_2 arr (Z.to_nat k)) as [x Hx]; [lia|]. eauto.
Qed.

Lemma elem_of_movesFrom (tubes : list TubeData) (n src : nat) (m : Move) :
  m ∈ movesFrom tubes n src
  ↔ from m = src ∧ (to m < n)%nat ∧ from m ≠ to m
    ∧ ∃ d, tubes !! to m = Some d ∧ (length (balls d) < capacity d)%nat.
Proof.
  unfold movesFrom. rewrite list_elem_of_bind. split.
  - intros (dest & Hm & Hdest%elem_of_seq).
    destruct (Nat.eqb_spec src dest); [by apply elem_of_nil in Hm|].
    destruct (tubes !! dest) as [d|] eqn:Hd; [|by apply elem_of_nil in Hm].
    destruct (Nat.ltb_spec (length (balls d)) (capacity d));
      [|by apply elem_of_nil in Hm].
    apply list_elem_of_singleton in Hm as ->. simpl.
    split_and!; [done|lia|done|by eauto].
  - intros (Hsrc & Hlt & Hne & d & Hd & Hroom). exists (to m).
    split; [|apply elem_of_seq; lia].
    destruct (Nat.eqb_spec src (to m)); [congruence|].
    rewrite Hd. destruct (Nat.ltb_spec (length (balls d)) (capacity d)); [|lia].
    apply list_elem_of_singleton. destruct m; simpl in *. by subst.
Qed.

(** The moves the two loops collect are the legal ones, each once. *)
Lemma elem_of_availableMoves (tubes : list TubeData) (n : nat) (m : Move) :
  m ∈ availableMoves tubes n
  ↔ (from m < n)%nat ∧ (to m < n)%nat ∧ legalMove tubes m.
Proof.
  unfold availableMoves, legalMove. rewrite list_elem_of_bind. split.
  - intros (src & Hm & Hsrc%elem_of_seq).
    destruct (tubes !! src) as [s|] eqn:Hs; [|by apply elem_of_nil in Hm].
    destruct (length (balls s) =? 0)%nat eqn:Hlen; [by apply elem_of_nil in Hm|].
    apply elem_of_movesFrom in Hm as (-> & Hlt & Hne & d & Hd & Hroom).
    split_and!; [lia|done|done|].
    exists s, d. split_and!; [done..| |done]. intros E. by rewrite E in Hlen.
  - intros (Hf & Ht & Hne & s & d & Hs & Hd & Hballs & Hroom).
    exists (from m). split; [|apply elem_of_seq; lia].
    rewrite Hs. destruct (length (balls s) =? 0)%nat eqn:Hlen.
    { by apply length_zero_iff in Hlen. }
    apply elem_of_movesFrom. split_and!; [done..|]. by eauto.
Qed.

Lemma NoDup_movesFrom (tubes : list TubeData) (n src : nat) :
  NoDup (movesFrom tubes n src).
Proof.
  unfold movesFrom. apply NoDup_bind; [| |apply NoDup_seq].
  - intros d1 d2 m _ _ H1 H2.
    assert (Hto : ∀ d, m ∈ (if (src =? d)%nat then []
                            else match tubes !! d with
                                 | Some t => if (length (balls t) <? capacity t)%nat
                                             then [ {| from := src; to := d |} ] else []
                                 | None => []
                                 end) → to m = d).
    { intros d Hm. destruct (src =? d)%nat; [by apply elem_of_nil in Hm|].
      destruct (tubes !! d) as [t|]; [|by apply elem_of_nil in Hm].
      destruct (_ <? _)%nat; [|by apply elem_of_nil in Hm].
      by apply list_elem_of_singleton in Hm as ->. }
    by rewrite <- (Hto d1 H1), <- (Hto d2 H2).
  - intros d _. destruct (src =? d)%nat; [constructor|].
    destruct (tubes !! d) as [t|]; [|constructor].
    destruct (_ <? _)%nat; [apply NoDup_singleton | constructor].
Qed.

Lemma NoDup_availableMoves (tubes : list TubeData) (n : nat) :
  NoDup (availableMoves tubes n).
Proof.
  unfold availableMoves. apply NoDup_bind; [| |apply NoDup_seq].
  - intros s1 s2 m _ _ H1 H2.
    assert (Hfrom : ∀ s, m ∈ match tubes !! s with
                            | Some t => if (length (balls t) =? 0)%nat then []
                                        else movesFrom tubes n s
                            | None => []
                            end → from m = s).
    { intros s Hm. destruct (tubes !! s) as [t|]; [|by apply elem_of_nil in Hm].
      destruct (_ =? _)%nat; [by apply elem_of_nil in Hm|].
      by apply elem_of_movesFrom in Hm as [? _]. }
    by rewrite <- (Hfrom s1 H1), <- (Hfrom s2 H2).
  - intros s _. destruct (tubes !! s) as [t|]; [|constructor].
    destruct (_ =? _)%nat; [constructor | apply NoDup_movesFrom].
Qed.

Lemma NoDup_movePool (tubes : list TubeData) (n : nat) (previousSource : Z) :
  NoDup (movePool tubes n previousSource).
Proof.
  unfold movePool, usefulMoves. destruct (0 <? _)%nat.
  - apply NoDup_filter, NoDup_availableMoves.
  - apply NoDup_availableMoves.
Qed.

Lemma elem_of_movePool (tubes : list TubeData) (n : nat) (previousSource : Z) (m : Move) :
  m ∈ movePool tubes n previousSource → m ∈ availableMoves tubes n.
Proof.
  unfold movePool, usefulMoves. destruct (0 <? _)%nat; [|done].
  by intros [_ ?]%list_elem_of_filter.
Qed.

Lemma movePool_nil (tubes : list TubeData) (n : nat) (previousSource : Z) :
  movePool tubes n previousSource = [] ↔ availableMoves tubes n = [].
Proof.
  unfold movePool, usefulMoves. split.
  - destruct (0 <? _)%nat eqn:E; [|done]. intros H. by rewrite H in E.
  - intros ->. done.
Qed.

(** C5, as the code has it.  The moves collected in a scramble step are
    exactly the legal ordered pairs (source non-empty, destination below its
    capacity, source and destination different), each once.  The pool drops
    every move INTO the tube the preceding move took its ball from (the
    exact reverse of that move among them) when some other legal move
    exists, and is all legal moves otherwise.  The move is drawn uniformly
    from the pool, as far as a product of Numbers allows: the [k]-th move
    is taken when [Math.random () * len] is from [k] up to [k + 1] less its
    53rd binary place, and only when it is from [k] less its 53rd binary
    place up to [k + 1]; [Math.random ()] is any Number from 0 up to the
    greatest Number below 1.  With no legal move the loop stops. *)
Theorem scramble_step_spec (rand : nat → Q) (tubes : list TubeData)
    (totalTubes i : nat) (previousSource : Z) :
  let available := availableMoves tubes totalTubes in
  let pool := movePool tubes totalTubes previousSource in
  (∀ m, m ∈ available
        ↔ (from m < totalTubes)%nat ∧ (to m < totalTubes)%nat ∧ legalMove tubes m)
  ∧ NoDup available ∧ NoDup pool
  ∧ ((∃ m, m ∈ available ∧ Z.of_nat (to m) ≠ previousSource) →
     ∀ m, m ∈ pool ↔ m ∈ available ∧ Z.of_nat (to m) ≠ previousSource)
  ∧ ((∀ m, m ∈ available → Z.of_nat (to m) = previousSource) → pool = available)
  ∧ (∀ (k : nat) m r, pool !! k = Some m → (0 <= r ∧ r < 1)%Q →
       Z.of_nat (length pool) ≤ 2 ^ 53 →
       let p := (Math_random r * inject_Z (Z.of_nat (length pool)))%Q in
       ((inject_Z (Z.of_nat k) <= p
         ∧ p <= inject_Z (Z.of_nat k + 1) * (1 - pow2 (-53)))%Q →
        arrayGet pool (randomIndex r (length pool)) = Some m)
       ∧ (arrayGet pool (randomIndex r (length pool)) = Some m →
          (inject_Z (Z.of_nat k) * (1 - pow2 (-53)) <= p
           ∧ p < inject_Z (Z.of_nat k + 1))%Q))
  ∧ (∀ r, (0 <= r ∧ r < 1)%Q →
       (0 <= Math_random r ∧ Math_random r <= r
        ∧ Math_random r <= 1 - pow2 (-53))%Q)
  ∧ (∀ r, isNumber r → (Math_random r == r)%Q)
  ∧ (available = [] →
     ∀ remaining, shuffleLoop rand totalTubes remaining i tubes previousSource = Some tubes)
  ∧ (available ≠ [] → (0 <= rand i ∧ rand i < 1)%Q →
     ∃ m, arrayGet pool (randomIndex (rand i) (length pool)) = Some m
          ∧ m ∈ pool
          ∧ ∀ remaining,
              shuffleLoop rand totalTubes (S remaining) i tubes previousSource
              = (performMove tubes m ≫= λ tubes',
                   shuffleLoop rand totalTubes remaining (S i) tubes'
                     (Z.of_nat (from m)))).
Proof.
  intros available pool. split_and!.
  - apply elem_of_availableMoves.
  - apply NoDup_availableMoves.
  - apply NoDup_movePool.
  - intros (m0 & Hm0 & Hto0) m. unfold pool, movePool.
    fold available. unfold usefulMoves.
    destruct (0 <? _)%nat eqn:E.
    + rewrite list_elem_of_filter. tauto.
    + exfalso. apply Nat.ltb_ge in E.
      assert (m0 ∈ filter (λ m, Z.of_nat (to m) ≠ previousSource) available)
        as Hin by (by apply list_elem_of_filter).
      destruct (filter _ available); [by apply elem_of_nil in Hin | simpl in E; lia].
  - intros Hall. unfold pool, movePool. fold available. unfold usefulMoves.
    destruct (0 <? _)%nat eqn:E; [|done]. exfalso. apply Nat.ltb_lt in E.
    destruct (filter _ available) as [|m l] eqn:Hf; [simpl in E; lia|].
    assert (m ∈ filter (λ m, Z.of_nat (to m) ≠ previousSource) available)
      as [Hne Hin]%list_elem_of_filter by (rewrite Hf; left).
    by apply Hne, Hall.
  - intros k m r Hk Hr Hmax p.
    assert (Hlen : (0 < length pool)%nat).
    { apply lookup_lt_Some in Hk. lia. }
    destruct (randomIndex_interval r (length pool) (Z.of_nat k) Hr Hlen Hmax)
      as [Hin Hout]; [lia|].
    pose proof (randomIndex_range r (length pool) Hr Hlen) as Hrange.
    unfold arrayGet. destruct (Z.ltb_spec (randomIndex r (length pool)) 0); [lia|].
    split.
    + intros Hp. rewrite (Hin Hp). by rewrite Nat2Z.id.
    + intros Hidx. apply Hout.
      pose proof (NoDup_lookup pool _ _ m (NoDup_movePool _ _ _) Hidx Hk). lia.
  - apply Math_random_range.
  - apply Math_random_Number.
  - intros Hnil remaining. destruct remaining as [|remaining]; [done|].
    simpl. fold pool.
    replace pool with (@nil Move) by (symmetry; by apply movePool_nil).
    done.
  - intros Hne Hr.
    assert (Hlen : (0 < length pool)%nat).
    { destruct pool eqn:Hp; [|simpl; lia]. by apply movePool_nil in Hp. }
    destruct (arrayGet_Some pool (randomIndex (rand i) (length pool))) as (m & Hm & Hk).
    { by apply randomIndex_range. }
    exists m. split_and!; [done| |].
    + by eapply list_elem_of_lookup_2.
    + intros remaining. simpl. fold pool.
      apply Nat.ltb_lt in Hlen. by rewrite Hlen, Hm.
Qed.

Lemma scramble_step_spec_witness :
  ∃ m, arrayGet (movePool scrambledBoard 4 0) (randomIndex (sampleRand 0) 9) = Some m
       ∧ m ∈ movePool scrambledBoard 4 0.
Proof.
  destruct (scramble_step_spec sampleRand scrambledBoard 4 0 0)
    as (_ & _ & _ & _ & _ & _ & _ & _ & _ & Hstep).
  destruct Hstep as (m & Hm & Hin & _).
  - discriminate.
  - split; vm_compute; [discriminate | reflexivity].
  - exists m. split; [exact Hm | exact Hin].
Defined.

(** C5 as stated fails.  After the move from tube 0 to tube 1, the move
    from tube 2 to tube 0 is legal and is not the reverse of that move (the
    reverse goes from tube 1 to tube 0); the specification's pool has it, the
    code's pool does not, although other moves are in it. *)
Lemma scramble_reverse_only_counterexample :
  performMove unscrambledBoard firstMove = Some scrambledBoard
  ∧ legalMove scrambledBoard refillMove
  ∧ refillMove ≠ reverseMove firstMove
  ∧ refillMove ∈ spec_movePool scrambledBoard 4 (Some firstMove)
  ∧ (refillMove ∉ movePool scrambledBoard 4 (Z.of_nat (from firstMove)))
  ∧ length (movePool scrambledBoard 4 (Z.of_nat (from firstMove))) = 9%nat
  ∧ (∀ r, arrayGet (movePool scrambledBoard 4 (Z.of_nat (from firstMove)))
            (randomIndex r 9) ≠ Some refillMove).
Proof.
  assert (Hnot : refillMove ∉ movePool scrambledBoard 4 (Z.of_nat (from firstMove))).
  { intros H. vm_compute in H.
    repeat (apply elem_of_cons in H as [H|H]; [discriminate|]).
    by apply elem_of_nil in H. }
  split_and!.
  - reflexivity.
  - apply (elem_of_availableMoves scrambledBoard 4 refillMove).
    apply list_elem_of_In. vm_compute. intuition.
  - discriminate.
  - apply list_elem_of_In. vm_compute. intuition.
  - exact Hnot.
  - reflexivity.
  - intros r Hget. apply Hnot. unfold arrayGet in Hget.
    destruct (_ <? 0); [done|]. by eapply list_elem_of_lookup_2.
Qed.

(** ** The level generator: counting balls *)

Local Open Scope nat_scope.

Lemma sum_list_with_insert {A} (f : A → nat) (l : list A) (i : nat) (x y : A) :
  l !! i = Some x →
  sum_list_with f (<[i := y]> l) + f x = sum_list_with f l + f y.
Proof.
  revert i. induction l as [|a l IH]; intros [|i] Hi; simplify_eq/=.
  - lia.
  - specialize (IH i Hi). lia.
Qed.

Lemma sum_list_with_lookup {A} (f : A → nat) (l : list A) (i : nat) (x : A) :
  l !! i = Some x → f x ≤ sum_list_with f l.
Proof. intros Hi. apply sum_list_with_in. by eapply list_elem_of_lookup_2. Qed.

Lemma sum_list_with_two {A} (f : A → nat) (l : list A) (i j : nat) (x y : A) :
  i ≠ j → l !! i = Some x → l !! j = Some y → f x + f y ≤ sum_list_with f l.
Proof.
  revert i j. induction l as [|a l IH]; intros [|i] [|j] Hne Hi Hj; simplify_eq/=.
  - pose proof (sum_list_with_lookup f l j y Hj). lia.
  - pose proof (sum_list_with_lookup f l i x Hi). lia.
  - assert (Hij : i ≠ j) by congruence. pose proof (IH i j Hij Hi Hj). lia.
Qed.

Lemma sum_list_with_ge {A} (f : A → nat) (l : list A) (k : nat) :
  (∀ x, x ∈ l → k ≤ f x) → k * length l ≤ sum_list_with f l.
Proof.
  induction l as [|a l IH]; intros Hall; simpl; [lia|].
  assert (k ≤ f a) by (apply Hall; left).
  assert (k * length l ≤ sum_list_with f l) by (apply IH; intros; apply Hall; by right).
  lia.
Qed.

Lemma sum_list_with_fmap {A B} (f : B → nat) (g : A → B) (l : list A) :
  sum_list_with f (g <$> l) = sum_list_with (f ∘ g) l.
Proof. induction l as [|a l IH]; csimpl; [done|]. by rewrite IH. Qed.

Lemma countColor_app (c : ColorId) (bs1 bs2 : list Ball) :
  countColor c (bs1 ++ bs2) = countColor c bs1 + countColor c bs2.
Proof. unfold countColor. by rewrite filter_app, length_app. Qed.

Lemma popped_balls (t : TubeData) (ball : Ball) :
  last (balls t) = Some ball → balls t = balls (popped t) ++ [ball].
Proof. apply take_pred_last. Qed.

Lemma isAllSame_monochrome (bs : list Ball) :
  bs ≠ [] → ∃ b, isAllSame bs = Some b ∧ (b = true ↔ monochrome bs).
Proof.
  intros Hne. unfold isAllSame. destruct bs as [|first bs]; [done|].
  eexists. split; [done|]. by apply allSame_monochrome.
Qed.

Lemma countColor_monochrome (bs : list Ball) (b : Ball) :
  monochrome bs → b ∈ bs → countColor (colorId b) bs = length bs.
Proof.
  intros Hmono Hb. unfold countColor. f_equal.
  assert (Hall : ∀ x, x ∈ bs → colorId x = colorId b) by (intros; by apply Hmono).
  clear Hmono Hb. induction bs as [|x bs IH]; [done|].
  rewrite filter_cons_True by (apply Hall; left).
  f_equal. apply IH. intros. apply Hall. by right.
Qed.

Lemma countColor_pos (c : ColorId) (bs : list Ball) (b : Ball) :
  b ∈ bs → colorId b = c → 0 < countColor c bs.
Proof.
  intros Hb Hc. unfold countColor.
  assert (Hin : b ∈ filter (λ b, colorId b = c) bs) by (by apply list_elem_of_filter).
  destruct (filter _ bs); [by apply elem_of_nil in Hin | simpl; lia].
Qed.

Lemma last_elem_of {A} (l : list A) (x : A) : last l = Some x → x ∈ l.
Proof.
  intros Hl. rewrite (take_pred_last l x Hl). apply elem_of_app. right. left.
Qed.

Lemma totalBalls_pos (tubes : list TubeData) :
  0 < totalBalls tubes → ∃ t, t ∈ tubes ∧ balls t ≠ [].
Proof.
  unfold totalBalls. induction tubes as [|t tubes IH]; simpl; [lia|].
  intros Hpos. destruct (balls t) as [|b bs] eqn:Hb.
  - destruct IH as (t' & Hin & Hne); [simpl in Hpos; lia|].
    exists t'. split; [by right | done].
  - exists t. split; [left | by rewrite Hb].
Qed.

(** ** The level generator: the solved board *)

Lemma solvedTube_full (uuid : nat → string) (numColors : Z) (i : nat) :
  i < Z.to_nat numColors →
  balls (solvedTube uuid numColors i)
  = map (λ j, {| ball_id := uuid (i * TUBE_CAPACITY + j); colorId := i |})
      (seq 0 TUBE_CAPACITY).
Proof.
  intros Hi. unfold solvedTube. cbn [balls].
  destruct (Z.ltb_spec (Z.of_nat i) numColors); [done | lia].
Qed.

Lemma solvedTube_empty (uuid : nat → string) (numColors : Z) (i : nat) :
  Z.to_nat numColors ≤ i → balls (solvedTube uuid numColors i) = [].
Proof.
  intros Hi. unfold solvedTube. cbn [balls].
  destruct (Z.ltb_spec (Z.of_nat i) numColors); [lia | done].
Qed.

Lemma solvedTube_count (uuid : nat → string) (numColors : Z) (c : ColorId) (i : nat) :
  countColor c (balls (solvedTube uuid numColors i))
  = if decide (i < Z.to_nat numColors ∧ i = c) then TUBE_CAPACITY else 0.
Proof.
  destruct (decide (i < Z.to_nat numColors)) as [Hi|Hi].
  - rewrite solvedTube_full by done. unfold countColor. simpl.
    destruct (decide (i = c)) as [->|Hne].
    + rewrite decide_True by done.
      by rewrite !filter_cons_True by done.
    + rewrite decide_False by tauto.
      by rewrite !filter_cons_False by done.
  - rewrite solvedTube_empty by lia. by rewrite decide_False by tauto.
Qed.

Lemma solvedTube_length (uuid : nat → string) (numColors : Z) (i : nat) :
  length (balls (solvedTube uuid numColors i))
  = if decide (i < Z.to_nat numColors) then TUBE_CAPACITY else 0.
Proof.
  case_decide.
  - by rewrite solvedTube_full by done.
  - by rewrite solvedTube_empty by lia.
Qed.

Lemma solvedBoard_count (uuid : nat → string) (numColors : Z) (c : ColorId) (n : nat) :
  boardCount c (solvedBoard uuid numColors n)
  = if decide (c < Z.to_nat numColors ∧ c < n) then TUBE_CAPACITY else 0.
Proof.
  unfold boardCount, solvedBoard.
  induction n as [|n IH].
  { simpl. by rewrite decide_False by lia. }
  rewrite seq_S, Nat.add_0_l, map_app, sum_list_with_app, IH.
  cbn [map sum_list_with]. rewrite solvedTube_count. repeat case_decide; lia.
Qed.

Lemma solvedBoard_total (uuid : nat → string) (numColors : Z) (n : nat) :
  totalBalls (solvedBoard uuid numColors n)
  = Nat.min (Z.to_nat numColors) n * TUBE_CAPACITY.
Proof.
  unfold totalBalls, solvedBoard.
  induction n as [|n IH].
  { simpl. lia. }
  rewrite seq_S, Nat.add_0_l, map_app, sum_list_with_app, IH.
  cbn [map sum_list_with]. rewrite solvedTube_length. case_decide; unfold TUBE_CAPACITY; lia.
Qed.

Lemma solvedBoard_boardOK (uuid : nat → string) (numColors : Z) (n : nat) :
  Z.to_nat numColors ≤ n →
  boardOK n (Z.to_nat numColors) (solvedBoard uuid numColors n).
Proof.
  intros Hle. split.
  - unfold solvedBoard. by rewrite length_map, length_seq.
  - intros i t Hi. unfold solvedBoard in Hi.
    apply list_lookup_fmap_Some in Hi as (k & -> & Hk).
    apply lookup_seq in Hk as [-> _]. simpl.
    split_and!; [done..|].
    change (length (balls (solvedTube uuid numColors i)) ≤ TUBE_CAPACITY).
    rewrite solvedTube_length. case_decide; unfold TUBE_CAPACITY; lia.
  - intros c. rewrite solvedBoard_count. repeat case_decide; lia.
  - rewrite solvedBoard_total. by rewrite Nat.min_l.
Qed.

(** ** The level generator: what the loops preserve *)

Section BoardInvariant.

Variables (n colors : nat).

(** Moving the top ball of the tube at [i] onto the tube at [j], which has
    room, keeps the board well formed. *)
Lemma move_boardOK (tubes : list TubeData) (i j : nat)
    (src dst : TubeData) (ball : Ball) :
  boardOK n colors tubes → i ≠ j →
  tubes !! i = Some src → tubes !! j = Some dst →
  last (balls src) = Some ball → length (balls dst) < capacity dst →
  boardOK n colors (<[j := pushed dst ball]> (<[i := popped src]> tubes)).
Proof.
  intros [Hlen Htube Hcol Htot] Hij Hi Hj Hlast Hroom.
  pose proof (popped_balls src ball Hlast) as Hsrc.
  assert (Hj1 : <[i := popped src]> tubes !! j = Some dst)
    by (by rewrite list_lookup_insert_ne).
  destruct (Htube i src Hi) as (Hidi & Hcapi & Hleni).
  destruct (Htube j dst Hj) as (Hidj & Hcapj & Hlenj).
  split.
  - by rewrite !length_insert.
  - intros k t Hk.
    apply list_lookup_insert_Some in Hk as [(-> & <- & _)|[Hkj Hk]].
    { simpl. rewrite length_app. simpl. split_and!; [done..|lia]. }
    apply list_lookup_insert_Some in Hk as [(-> & <- & _)|[Hki Hk]].
    { simpl. rewrite length_take. split_and!; [done..|lia]. }
    by apply Htube.
  - intros c. rewrite <- Hcol. unfold boardCount.
    pose proof (sum_list_with_insert (λ t, countColor c (balls t)) tubes i src
                  (popped src) Hi) as H1.
    pose proof (sum_list_with_insert (λ t, countColor c (balls t)) _ j dst
                  (pushed dst ball) Hj1) as H2.
    cbv beta in H1, H2.
    change (balls (pushed dst ball)) with (balls dst ++ [ball]) in H2.
    rewrite Hsrc in H1 at 1. rewrite !countColor_app in *. lia.
  - rewrite <- Htot. unfold totalBalls.
    pose proof (sum_list_with_insert (λ t, length (balls t)) tubes i src
                  (popped src) Hi) as H1.
    pose proof (sum_list_with_insert (λ t, length (balls t)) _ j dst
                  (pushed dst ball) Hj1) as H2.
    cbv beta in H1, H2.
    change (balls (pushed dst ball)) with (balls dst ++ [ball]) in H2.
    rewrite Hsrc in H1 at 1. rewrite !length_app in *. lia.
Qed.

Lemma performMove_legal (tubes : list TubeData) (m : Move) :
  boardOK n colors tubes → legalMove tubes m →
  ∃ tubes', performMove tubes m = Some tubes' ∧ boardOK n colors tubes'.
Proof.
  intros Hok (Hne & s & d & Hs & Hd & Hballs & Hroom).
  destruct (last_is_Some _ Hballs) as [ball Hlast].
  exists (<[to m := pushed d ball]> (<[from m := popped s]> tubes)). split.
  - unfold performMove. rewrite Hs. simpl. rewrite Hlast. simpl.
    rewrite list_lookup_insert_ne by done. by rewrite Hd.
  - by eapply move_boardOK.
Qed.

Lemma shuffleLoop_boardOK (rand : nat → Q) :
  (∀ i, (0 <= rand i ∧ rand i < 1)%Q) →
  ∀ remaining i tubes previousSource,
    boardOK n colors tubes →
    ∃ tubes', shuffleLoop rand n remaining i tubes previousSource = Some tubes'
              ∧ boardOK n colors tubes'.
Proof.
  intros Hrand remaining.
  induction remaining as [|remaining IH]; intros i tubes previousSource Hok.
  { by exists tubes. }
  simpl. destruct (Nat.ltb_spec 0 (length (movePool tubes n previousSource)))
    as [Hlen|_]; [|by exists tubes].
  destruct (arrayGet_Some (movePool tubes n previousSource)
              (randomIndex (rand i) (length (movePool tubes n previousSource))))
    as (m & -> & Hk).
  { by apply randomIndex_range. }
  simpl.
  apply list_elem_of_lookup_2, elem_of_movePool, elem_of_availableMoves in Hk
    as (_ & _ & Hlegal).
  destruct (performMove_legal tubes m Hok Hlegal) as (tubes' & -> & Hok').
  simpl. by apply IH.
Qed.

(** The ball taken off a pre-solved tube cannot complete another tube: all
    balls of its color were in the tube it came from. *)
Lemma pushed_not_presolved (tubes : list TubeData) (k j : nat)
    (t d : TubeData) (ball : Ball) :
  boardOK n colors tubes → k ≠ j →
  tubes !! k = Some t → tubes !! j = Some d →
  presolved t → last (balls t) = Some ball →
  ¬ presolved (pushed d ball).
Proof.
  intros Hok Hkj Hk Hj [Hfull Hmono] Hlast [Hfull' Hmono'].
  pose proof (countColor_monochrome _ ball Hmono (last_elem_of _ _ Hlast)) as Hcount.
  pose proof (sum_list_with_two (λ t, countColor (colorId ball) (balls t))
                tubes k j t d Hkj Hk Hj) as Hsum.
  fold (boardCount (colorId ball) tubes) in Hsum.
  rewrite (ok_colors _ _ _ Hok) in Hsum. simpl in Hsum.
  rewrite Hcount, Hfull in Hsum.
  simpl in Hfull'. rewrite length_app in Hfull'. simpl in Hfull'.
  destruct (balls d) as [|x bs] eqn:Hd; [simpl in Hfull'; unfold TUBE_CAPACITY in *; lia|].
  assert (0 < countColor (colorId ball) (x :: bs)).
  { apply (countColor_pos _ _ x); [left|].
    apply Hmono'; simpl; rewrite Hd; apply elem_of_app; [left; left | right; left]. }
  case_decide; unfold TUBE_CAPACITY in *; lia.
Qed.

(** With an empty tube's worth of room on the board, a full tube always has
    another tube to give a ball to. *)
Lemma validDest_exists (tubes : list TubeData) (k : nat) (t : TubeData) :
  boardOK n colors tubes → colors < n →
  tubes !! k = Some t → length (balls t) = TUBE_CAPACITY →
  ∃ j d, list_find (λ t, tube_id t ≠ k ∧ length (balls t) < capacity t) tubes
         = Some (j, d)
         ∧ j ≠ k ∧ tubes !! j = Some d ∧ length (balls d) < capacity d.
Proof.
  intros Hok Hfree Hk Hfull.
  destruct (list_find _ tubes) as [[j d]|] eqn:Hfind.
  - apply list_find_Some in Hfind as (Hj & [Hid Hroom] & _).
    exists j, d. split_and!; [done| |done..].
    by destruct (ok_tube _ _ _ Hok j d Hj) as (<- & _).
  - exfalso. rewrite list_find_None, Forall_forall in Hfind.
    assert (Hall : ∀ x, x ∈ tubes → TUBE_CAPACITY ≤ length (balls x)).
    { intros x Hx. pose proof Hx as [i Hi]%list_elem_of_lookup.
      destruct (ok_tube _ _ _ Hok i x Hi) as (Hid & Hcap & _).
      destruct (decide (i = k)) as [->|Hne]; [simplify_eq; lia|].
      specialize (Hfind x Hx). simpl in Hfind. lia. }
    apply (sum_list_with_ge (λ t, length (balls t))) in Hall.
    fold (totalBalls tubes) in Hall.
    rewrite (ok_total _ _ _ Hok), (ok_length _ _ _ Hok) in Hall.
    unfold TUBE_CAPACITY in Hall. lia.
Qed.

Lemma breakSolved_step (tubes : list TubeData) (hs : bool) (k : nat) :
  boardOK n colors tubes → k < n →
  ∃ tubes' hs',
    breakSolved k (tubes, hs) = Some (tubes', hs')
    ∧ boardOK n colors tubes'
    ∧ (colors < n →
       (∀ j t, j < k → tubes !! j = Some t → ¬ presolved t) →
       ∀ j t, j < S k → tubes' !! j = Some t → ¬ presolved t).
Proof.
  intros Hok Hk.
  destruct (lookup_lt_is_Some_2 tubes k) as [t Ht];
    [by rewrite (ok_length _ _ _ Hok)|].
  assert (Hkeep : (¬ presolved t) →
            colors < n →
            (∀ j t, j < k → tubes !! j = Some t → ¬ presolved t) →
            ∀ j t, j < S k → tubes !! j = Some t → ¬ presolved t).
  { intros Hnot _ Hprev j t' Hj Ht'.
    destruct (decide (j = k)) as [->|Hne]; [by simplify_eq|].
    apply (Hprev j); [lia | done]. }
  unfold breakSolved. rewrite Ht. simpl.
  destruct (Nat.eqb_spec (length (balls t)) TUBE_CAPACITY) as [Hfull|Hnotfull];
    [|exists tubes, hs; split_and!; [done..|];
      apply Hkeep; by intros [? _]].
  destruct (isAllSame_monochrome (balls t)) as (b & -> & Hb).
  { intros E. by rewrite E in Hfull. }
  simpl. destruct b;
    [|exists tubes, hs; split_and!; [done..|];
      apply Hkeep; intros [_ Hmono]; by apply Hb in Hmono].
  assert (Hpre : presolved t) by (split; [done | by apply Hb]).
  destruct (last_is_Some (balls t)) as [ball Hlast].
  { intros E. by rewrite E in Hfull. }
  destruct (list_find _ tubes) as [[j d]|] eqn:Hfind.
  - apply list_find_Some in Hfind as (Hj & [Hid Hroom] & _).
    assert (Hjk : k ≠ j).
    { destruct (ok_tube _ _ _ Hok j d Hj) as (<- & _). done. }
    rewrite Hlast. simpl. rewrite list_lookup_insert_ne by done. rewrite Hj. simpl.
    eexists _, true. split_and!; [done| |].
    + by eapply move_boardOK.
    + intros _ Hprev i t' Hi Ht'.
      apply list_lookup_insert_Some in Ht' as [(-> & <- & _)|[Hij Ht']].
      { by eapply pushed_not_presolved. }
      apply list_lookup_insert_Some in Ht' as [(-> & <- & _)|[Hik Ht']].
      { intros [Hlen _]. simpl in Hlen. rewrite length_take in Hlen.
        unfold TUBE_CAPACITY in *. lia. }
      apply (Hprev i); [lia | done].
  - exists tubes, true. split_and!; [done..|].
    intros Hfree. exfalso.
    destruct (validDest_exists tubes k t Hok Hfree Ht Hfull)
      as (j & d & Hfind' & _).
    congruence.
Qed.

Lemma scanTubes_spec :
  ∀ m k tubes hs,
    boardOK n colors tubes → k + m ≤ n →
    ∃ tubes' hs',
      scanTubes (seq k m) (tubes, hs) = Some (tubes', hs')
      ∧ boardOK n colors tubes'
      ∧ (colors < n →
         (∀ j t, j < k → tubes !! j = Some t → ¬ presolved t) →
         ∀ j t, j < k + m → tubes' !! j = Some t → ¬ presolved t).
Proof.
  induction m as [|m IH]; intros k tubes hs Hok Hkm.
  - exists tubes, hs. split_and!; [done..|].
    intros _ Hprev j t Hj. apply Hprev. lia.
  - destruct (breakSolved_step tubes hs k Hok) as (tubes1 & hs1 & E1 & Hok1 & H1);
      [lia|].
    destruct (IH (S k) tubes1 hs1 Hok1) as (tubes2 & hs2 & E2 & Hok2 & H2); [lia|].
    exists tubes2, hs2. split_and!; [|done|].
    + cbn [seq scanTubes]. rewrite E1. exact E2.
    + intros Hfree Hprev j t Hj. apply H2; [done| |lia]. by apply H1.
Qed.

Lemma validateLoop_spec :
  ∀ fuel tubes hs,
    boardOK n colors tubes →
    ∃ tubes',
      validateLoop fuel n tubes hs = Some tubes'
      ∧ boardOK n colors tubes'
      ∧ (colors < n →
         (0 < fuel ∧ hs = true) ∨ (∀ t, t ∈ tubes → ¬ presolved t) →
         ∀ t, t ∈ tubes' → ¬ presolved t).
Proof.
  induction fuel as [|fuel IH]; intros tubes hs Hok.
  - exists tubes. split_and!; [done..|]. intros _ [[? _]|H]; [lia | done].
  - simpl. destruct hs.
    + destruct (scanTubes_spec n 0 tubes false Hok) as (tubes1 & hs1 & E1 & Hok1 & H1);
        [lia|].
      rewrite E1. simpl.
      destruct (IH tubes1 hs1 Hok1) as (tubes2 & E2 & Hok2 & H2).
      exists tubes2. split_and!; [done..|].
      intros Hfree _. apply H2; [done|]. right.
      intros t [j Hj]%list_elem_of_lookup.
      apply (H1 Hfree) with j; [intros; lia| |done].
      apply lookup_lt_Some in Hj. rewrite (ok_length _ _ _ Hok1) in Hj. lia.
    + exists tubes. split_and!; [done..|]. intros _ [[_ ?]|H]; done.
Qed.

End BoardInvariant.

(** ** The level generator: the generated board *)

Lemma sampleRand_range (i : nat) : (0 <= sampleRand i ∧ sampleRand i < 1)%Q.
Proof.
  unfold sampleRand, Qle, Qlt. simpl.
  pose proof (Nat.mod_upper_bound (i * 37 + 11) 100). lia.
Qed.

(** The generator returns a board, the board is well formed, and with
    room for it no tube of the board is pre-solved. *)
Lemma generateLevel_boardOK (rand : nat → Q) (uuid : nat → string) (config : LevelConfig) :
  (∀ i, (0 <= rand i ∧ rand i < 1)%Q) →
  (0 ≤ numColors config)%Z → (0 ≤ numEmpty config)%Z →
  ∃ board,
    generateLevel rand uuid config = Some board
    ∧ boardOK (Z.to_nat (numColors config + numEmpty config))
        (Z.to_nat (numColors config)) board
    ∧ ((1 ≤ numEmpty config)%Z → ∀ t, t ∈ board → ¬ presolved t).
Proof.
  intros Hrand Hnc Hne. unfold generateLevel.
  set (n := Z.to_nat (numColors config + numEmpty config)).
  set (colors := Z.to_nat (numColors config)).
  assert (Hle : colors ≤ n) by lia.
  pose proof (solvedBoard_boardOK uuid (numColors config) n Hle) as Hok0.
  fold colors in Hok0.
  destruct (shuffleLoop_boardOK n colors rand Hrand (Z.to_nat (shuffles config)) 0
              _ (-1)%Z Hok0) as (tubes1 & -> & Hok1).
  cbn [mbind option_bind].
  destruct (validateLoop_spec n colors 100 tubes1 true Hok1) as (board & -> & Hok & Hbroken).
  exists board. split_and!; [done..|].
  intros Hfree. apply Hbroken; [lia|]. left. split; [lia | done].
Qed.

Lemma boardOK_not_won (n colors : nat) (board : list TubeData) :
  boardOK n colors board → 0 < colors →
  (∀ t, t ∈ board → ¬ presolved t) → checkWinCondition board = false.
Proof.
  intros Hok Hcolor Hpre.
  destruct (totalBalls_pos board) as (t & Ht & Hballs).
  { rewrite (ok_total _ _ _ Hok). unfold TUBE_CAPACITY. lia. }
  destruct (checkWinCondition board) eqn:Hwin; [|done]. exfalso.
  apply checkWinCondition_Forall in Hwin. rewrite Forall_forall in Hwin.
  destruct (Hwin t Ht) as [?|?]; [done|]. by apply (Hpre t Ht).
Qed.

Lemma cloneBall_id (b : Ball) : cloneBall b = b.
Proof. by destruct b. Qed.

Lemma cloneTube_id (t : TubeData) : cloneTube t = t.
Proof.
  destruct t as [i bs cap]. unfold cloneTube. simpl. f_equal.
  induction bs as [|b bs IH]; simpl; [done|]. by rewrite cloneBall_id, IH.
Qed.

(** The clone of a board is the board, by value. *)
Lemma deepClone_id (board : list TubeData) : deepClone board = board.
Proof.
  unfold deepClone. induction board as [|t board IH]; simpl; [done|].
  by rewrite cloneTube_id, IH.
Qed.

(** Every level starts: for random numbers in [[0, 1)] and a level index
    from 0 on, [initLevel] returns a session, playing, without selection,
    on a board that is not won. *)
Lemma initLevel_total (rand : nat → Q) (uuid : nat → string) (levelIndex : Z) :
  (∀ i, (0 <= rand i ∧ rand i < 1)%Q) → (0 ≤ levelIndex)%Z →
  ∃ s, initLevel rand uuid levelIndex = Some s
       ∧ reachable s ∧ isPlaying s ∧ selectedTubeId s = None
       ∧ initialTubes s = Some (tubes s)
       ∧ checkWinCondition (tubes s) = false.
Proof.
  intros Hrand Hlevel.
  pose proof (numColors_range levelIndex) as Hcolors.
  destruct (generateLevel_boardOK rand uuid (getLevelConfig levelIndex) Hrand)
    as (board & Hgen & Hok & Hpre); [lia | done |].
  assert (Hinit : initLevel rand uuid levelIndex = Some
            {| tubes := board; initialTubes := Some (deepClone board);
               selectedTubeId := None; moves := 0%Z;
               maxMoves := cfg_maxMoves (getLevelConfig levelIndex);
               level := levelIndex; isCompleted := false; isFailed := false;
               history := [];
               timeLeft := timeLimit (getLevelConfig levelIndex);
               totalTime := timeLimit (getLevelConfig levelIndex) |}).
  { unfold initLevel. by rewrite Hgen. }
  eexists. split; [exact Hinit|]. split_and!; try done.
  - by eapply reach_init.
  - simpl. by rewrite deepClone_id.
  - simpl. eapply boardOK_not_won; [exact Hok | lia | by apply Hpre].
Qed.

(** C4, as the code has it.  For random numbers in [[0, 1)] and a
    configuration with [numColors >= 0] and [numEmpty >= 0], [generateLevel]
    returns a board of [numColors + numEmpty] tubes, tube [i] with id [i],
    each of capacity 4 and with at most 4 balls, that holds 4 balls of each
    color below [numColors] and no ball of another color.  If there is at
    least one empty tube ([numEmpty >= 1]), no tube of the board is full and
    of one color, and with at least one color the board is not won. *)
Theorem generateLevel_spec (rand : nat → Q) (uuid : nat → string) (config : LevelConfig) :
  (∀ i, (0 <= rand i ∧ rand i < 1)%Q) →
  (0 ≤ numColors config)%Z → (0 ≤ numEmpty config)%Z →
  ∃ board,
    generateLevel rand uuid config = Some board
    ∧ Z.of_nat (length board) = (numColors config + numEmpty config)%Z
    ∧ (∀ i t, board !! i = Some t →
         tube_id t = i ∧ capacity t = 4 ∧ length (balls t) ≤ capacity t)
    ∧ (∀ c : ColorId, (Z.of_nat c < numColors config)%Z → boardCount c board = 4)
    ∧ (∀ c : ColorId, (numColors config ≤ Z.of_nat c)%Z → boardCount c board = 0)
    ∧ ((1 ≤ numEmpty config)%Z →
       (∀ t, t ∈ board → ¬ (length (balls t) = capacity t ∧ monochrome (balls t)))
       ∧ ((1 ≤ numColors config)%Z → checkWinCondition board = false)).
Proof.
  intros Hrand Hnc Hne.
  destruct (generateLevel_boardOK rand uuid config Hrand Hnc Hne)
    as (board & Hgen & Hok & Hpre).
  exists board. split_and!.
  - done.
  - rewrite (ok_length _ _ _ Hok). lia.
  - intros i t Hi. destruct (ok_tube _ _ _ Hok i t Hi) as (? & Hcap & ?).
    rewrite Hcap. by split_and!.
  - intros c Hc. rewrite (ok_colors _ _ _ Hok). by rewrite decide_True by lia.
  - intros c Hc. rewrite (ok_colors _ _ _ Hok). by rewrite decide_False by lia.
  - intros Hfree. split.
    + intros t Ht [Hfull Hmono]. apply (Hpre Hfree t Ht). split; [|done].
      pose proof Ht as [i Hi]%list_elem_of_lookup.
      destruct (ok_tube _ _ _ Hok i t Hi) as (_ & Hcap & _). congruence.
    + intros Hcolor. eapply boardOK_not_won; [exact Hok | lia | by apply Hpre].
Qed.

Lemma generateLevel_spec_witness :
  ∃ board, generateLevel sampleRand sampleUuid (getLevelConfig 0) = Some board
           ∧ length board = 6 ∧ checkWinCondition board = false.
Proof.
  destruct (generateLevel_spec sampleRand sampleUuid (getLevelConfig 0))
    as (board & Hgen & Hlen & _ & _ & _ & Hfree).
  - exact sampleRand_range.
  - vm_compute. discriminate.
  - vm_compute. discriminate.
  - exists board. split; [exact Hgen|]. split.
    + change (numColors (getLevelConfig 0) + numEmpty (getLevelConfig 0))%Z
        with 6%Z in Hlen. lia.
    + apply Hfree; vm_compute; discriminate.
Defined.

(** C4 as stated fails for a configuration without an empty tube: no
    scramble move is legal and no pre-solved tube can give a ball away, so
    the solved board is returned, every tube of it full and of one color,
    and the board is won. *)
Lemma generateLevel_no_empty_counterexample :
  ∃ board,
    generateLevel sampleRand sampleUuid noEmptyConfig = Some board
    ∧ board = solvedBoard sampleUuid 4 4
    ∧ checkWinCondition board = true
    ∧ Forall (λ t, length (balls t) = capacity t ∧ monochrome (balls t)) board.
Proof.
  eexists. split; [vm_compute; reflexivity|].
  split; [reflexivity|]. split; [reflexivity|].
  repeat constructor; intros b1 b2 H1 H2;
    repeat (apply elem_of_cons in H1 as [->|H1]);
    repeat (apply elem_of_cons in H2 as [->|H2]);
    done || (by apply elem_of_nil in H1) || (by apply elem_of_nil in H2).
Qed.

(** ** The session: reset *)

Lemma alloc_spec (h : gmap loc Obj) (o : Obj) :
  h !! (alloc h o).2 = None ∧ (alloc h o).1 !! (alloc h o).2 = Some o
  ∧ h ⊆ (alloc h o).1.
Proof.
  unfold alloc. simpl.
  assert (Hfresh : h !! fresh (dom h) = None) by apply not_elem_of_dom, is_fresh.
  split_and!; [done| |].
  - apply lookup_insert_eq.
  - by apply insert_subseteq.
Qed.

Lemma lookup_None_weaken (h h' : gmap loc Obj) (l : loc) :
  h ⊆ h' → h' !! l = None → h !! l = None.
Proof.
  intros Hsub Hl. destruct (h !! l) as [o|] eqn:E; [|done].
  by rewrite (lookup_weaken _ _ _ _ E Hsub) in Hl.
Qed.

Lemma mapM_weaken {A} (readOne : gmap loc Obj → loc → option A)
    (h h' : gmap loc Obj) (ls : list loc) (rs : list A) :
  (∀ l r, readOne h l = Some r → readOne h' l = Some r) →
  mapM (readOne h) ls = Some rs → mapM (readOne h') ls = Some rs.
Proof.
  intros Hmono. rewrite !mapM_Some. intros H. eapply Forall2_impl; [exact H|]. auto.
Qed.

Lemma allocList_spec {A} (allocOne : gmap loc Obj → A → gmap loc Obj * loc)
    (readOne : gmap loc Obj → loc → option (A * list loc)) :
  allocSpec allocOne readOne →
  ∀ xs h,
    h ⊆ (allocList allocOne h xs).1
    ∧ ∃ rs, mapM (readOne (allocList allocOne h xs).1) (allocList allocOne h xs).2
            = Some rs
            ∧ rs.*1 = xs
            ∧ ∀ l, l ∈ concat rs.*2 → h !! l = None.
Proof.
  intros [Hmono Halloc]. induction xs as [|x xs IH]; intros h.
  { split; [done|]. exists []. split_and!; [done..|]. by intros l ?%elem_of_nil. }
  cbn [allocList]. destruct (Halloc h x) as (Hsub1 & fp & Hread & Hfp).
  destruct (allocOne h x) as [h1 l1]. cbn [fst snd] in *.
  destruct (IH h1) as (Hsub2 & rs & Hrs & Hval & Hfresh).
  destruct (allocList allocOne h1 xs) as [h2 ls]. cbn [fst snd] in *.
  split; [by etrans|].
  exists ((x, fp) :: rs). split_and!.
  - rewrite mapM_Some. constructor; [by eapply Hmono | by apply mapM_Some].
  - csimpl. by rewrite Hval.
  - csimpl. intros l [Hl|Hl]%elem_of_app; [by apply Hfp|].
    eapply lookup_None_weaken; [exact Hsub1 | by apply Hfresh].
Qed.

Lemma allocArray_spec {A} (allocOne : gmap loc Obj → A → gmap loc Obj * loc)
    (readOne : gmap loc Obj → loc → option (A * list loc)) :
  allocSpec allocOne readOne → allocSpec (allocArray allocOne) (readArrayAt readOne).
Proof.
  intros Hspec. split.
  - intros h h' arr r Hread Hsub. unfold readArrayAt in *.
    destruct (h !! arr) as [[| |ls]|] eqn:Harr; try done.
    rewrite (lookup_weaken _ _ _ _ Harr Hsub).
    destruct (mapM (readOne h) ls) as [rs|] eqn:Hrs; [|done].
    erewrite mapM_weaken; [exact Hread| |exact Hrs].
    intros l r' Hl. by eapply (proj1 Hspec).
  - intros h xs. unfold allocArray.
    destruct (allocList_spec allocOne readOne Hspec xs h)
      as (Hsub1 & rs & Hrs & Hval & Hfresh).
    destruct (allocList allocOne h xs) as [h1 ls]. cbn [fst snd] in *.
    destruct (alloc_spec h1 (OArray ls)) as (Hnew & Hget & Hsub2).
    destruct (alloc h1 (OArray ls)) as [h2 arr]. cbn [fst snd] in *.
    split; [by etrans|].
    exists (arr :: concat rs.*2). split.
    + unfold readArrayAt. rewrite Hget.
      erewrite mapM_weaken; [|intros l r' Hl; by eapply (proj1 Hspec)|exact Hrs].
      simpl. by rewrite Hval.
    + intros l [->|Hl]%elem_of_cons; [|by apply Hfresh].
      by eapply lookup_None_weaken.
Qed.

Lemma allocBall_spec : allocSpec allocBall readBallAt.
Proof.
  split.
  - intros h h' l r Hread Hsub. unfold readBallAt in *.
    destruct (h !! l) as [[i c| |]|] eqn:Hl; try done.
    by rewrite (lookup_weaken _ _ _ _ Hl Hsub).
  - intros h b. unfold allocBall.
    destruct (alloc_spec h (OBall (ball_id b) (colorId b))) as (Hnew & Hget & Hsub).
    split; [done|]. exists [(alloc h (OBall (ball_id b) (colorId b))).2]. split.
    + unfold readBallAt. rewrite Hget. by destruct b.
    + by intros l ->%list_elem_of_singleton.
Qed.

Lemma allocTube_spec : allocSpec allocTube readTubeAt.
Proof.
  pose proof (allocArray_spec _ _ allocBall_spec) as [Hmono Halloc].
  split.
  - intros h h' l r Hread Hsub. unfold readTubeAt in *.
    destruct (h !! l) as [[|i arr cap|]|] eqn:Hl; try done.
    rewrite (lookup_weaken _ _ _ _ Hl Hsub).
    destruct (readArrayAt readBallAt h arr) as [r'|] eqn:Hr; [|done].
    by rewrite (Hmono _ _ _ _ Hr Hsub).
  - intros h t. unfold allocTube.
    destruct (Halloc h (balls t)) as (Hsub1 & fp & Hread & Hfp).
    destruct (allocArray allocBall h (balls t)) as [h1 arr]. cbn [fst snd] in *.
    destruct (alloc_spec h1 (OTube (tube_id t) arr (capacity t))) as (Hnew & Hget & Hsub2).
    destruct (alloc h1 (OTube (tube_id t) arr (capacity t))) as [h2 l]. cbn [fst snd] in *.
    split; [by etrans|].
    exists (l :: fp). split.
    + unfold readTubeAt. rewrite Hget, (Hmono _ _ _ _ Hread Hsub2). simpl.
      by destruct t.
    + intros l' [->|Hl]%elem_of_cons; [|by apply Hfp].
      by eapply lookup_None_weaken.
Qed.

Lemma allocBoard_spec : allocSpec allocBoard readBoardAt.
Proof. apply allocArray_spec, allocTube_spec. Qed.

Lemma readBoard_weaken (h h' : gmap loc Obj) (p : loc) (b : list TubeData) :
  readBoard h p = Some b → h ⊆ h' → readBoard h' p = Some b.
Proof.
  unfold readBoard. intros Hread Hsub.
  destruct (readBoardAt h p) as [r|] eqn:Hr; [|done].
  by rewrite (proj1 allocBoard_spec _ _ _ _ Hr Hsub).
Qed.

Lemma deepCloneAt_spec (h : gmap loc Obj) (p : loc) (b : list TubeData) :
  readBoard h p = Some b →
  ∃ h' p' fp,
    deepCloneAt h p = Some (h', p')
    ∧ h ⊆ h'
    ∧ readBoardAt h' p' = Some (b, fp)
    ∧ (∀ l, l ∈ fp → h !! l = None)
    ∧ p' ∈ fp.
Proof.
  intros Hread. unfold deepCloneAt. rewrite Hread. simpl.
  destruct (proj2 allocBoard_spec h b) as (Hsub & fp & Hnew & Hfp).
  destruct (allocBoard h b) as [h' p'] eqn:Ealloc. simpl in *.
  exists h', p', fp. split; [reflexivity|]. split; [exact Hsub|].
  split; [exact Hnew|]. split; [exact Hfp|].
  unfold readBoardAt, readArrayAt in Hnew.
  destruct (h' !! p') as [[| |ls]|]; try done.
  destruct (mapM _ ls); simplify_eq/=. left.
Qed.

Lemma handleTubeClick_limits (s s' : GameState) (id : nat) :
  handleTubeClick s id = Some s' →
  level s' = level s ∧ totalTime s' = totalTime s ∧ maxMoves s' = maxMoves s.
Proof.
  unfold handleTubeClick.
  destruct (isCompleted s || isFailed s); [by intros [= <-]|].
  destruct (selectedTubeId s) as [selected|].
  - destruct (selected =? id)%nat; [by intros [= <-]|].
    destruct (findTube (tubes s) selected) as [sourceTube|]; [|done]. simpl.
    destruct (findTube (tubes s) id) as [destTube|]; [|done]. simpl.
    destruct (isValidMove sourceTube destTube).
    + destruct (last (balls sourceTube)); [|done]. by intros [= <-].
    + destruct (0 <? length (balls destTube))%nat; by intros [= <-].
  - destruct (findTube (tubes s) id) as [t|]; [|by intros [= <-]].
    destruct (length (balls t) =? 0)%nat; by intros [= <-].
Qed.

(** Every session started by [initLevel] and played from there has the
    time and move limits of its level. *)
Lemma reachable_limits (s : GameState) :
  reachable s →
  totalTime s = timeLimit (getLevelConfig (level s))
  ∧ maxMoves s = cfg_maxMoves (getLevelConfig (level s)).
Proof.
  induction 1 as [rand uuid l s Hinit|s id s' _ IH Hclick|s _ IH
                 |rand uuid s s' _ IH Hreset|s _ IH _ _].
  - unfold initLevel in Hinit.
    destruct (generateLevel _ _ _); simplify_eq/=. done.
  - destruct (handleTubeClick_limits _ _ _ Hclick) as (-> & -> & ->). done.
  - unfold handleUndo. destruct (_ || _); [done|].
    by destruct (last (history s)).
  - unfold handleReset in Hreset.
    destruct (initialTubes s); simplify_eq/=; [done|].
    destruct (generateLevel _ _ _); simplify_eq/=. done.
  - done.
Qed.

(** C8.  Reset of a session with [initialTubes].  The new board is read
    from the heap as the value of [initialTubes], and every array and object
    of it, down to the balls, is at an address that was free before: it is a
    copy that shares nothing with [initialTubes] or any other board.  The
    heap of before is part of the heap after, so [initialTubes], which the
    session keeps, still holds the same board.  The selection is cleared,
    [moves] is 0, the history empty, both flags false, and [timeLeft] is
    [totalTime], the time limit of the level (the [totalTime] of before, for
    a session that had its level's limit).  Read by value, the reset is
    [handleReset]. *)
Theorem handleReset_spec (rand : nat → Q) (uuid : nat → string)
    (h : gmap loc Obj) (gs : GameStateOf loc) (p : loc) (initial : list TubeData) :
  initialTubes gs = Some p → readBoard h p = Some initial →
  ∃ h' gs' fp,
    handleResetAt rand uuid h gs = Some (h', gs')
    ∧ readBoardAt h' (tubes gs') = Some (initial, fp)
    ∧ (∀ l, l ∈ fp → h !! l = None)
    ∧ tubes gs' ≠ p
    ∧ h ⊆ h'
    ∧ initialTubes gs' = Some p
    ∧ readBoard h' p = Some initial
    ∧ selectedTubeId gs' = None
    ∧ moves gs' = 0%Z
    ∧ history gs' = []
    ∧ isCompleted gs' = false ∧ isFailed gs' = false
    ∧ timeLeft gs' = totalTime gs'
    ∧ totalTime gs' = timeLimit (getLevelConfig (level gs))
    ∧ (totalTime gs = timeLimit (getLevelConfig (level gs)) →
       timeLeft gs' = totalTime gs)
    ∧ maxMoves gs' = cfg_maxMoves (getLevelConfig (level gs))
    ∧ level gs' = level gs
    ∧ (∀ s, sessionAt h gs = Some s →
         sessionAt h' gs' = handleReset rand uuid s
         ∧ (reachable s → timeLeft gs' = totalTime s)).
Proof.
  intros Hinit Hread.
  destruct (deepCloneAt_spec h p initial Hread)
    as (h' & p' & fp & Hclone & Hsub & Hnew & Hfp & Hp').
  eexists h', _, fp. split.
  { unfold handleResetAt. rewrite Hinit, Hclone. simpl. reflexivity. }
  cbn [tubes initialTubes selectedTubeId moves history isCompleted isFailed
       timeLeft totalTime maxMoves level default].
  assert (Hread' : readBoard h' p = Some initial) by (by eapply readBoard_weaken).
  split_and!; try done.
  - intros ->. specialize (Hfp p Hp'). unfold readBoard, readBoardAt, readArrayAt in Hread.
    by rewrite Hfp in Hread.
  - intros s Hs. unfold sessionAt in *. rewrite Hinit in Hs.
    cbn [tubes initialTubes history selectedTubeId moves maxMoves level
         isCompleted isFailed timeLeft totalTime].
    rewrite Hread in Hs.
    destruct (readBoard h (tubes gs)) as [board|]; [|done].
    destruct (mapM (readBoard h) (history gs)) as [hist|]; [|done].
    simpl in Hs. injection Hs as <-.
    assert (Hnew' : readBoard h' p' = Some initial)
      by (unfold readBoard; by rewrite Hnew).
    rewrite Hnew', Hread'. simpl.
    unfold handleReset. simpl. rewrite deepClone_id. split; [done|].
    intros Hreach. by destruct (reachable_limits _ Hreach) as [Htime _].
Qed.

Lemma handleReset_spec_witness :
  ∃ h' gs',
    handleResetAt sampleRand sampleUuid sampleHeap.1 sampleSessionAt = Some (h', gs')
    ∧ readBoard h' (tubes gs') = Some sampleBoard
    ∧ tubes gs' ≠ sampleHeap.2.2
    ∧ moves gs' = 0%Z ∧ isFailed gs' = false ∧ timeLeft gs' = 125%Z.
Proof.
  destruct (handleReset_spec sampleRand sampleUuid sampleHeap.1 sampleSessionAt
              sampleHeap.2.2 sampleBoard)
    as (h' & gs' & fp & Hreset & Hread & _ & Hne & _ & _ & _ & _ & Hm & _ & _ & Hf
        & Ht & Htot & _).
  - reflexivity.
  - vm_compute. reflexivity.
  - exists h', gs'. split; [exact Hreset|]. split.
    + unfold readBoard. rewrite Hread. reflexivity.
    + split; [exact Hne|]. split; [exact Hm|]. split; [exact Hf|].
      rewrite Ht, Htot. reflexivity.
Defined.

(** * Further properties *)

(** ** The level generator: every change of the board is a legal move *)

Lemma arrayGet_elem_of {A} (arr : list A) (k : Z) (x : A) :
  arrayGet arr k = Some x → x ∈ arr.
Proof.
  unfold arrayGet. destruct (k <? 0)%Z; [done|]. apply list_elem_of_lookup_2.
Qed.

Lemma shuffleLoop_steps (rand : nat → Q) (totalTubes : nat) :
  ∀ remaining i tubes previousSource tubes',
    shuffleLoop rand totalTubes remaining i tubes previousSource = Some tubes' →
    rtc legalStep tubes tubes'.
Proof.
  induction remaining as [|remaining IH]; intros i tubes previousSource tubes' Hrun.
  { simpl in Hrun. by simplify_eq. }
  cbn [shuffleLoop] in Hrun.
  destruct (0 <? length (movePool tubes totalTubes previousSource)); [|by simplify_eq].
  destruct (arrayGet _ _) as [m|] eqn:Hm; [|done].
  cbn [mbind option_bind] in Hrun.
  destruct (performMove tubes m) as [tubes1|] eqn:Hmove; [|done].
  cbn [mbind option_bind] in Hrun.
  apply arrayGet_elem_of, elem_of_movePool, elem_of_availableMoves in Hm
    as (_ & _ & Hlegal).
  eapply rtc_l; [by exists m | by eapply IH].
Qed.

Section LegalSteps.

Variables (n colors : nat).

Lemma legalStep_boardOK (tubes tubes' : list TubeData) :
  boardOK n colors tubes → legalStep tubes tubes' → boardOK n colors tubes'.
Proof.
  intros Hok (m & Hlegal & Hmove).
  destruct (performMove_legal n colors tubes m Hok Hlegal) as (tubes'' & E & Hok').
  by simplify_eq.
Qed.

Lemma legalSteps_boardOK (tubes tubes' : list TubeData) :
  boardOK n colors tubes → rtc legalStep tubes tubes' → boardOK n colors tubes'.
Proof.
  intros Hok Hsteps. induction Hsteps as [|x y z Hxy _ IH]; [done|].
  apply IH. by eapply legalStep_boardOK.
Qed.

(** A repair of the validation is the legal move from the pre-solved tube
    to the tube found for it. *)
Lemma breakSolved_steps (tubes tubes' : list TubeData) (hs hs' : bool) (k : nat) :
  boardOK n colors tubes →
  breakSolved k (tubes, hs) = Some (tubes', hs') →
  tubes' = tubes ∨ legalStep tubes tubes'.
Proof.
  intros Hok. unfold breakSolved.
  destruct (tubes !! k) as [t|] eqn:Ht; [|done]. cbn [mbind option_bind].
  destruct (length (balls t) =? TUBE_CAPACITY) eqn:Hfull; [|intros; simplify_eq; by left].
  apply Nat.eqb_eq in Hfull.
  destruct (isAllSame (balls t)) as [[]|]; cbn [mbind option_bind];
    [|intros; simplify_eq; by left|done].
  destruct (list_find _ tubes) as [[j d]|] eqn:Hfind; [|intros; simplify_eq; by left].
  apply list_find_Some in Hfind as (Hj & [Hid Hroom] & _).
  assert (Hjk : k ≠ j).
  { destruct (ok_tube _ _ _ Hok j d Hj) as (<- & _). done. }
  destruct (last (balls t)) as [ball|] eqn:Hlast; [|done]. cbn [mbind option_bind].
  rewrite list_lookup_insert_ne by done. rewrite Hj. cbn [mbind option_bind].
  intros [= <- <-]. right. exists {| from := k; to := j |}. split.
  - split; [done|]. exists t, d. split_and!; [done..| |done].
    intros E. by rewrite E in Hfull.
  - unfold performMove. cbn [from to]. rewrite Ht. cbn [mbind option_bind].
    rewrite Hlast. cbn [mbind option_bind].
    rewrite list_lookup_insert_ne by done. by rewrite Hj.
Qed.

Lemma scanTubes_steps :
  ∀ idxs tubes hs tubes' hs',
    boardOK n colors tubes →
    scanTubes idxs (tubes, hs) = Some (tubes', hs') →
    rtc legalStep tubes tubes'.
Proof.
  induction idxs as [|k idxs IH]; intros tubes hs tubes' hs' Hok Hscan.
  { simpl in Hscan. by simplify_eq. }
  cbn [scanTubes] in Hscan.
  destruct (breakSolved k (tubes, hs)) as [[tubes1 hs1]|] eqn:Hk; [|done].
  cbn [mbind option_bind] in Hscan.
  destruct (breakSolved_steps _ _ _ _ _ Hok Hk) as [->|Hstep].
  - by eapply IH.
  - eapply rtc_l; [exact Hstep|].
    eapply IH; [|exact Hscan]. by eapply legalStep_boardOK.
Qed.

Lemma validateLoop_steps :
  ∀ fuel tubes hs tubes',
    boardOK n colors tubes →
    validateLoop fuel n tubes hs = Some tubes' →
    rtc legalStep tubes tubes'.
Proof.
  induction fuel as [|fuel IH]; intros tubes hs tubes' Hok Hrun.
  { simpl in Hrun. by simplify_eq. }
  cbn [validateLoop] in Hrun. destruct hs; [|by simplify_eq].
  destruct (scanTubes (seq 0 n) (tubes, false)) as [[tubes1 hs1]|] eqn:Hscan; [|done].
  cbn [mbind option_bind fst snd] in Hrun.
  pose proof (scanTubes_steps _ _ _ _ _ Hok Hscan) as Hsteps.
  etrans; [exact Hsteps|].
  eapply IH; [|exact Hrun]. by eapply legalSteps_boardOK.
Qed.

End LegalSteps.

Lemma generateLevel_steps (rand : nat → Q) (uuid : nat → string)
    (config : LevelConfig) (board : list TubeData) :
  (0 ≤ numColors config)%Z → (0 ≤ numEmpty config)%Z →
  generateLevel rand uuid config = Some board →
  rtc legalStep
    (solvedBoard uuid (numColors config)
       (Z.to_nat (numColors config + numEmpty config)))
    board.
Proof.
  intros Hnc Hne. unfold generateLevel.
  set (n := Z.to_nat (numColors config + numEmpty config)).
  destruct (shuffleLoop _ _ _ _ _ _) as [tubes1|] eqn:Hshuffle; [|done].
  cbn [mbind option_bind]. intros Hvalidate.
  pose proof (shuffleLoop_steps _ _ _ _ _ _ _ Hshuffle) as Hsteps1.
  etrans; [exact Hsteps1|].
  eapply (validateLoop_steps n (Z.to_nat (numColors config))); [|exact Hvalidate].
  eapply legalSteps_boardOK; [|exact Hsteps1].
  apply solvedBoard_boardOK. lia.
Qed.

(** X1.  Whatever random numbers are drawn, a board that [generateLevel]
    returns is reached from the solved board by legal scramble moves alone
    (source non-empty, destination below its capacity, the two different):
    the repairs of the validation are such moves too. *)
Theorem generateLevel_legal_steps (rand : nat → Q) (uuid : nat → string)
    (config : LevelConfig) (board : list TubeData) :
  (0 ≤ numColors config)%Z → (0 ≤ numEmpty config)%Z →
  generateLevel rand uuid config = Some board →
  rtc legalStep
    (solvedBoard uuid (numColors config)
       (Z.to_nat (numColors config + numEmpty config)))
    board.
Proof. apply generateLevel_steps. Qed.

Lemma generateLevel_legal_steps_witness :
  ∃ board, generateLevel sampleRand sampleUuid (getLevelConfig 0) = Some board
           ∧ rtc legalStep (solvedBoard sampleUuid 4 6) board.
Proof.
  eassert (Hgen : generateLevel sampleRand sampleUuid (getLevelConfig 0) = Some _)
    by (vm_compute; reflexivity).
  eexists. split; [exact Hgen|].
  apply (generateLevel_legal_steps sampleRand sampleUuid (getLevelConfig 0) _).
  - vm_compute. discriminate.
  - vm_compute. discriminate.
  - exact Hgen.
Defined.

(** ** The level generator: the balls are kept *)

Lemma allBalls_cons (t : TubeData) (tubes : list TubeData) :
  allBalls (t :: tubes) = balls t ++ allBalls tubes.
Proof. done. Qed.

Local Opaque allBalls.

Lemma allBalls_insert_pushed (tubes : list TubeData) (i : nat) (t : TubeData) (b : Ball) :
  tubes !! i = Some t →
  allBalls (<[i := pushed t b]> tubes) ≡ₚ b :: allBalls tubes.
Proof.
  revert i. induction tubes as [|a tubes IH]; intros [|i] Hi; simplify_eq/=.
  - rewrite !allBalls_cons. simpl. rewrite <- (assoc_L (++)). simpl.
    by rewrite <- Permutation_middle.
  - rewrite !allBalls_cons, (IH i Hi). by rewrite <- Permutation_middle.
Qed.

Lemma allBalls_insert_popped (tubes : list TubeData) (i : nat) (t : TubeData) (b : Ball) :
  tubes !! i = Some t → last (balls t) = Some b →
  b :: allBalls (<[i := popped t]> tubes) ≡ₚ allBalls tubes.
Proof.
  revert i. induction tubes as [|a tubes IH]; intros [|i] Hi Hlast; simplify_eq/=.
  - rewrite !allBalls_cons.
    transitivity ((balls (popped t) ++ [b]) ++ allBalls tubes).
    + rewrite <- (assoc_L (++)). simpl. by rewrite <- Permutation_middle.
    + by rewrite <- (popped_balls t b Hlast).
  - rewrite !allBalls_cons, <- (IH i Hi Hlast). by rewrite <- Permutation_middle.
Qed.

Local Transparent allBalls.

Lemma legalStep_allBalls (tubes tubes' : list TubeData) :
  legalStep tubes tubes' → allBalls tubes' ≡ₚ allBalls tubes.
Proof.
  intros (m & (Hne & s & d & Hs & Hd & Hballs & Hroom) & Hmove).
  unfold performMove in Hmove. rewrite Hs in Hmove. cbn [mbind option_bind] in Hmove.
  destruct (last (balls s)) as [b|] eqn:Hlast; [|done].
  cbn [mbind option_bind] in Hmove.
  rewrite list_lookup_insert_ne in Hmove by done. rewrite Hd in Hmove.
  cbn [mbind option_bind] in Hmove. injection Hmove as <-.
  rewrite allBalls_insert_pushed by (by rewrite list_lookup_insert_ne).
  by apply allBalls_insert_popped.
Qed.

Lemma legalSteps_allBalls (tubes tubes' : list TubeData) :
  rtc legalStep tubes tubes' → allBalls tubes' ≡ₚ allBalls tubes.
Proof.
  induction 1 as [|x y z Hxy _ IH]; [done|].
  by rewrite IH, (legalStep_allBalls x y Hxy).
Qed.

(** The ids of the solved board are the results of the calls of [uuidv4],
    in order. *)
Lemma solvedBoard_ids (uuid : nat → string) (numColors : Z) (n : nat) :
  ball_id <$> allBalls (solvedBoard uuid numColors n)
  = uuid <$> seq 0 (Nat.min (Z.to_nat numColors) n * TUBE_CAPACITY).
Proof.
  unfold solvedBoard, allBalls. induction n as [|n IH].
  { by rewrite Nat.min_0_r. }
  rewrite seq_S, Nat.add_0_l, map_app. cbn [map].
  rewrite bind_app, bind_singleton, fmap_app, IH.
  destruct (decide (n < Z.to_nat numColors)) as [Hn|Hn].
  - rewrite solvedTube_full by done.
    rewrite !Nat.min_r by lia.
    replace (S n * TUBE_CAPACITY) with (n * TUBE_CAPACITY + TUBE_CAPACITY) by lia.
    rewrite seq_app, fmap_app. f_equal.
    unfold TUBE_CAPACITY. simpl. repeat f_equal; lia.
  - rewrite solvedTube_empty by lia. rewrite !Nat.min_l by lia.
    by rewrite app_nil_r.
Qed.

(** X2.  The balls of a generated board are the balls of the solved board,
    rearranged: each ball keeps its id and its color.  So when the ids that
    [uuidv4] returned for the solved board are distinct, no two balls of the
    generated board have the same id. *)
Theorem generateLevel_keeps_balls (rand : nat → Q) (uuid : nat → string)
    (config : LevelConfig) (board : list TubeData) :
  (0 ≤ numColors config)%Z → (0 ≤ numEmpty config)%Z →
  generateLevel rand uuid config = Some board →
  allBalls board
    ≡ₚ allBalls (solvedBoard uuid (numColors config)
                  (Z.to_nat (numColors config + numEmpty config)))
  ∧ (NoDup (uuid <$> seq 0 (Z.to_nat (numColors config) * TUBE_CAPACITY)) →
     NoDup (ball_id <$> allBalls board)).
Proof.
  intros Hnc Hne Hgen.
  pose proof (generateLevel_steps rand uuid config board Hnc Hne Hgen) as Hsteps.
  apply legalSteps_allBalls in Hsteps. split; [done|].
  intros Hids. rewrite Hsteps, solvedBoard_ids. by rewrite Nat.min_l by lia.
Qed.

Lemma generateLevel_keeps_balls_witness :
  ∃ board, generateLevel sampleRand sampleUuid (getLevelConfig 0) = Some board
           ∧ NoDup (ball_id <$> allBalls board).
Proof.
  eassert (Hgen : generateLevel sampleRand sampleUuid (getLevelConfig 0) = Some _)
    by (vm_compute; reflexivity).
  eexists. split; [exact Hgen|].
  apply (generateLevel_keeps_balls sampleRand sampleUuid (getLevelConfig 0) _).
  - vm_compute. discriminate.
  - vm_compute. discriminate.
  - exact Hgen.
  - apply (bool_decide_unpack _). vm_compute. exact I.
Defined.

(** Whatever random numbers are drawn, a board that the generator returns
    is well formed, and none of its tubes is pre-solved if there is an empty
    tube. *)
Lemma generateLevel_Some_boardOK (rand : nat → Q) (uuid : nat → string)
    (config : LevelConfig) (board : list TubeData) :
  (0 ≤ numColors config)%Z → (0 ≤ numEmpty config)%Z →
  generateLevel rand uuid config = Some board →
  boardOK (Z.to_nat (numColors config + numEmpty config))
    (Z.to_nat (numColors config)) board
  ∧ ((1 ≤ numEmpty config)%Z → ∀ t, t ∈ board → ¬ presolved t).
Proof.
  intros Hnc Hne Hgen.
  pose proof (generateLevel_steps rand uuid config board Hnc Hne Hgen) as Hsteps.
  unfold generateLevel in Hgen.
  set (n := Z.to_nat (numColors config + numEmpty config)) in *.
  set (colors := Z.to_nat (numColors config)) in *.
  assert (Hok0 : boardOK n colors (solvedBoard uuid (numColors config) n)).
  { apply solvedBoard_boardOK. lia. }
  split; [by eapply legalSteps_boardOK|].
  intros Hfree.
  destruct (shuffleLoop _ _ _ _ _ _) as [tubes1|] eqn:Hshuffle; [|done].
  cbn [mbind option_bind] in Hgen.
  assert (Hok1 : boardOK n colors tubes1).
  { eapply legalSteps_boardOK; [exact Hok0|]. by eapply shuffleLoop_steps. }
  destruct (validateLoop_spec n colors 100 tubes1 true Hok1) as (board' & E & _ & Hbroken).
  rewrite E in Hgen. injection Hgen as ->.
  apply Hbroken; [lia|]. left. split; [lia | done].
Qed.

(** ** The level generator: a board without room *)

Lemma availableMoves_full (tubes : list TubeData) (n : nat) :
  (∀ t, t ∈ tubes → capacity t ≤ length (balls t)) → availableMoves tubes n = [].
Proof.
  intros Hfull. apply elem_of_nil_inv. intros m Hm.
  apply elem_of_availableMoves in Hm as (_ & _ & _ & s & d & _ & Hd & _ & Hroom).
  apply list_elem_of_lookup_2, Hfull in Hd. lia.
Qed.

Lemma breakSolved_full (tubes : list TubeData) (hs : bool) (k : nat) :
  (∀ t, t ∈ tubes → capacity t ≤ length (balls t)) → k < length tubes →
  ∃ hs', breakSolved k (tubes, hs) = Some (tubes, hs').
Proof.
  intros Hfull Hk. unfold breakSolved.
  destruct (lookup_lt_is_Some_2 tubes k Hk) as [t Ht]. rewrite Ht.
  cbn [mbind option_bind].
  destruct (Nat.eqb_spec (length (balls t)) TUBE_CAPACITY) as [Hlen|_]; [|by eauto].
  destruct (isAllSame_monochrome (balls t)) as (b & -> & _).
  { intros E. by rewrite E in Hlen. }
  cbn [mbind option_bind]. destruct b; [|by eauto].
  destruct (list_find _ tubes) as [[j d]|] eqn:Hfind; [|by eauto].
  apply list_find_Some in Hfind as (Hj & [_ Hroom] & _).
  apply list_elem_of_lookup_2, Hfull in Hj. lia.
Qed.

Lemma scanTubes_full (tubes : list TubeData) :
  (∀ t, t ∈ tubes → capacity t ≤ length (balls t)) →
  ∀ idxs hs, (∀ k, k ∈ idxs → k < length tubes) →
    ∃ hs', scanTubes idxs (tubes, hs) = Some (tubes, hs').
Proof.
  intros Hfull. induction idxs as [|k idxs IH]; intros hs Hidxs.
  { by exists hs. }
  cbn [scanTubes].
  destruct (breakSolved_full tubes hs k Hfull) as [hs1 ->].
  { apply Hidxs. left. }
  cbn [mbind option_bind]. apply IH. intros k' Hk'. apply Hidxs. by right.
Qed.

Lemma validateLoop_full (tubes : list TubeData) :
  (∀ t, t ∈ tubes → capacity t ≤ length (balls t)) →
  ∀ fuel hs, validateLoop fuel (length tubes) tubes hs = Some tubes.
Proof.
  intros Hfull. induction fuel as [|fuel IH]; intros hs; [done|].
  cbn [validateLoop]. destruct hs; [|done].
  destruct (scanTubes_full tubes Hfull (seq 0 (length tubes)) false) as [hs1 ->].
  { intros k Hk%elem_of_seq. lia. }
  cbn [mbind option_bind fst snd]. apply IH.
Qed.

(** X3.  Without an empty tube the generator cannot scramble: whatever the
    random numbers, the shuffle count and the number of colors, no move is
    legal on the solved board, no repair finds a destination, and the solved
    board itself is returned. *)
Theorem generateLevel_no_empty (rand : nat → Q) (uuid : nat → string)
    (config : LevelConfig) :
  (0 ≤ numColors config)%Z → numEmpty config = 0%Z →
  generateLevel rand uuid config
  = Some (solvedBoard uuid (numColors config) (Z.to_nat (numColors config))).
Proof.
  intros Hnc Hne. unfold generateLevel. rewrite Hne, Z.add_0_r.
  set (n := Z.to_nat (numColors config)).
  set (tubes := solvedBoard uuid (numColors config) n).
  assert (Hlen : length tubes = n).
  { unfold tubes, solvedBoard. by rewrite length_map, length_seq. }
  assert (Hfull : ∀ t, t ∈ tubes → capacity t ≤ length (balls t)).
  { intros t [k Hk]%list_elem_of_lookup. unfold tubes, solvedBoard in Hk.
    apply list_lookup_fmap_Some in Hk as (i & -> & Hi).
    apply lookup_seq in Hi as [-> Hi].
    rewrite solvedTube_length. by rewrite decide_True by done. }
  assert (Hshuffle : ∀ remaining i previousSource,
            shuffleLoop rand n remaining i tubes previousSource = Some tubes).
  { intros [|remaining] i previousSource; [done|]. cbn [shuffleLoop].
    replace (movePool tubes n previousSource) with (@nil Move); [done|].
    symmetry. by apply movePool_nil, availableMoves_full. }
  rewrite Hshuffle. cbn [mbind option_bind].
  rewrite <- Hlen at 1. by apply validateLoop_full.
Qed.

Lemma generateLevel_no_empty_witness :
  generateLevel sampleRand sampleUuid noEmptyConfig
  = Some (solvedBoard sampleUuid 4 4).
Proof.
  apply (generateLevel_no_empty sampleRand sampleUuid noEmptyConfig).
  - vm_compute. discriminate.
  - reflexivity.
Defined.

(** ** The level generator: the validation is done after one pass *)

Lemma breakSolved_unsolved (tubes : list TubeData) (hs : bool) (k : nat) (t : TubeData) :
  tubes !! k = Some t → ¬ presolved t →
  breakSolved k (tubes, hs) = Some (tubes, hs).
Proof.
  intros Ht Hnot. unfold breakSolved. rewrite Ht. cbn [mbind option_bind].
  destruct (Nat.eqb_spec (length (balls t)) TUBE_CAPACITY) as [Hlen|_]; [|done].
  destruct (isAllSame_monochrome (balls t)) as (b & -> & Hb).
  { intros E. by rewrite E in Hlen. }
  cbn [mbind option_bind]. destruct b; [|done].
  exfalso. apply Hnot. split; [done | by apply Hb].
Qed.

Lemma scanTubes_unsolved (tubes : list TubeData) :
  (∀ t, t ∈ tubes → ¬ presolved t) →
  ∀ idxs hs, (∀ k, k ∈ idxs → k < length tubes) →
    scanTubes idxs (tubes, hs) = Some (tubes, hs).
Proof.
  intros Hnot. induction idxs as [|k idxs IH]; intros hs Hidxs; [done|].
  cbn [scanTubes].
  destruct (lookup_lt_is_Some_2 tubes k) as [t Ht]; [apply Hidxs; left|].
  rewrite (breakSolved_unsolved tubes hs k t Ht)
    by (eapply Hnot, list_elem_of_lookup_2; exact Ht).
  cbn [mbind option_bind]. apply IH. intros k' Hk'. apply Hidxs. by right.
Qed.

(** X4.  On a well-formed board with more tubes than colors, the validation
    is done after its first pass: what [generateLevel] returns is the board
    after one scan, on which a further scan moves nothing and finds nothing;
    the bound of 100 passes is never reached.  A board without a full
    one-color tube is returned as it is. *)
Theorem validateLoop_one_pass (n colors : nat) (tubes : list TubeData) :
  boardOK n colors tubes → colors < n →
  ∃ tubes1 hs1,
    scanTubes (seq 0 n) (tubes, false) = Some (tubes1, hs1)
    ∧ validateLoop 100 n tubes true = Some tubes1
    ∧ scanTubes (seq 0 n) (tubes1, false) = Some (tubes1, false)
    ∧ (∀ t, t ∈ tubes1 → ¬ presolved t)
    ∧ ((∀ t, t ∈ tubes → ¬ presolved t) → tubes1 = tubes ∧ hs1 = false).
Proof.
  intros Hok Hfree.
  destruct (scanTubes_spec n colors n 0 tubes false Hok) as (tubes1 & hs1 & E1 & Hok1 & H1);
    [lia|].
  assert (Hnot1 : ∀ t, t ∈ tubes1 → ¬ presolved t).
  { intros t [j Hj]%list_elem_of_lookup.
    apply (H1 Hfree) with j; [intros; lia| |done].
    apply lookup_lt_Some in Hj. rewrite (ok_length _ _ _ Hok1) in Hj. lia. }
  assert (Hidxs : ∀ b : list TubeData, length b = n → ∀ k, k ∈ seq 0 n → k < length b).
  { intros b Hb k Hk%elem_of_seq. lia. }
  assert (E2 : ∀ hs, scanTubes (seq 0 n) (tubes1, hs) = Some (tubes1, hs)).
  { intros hs. apply scanTubes_unsolved; [done|].
    apply Hidxs, (ok_length _ _ _ Hok1). }
  exists tubes1, hs1. split_and!; [done| |done|done|].
  - change 100 with (S (S 98)). cbn [validateLoop]. rewrite E1.
    cbn [mbind option_bind fst snd]. destruct hs1; [|done].
    rewrite E2. cbn [mbind option_bind fst snd]. done.
  - intros Hnot.
    rewrite scanTubes_unsolved in E1; [by simplify_eq|done|].
    apply Hidxs, (ok_length _ _ _ Hok).
Qed.

Lemma validateLoop_one_pass_witness :
  ∃ tubes1,
    validateLoop 100 3 (solvedBoard sampleUuid 2 3) true = Some tubes1
    ∧ scanTubes (seq 0 3) (tubes1, false) = Some (tubes1, false).
Proof.
  destruct (validateLoop_one_pass 3 2 (solvedBoard sampleUuid 2 3))
    as (tubes1 & hs1 & _ & Hloop & Hscan & _).
  - apply (solvedBoard_boardOK sampleUuid 2 3). vm_compute. lia.
  - lia.
  - exists tubes1. split; [exact Hloop | exact Hscan].
Defined.

(** ** The session: what every reachable session keeps *)

Local Open Scope Z_scope.

Lemma levelColors_range (l : Z) : (4 ≤ levelColors l ≤ 12)%nat.
Proof. unfold levelColors. pose proof (numColors_range l). simpl in *. lia. Qed.

Lemma generateLevel_levelBoard (rand : nat → Q) (uuid : nat → string) (l : Z)
    (board : list TubeData) :
  generateLevel rand uuid (getLevelConfig l) = Some board →
  levelBoard l board ∧ checkWinCondition board = false.
Proof.
  intros Hgen. pose proof (levelColors_range l) as Hc.
  pose proof (numColors_range l) as Hnc.
  destruct (generateLevel_Some_boardOK rand uuid (getLevelConfig l) board)
    as [Hok Hpre]; [lia | done | done |].
  replace (numEmpty (getLevelConfig l)) with 2 in * by done.
  replace (Z.to_nat (numColors (getLevelConfig l) + 2))
    with (levelColors l + 2)%nat in Hok by (unfold levelColors; lia).
  split; [exact Hok|].
  eapply boardOK_not_won; [exact Hok | lia | apply Hpre; lia].
Qed.

Lemma boardOK_lookup_id (n colors : nat) (tubes : list TubeData) (id : nat) (t : TubeData) :
  boardOK n colors tubes → findTube tubes id = Some t → tubes !! id = Some t.
Proof.
  intros Hok. unfold findTube.
  destruct (list_find _ tubes) as [[i t']|] eqn:Hfind; [|done].
  intros [= ->]. apply list_find_Some in Hfind as (Hi & Hid & _).
  destruct (ok_tube _ _ _ Hok i t Hi) as (Hidx & _). congruence.
Qed.

Lemma boardOK_NoDup_ids (n colors : nat) (tubes : list TubeData) :
  boardOK n colors tubes → NoDup (map tube_id tubes).
Proof.
  intros Hok. apply NoDup_alt. intros i j id Hi Hj.
  rewrite list_lookup_fmap in Hi, Hj.
  destruct (tubes !! i) as [ti|] eqn:Eti; [|done].
  destruct (tubes !! j) as [tj|] eqn:Etj; [|done].
  destruct (ok_tube _ _ _ Hok i ti Eti) as (? & _).
  destruct (ok_tube _ _ _ Hok j tj Etj) as (? & _).
  simplify_eq/=. congruence.
Qed.

(** A valid move of the player keeps the board well formed. *)
Lemma moveBall_boardOK (n colors : nat) (tubes : list TubeData) (selected id : nat)
    (src dst : TubeData) (ball : Ball) :
  boardOK n colors tubes →
  findTube tubes selected = Some src → findTube tubes id = Some dst →
  isValidMove src dst = true → last (balls src) = Some ball →
  boardOK n colors (moveBall tubes src dst ball).
Proof.
  intros Hok Hsrc Hdst Hvalid Hlast.
  destruct (isValidMove_true _ _ Hvalid) as (Hids & _ & Hroom).
  pose proof (boardOK_lookup_id _ _ _ _ _ Hok Hsrc) as Hi.
  pose proof (boardOK_lookup_id _ _ _ _ _ Hok Hdst) as Hj.
  rewrite (moveBall_insert tubes selected id src dst ball);
    [|by eapply boardOK_NoDup_ids|done..].
  eapply move_boardOK; [done| |done..].
  intros ->. simplify_eq.
Qed.

Lemma sessionInv_withSelection (s : GameState) (sel : option nat) :
  sessionInv s → sessionInv (withSelection s sel).
Proof. intros [? ? ? ? ? ? ? ? ?]. by split. Qed.

Lemma initLevel_sessionInv (rand : nat → Q) (uuid : nat → string) (l : Z) (s : GameState) :
  initLevel rand uuid l = Some s → sessionInv s.
Proof.
  unfold initLevel.
  destruct (generateLevel rand uuid (getLevelConfig l)) as [board|] eqn:Hgen; [|done].
  cbn [mbind option_bind]. intros [= <-].
  destruct (generateLevel_levelBoard _ _ _ _ Hgen) as [Hok Hwin].
  split; cbn [tubes history initialTubes isCompleted isFailed moves maxMoves level
              timeLeft totalTime].
  - done.
  - done.
  - exists (deepClone board). by rewrite deepClone_id.
  - done.
  - done.
  - done.
  - split; [lia | simpl; lia].
  - lia.
  - intros Hl. unfold isPlaying. cbn [isCompleted isFailed moves maxMoves timeLeft].
    destruct (getLevelConfig_limits_pos l Hl).
    split_and!; [intros _; lia | done | done].
Qed.

Lemma handleTubeClick_sessionInv (s s' : GameState) (id : nat) :
  sessionInv s → handleTubeClick s id = Some s' → sessionInv s'.
Proof.
  intros Hinv. unfold handleTubeClick.
  destruct (isCompleted s) eqn:Hc; [by intros [= <-]|].
  destruct (isFailed s) eqn:Hf; [by intros [= <-]|]. cbn [orb].
  destruct (selectedTubeId s) as [selected|].
  2:{ destruct (findTube (tubes s) id) as [t|]; [|by intros [= <-]].
      destruct (length (balls t) =? 0)%nat; intros [= <-]; [done|].
      by apply sessionInv_withSelection. }
  destruct (selected =? id)%nat; [intros [= <-]; by apply sessionInv_withSelection|].
  destruct (findTube (tubes s) selected) as [src|] eqn:Hsrc; [|done].
  cbn [mbind option_bind].
  destruct (findTube (tubes s) id) as [dst|] eqn:Hdst; [|done].
  cbn [mbind option_bind].
  destruct (isValidMove src dst) eqn:Hvalid.
  2:{ destruct (0 <? length (balls dst))%nat; intros [= <-];
        by apply sessionInv_withSelection. }
  destruct (last (balls src)) as [ball|] eqn:Hlast; [|done].
  cbn [mbind option_bind]. intros [= <-].
  destruct Hinv as [Hboard Hhist Hinit Hcompl Hflags Hfailed Hmoves Htime Hbudget].
  split; cbn [tubes history initialTubes isCompleted isFailed moves maxMoves level
              timeLeft totalTime].
  - by eapply moveBall_boardOK.
  - apply Forall_app. split; [done|]. constructor; [|done].
    split; [done|]. by rewrite <- Hcompl.
  - done.
  - done.
  - by intros ->.
  - intros [_ ?%Z.leb_le]%andb_true_iff. by right.
  - rewrite length_app. simpl. lia.
  - done.
  - intros Hl. destruct (Hbudget Hl) as (Hplay & _ & _).
    destruct Hplay as [Hm Ht]; [done|]. unfold isPlaying. simpl.
    destruct (checkWinCondition (moveBall (tubes s) src dst ball)); simpl.
    + split_and!; [by intros [? _] | done | intros _; lia].
    + destruct (Z.leb_spec (maxMoves s) (moves s + 1)).
      * split_and!; [by intros [_ ?] | intros _; right; lia | done].
      * split_and!; [intros _; lia | done | done].
Qed.

Lemma handleUndo_sessionInv (s : GameState) : sessionInv s → sessionInv (handleUndo s).
Proof.
  intros Hinv. unfold handleUndo.
  destruct (length (history s) =? 0)%nat; [done|].
  destruct (isFailed s) eqn:Hf; [done|].
  destruct (isCompleted s) eqn:Hc; [done|]. cbn [orb].
  destruct (last (history s)) as [b|] eqn:Hlast; [|done].
  destruct Hinv as [Hboard Hhist Hinit Hcompl Hflags Hfailed Hmoves Htime Hbudget].
  assert (Hb : levelBoard (level s) b ∧ checkWinCondition b = false).
  { rewrite Forall_forall in Hhist. by apply Hhist, last_elem_of. }
  split; cbn [tubes history initialTubes isCompleted isFailed moves maxMoves level
              timeLeft totalTime].
  - by destruct Hb.
  - by apply Forall_take.
  - done.
  - by destruct Hb.
  - done.
  - done.
  - rewrite length_take. lia.
  - done.
  - intros Hl. destruct (Hbudget Hl) as (Hplay & _ & _).
    split_and!; [intros _; by apply Hplay | done | done].
Qed.

Lemma handleReset_sessionInv (rand : nat → Q) (uuid : nat → string) (s s' : GameState) :
  sessionInv s → handleReset rand uuid s = Some s' → sessionInv s'.
Proof.
  intros [Hboard Hhist (init & Hinit & Hok & Hwin) Hcompl Hflags Hfailed Hmoves Htime
          Hbudget].
  unfold handleReset. rewrite Hinit. cbn [mbind option_bind default].
  rewrite deepClone_id. intros [= <-].
  split; cbn [tubes history initialTubes isCompleted isFailed moves maxMoves level
              timeLeft totalTime].
  - done.
  - done.
  - by exists init.
  - done.
  - done.
  - done.
  - simpl. lia.
  - lia.
  - intros Hl. unfold isPlaying. cbn [isCompleted isFailed moves maxMoves timeLeft].
    destruct (getLevelConfig_limits_pos (level s) Hl).
    split_and!; [intros _; lia | done | done].
Qed.

Lemma tick_sessionInv (s : GameState) :
  sessionInv s → isPlaying s → 0 < timeLeft s → sessionInv (tick s).
Proof.
  intros [Hboard Hhist Hinit Hcompl Hflags Hfailed Hmoves Htime Hbudget] [Hc Hf] Hleft.
  split; cbn [tick tubes history initialTubes isCompleted isFailed moves maxMoves level
              timeLeft totalTime].
  - done.
  - done.
  - done.
  - done.
  - by rewrite Hc.
  - destruct (Z.leb_spec (timeLeft s - 1) 0); [by left | by rewrite Hf].
  - done.
  - destruct (Z.leb_spec (timeLeft s - 1) 0); lia.
  - intros Hl. destruct (Hbudget Hl) as (Hplay & _ & _).
    destruct Hplay as [Hm Ht]; [done|]. unfold isPlaying. simpl. rewrite Hc, Hf.
    destruct (Z.leb_spec (timeLeft s - 1) 0).
    + split_and!; [by intros [_ ?] | intros _; left; lia | done].
    + split_and!; [intros _; lia | done | done].
Qed.

Lemma reachable_sessionInv (s : GameState) : reachable s → sessionInv s.
Proof.
  induction 1 as [rand uuid l s Hinit|s id s' _ IH Hclick|s _ IH
                 |rand uuid s s' _ IH Hreset|s _ IH Hplay Hleft].
  - by eapply initLevel_sessionInv.
  - by eapply handleTubeClick_sessionInv.
  - by apply handleUndo_sessionInv.
  - by eapply handleReset_sessionInv.
  - by apply tick_sessionInv.
Qed.

Lemma boardOK_color_bound (n colors : nat) (tubes : list TubeData) (t : TubeData) (b : Ball) :
  boardOK n colors tubes → t ∈ tubes → b ∈ balls t → (colorId b < colors)%nat.
Proof.
  intros Hok Ht Hb.
  pose proof (countColor_pos (colorId b) (balls t) b Hb eq_refl) as Hpos.
  pose proof (sum_list_with_in t (λ t, countColor (colorId b) (balls t)) tubes Ht) as Hsum.
  fold (boardCount (colorId b) tubes) in Hsum.
  rewrite (ok_colors _ _ _ Hok) in Hsum. simpl in Hsum. case_decide; [done | lia].
Qed.

(** X5.  In every session reached from a started level, the board has the
    tubes of its level (one per color and two more), tube [i] has id [i] and
    capacity 4 and never holds more balls than its capacity, and every color
    of the level has exactly 4 balls on the board.  The same holds for every
    board of the undo history and for [initialTubes], which is always
    there. *)
Theorem reachable_board_wellformed (s : GameState) :
  reachable s →
  length (tubes s) = (levelColors (level s) + 2)%nat
  ∧ (∀ i t, tubes s !! i = Some t →
       tube_id t = i ∧ capacity t = TUBE_CAPACITY
       ∧ (length (balls t) ≤ capacity t)%nat)
  ∧ (∀ c : ColorId,
       boardCount c (tubes s)
       = if decide (c < levelColors (level s))%nat then 4%nat else 0%nat)
  ∧ Forall (levelBoard (level s)) (history s)
  ∧ (∃ init, initialTubes s = Some init ∧ levelBoard (level s) init).
Proof.
  intros [Hboard Hhist (init & Hinit & Hok & _) _ _ _ _ _ _]%reachable_sessionInv.
  split_and!.
  - apply (ok_length _ _ _ Hboard).
  - intros i t Hi. destruct (ok_tube _ _ _ Hboard i t Hi) as (? & Hcap & ?).
    rewrite Hcap. done.
  - apply (ok_colors _ _ _ Hboard).
  - eapply Forall_impl; [exact Hhist|]. by intros b [? _].
  - by exists init.
Qed.

Lemma reachable_board_wellformed_witness :
  ∃ s, reachable s ∧ moves s = 1 ∧ length (tubes s) = 6%nat
       ∧ Forall (levelBoard (level s)) (history s).
Proof.
  played_session Hr.
  destruct (reachable_board_wellformed _ Hr) as (Hlen & _ & _ & Hhist & _).
  eexists. split; [exact Hr|]. split; [reflexivity|].
  split; [exact Hlen | exact Hhist].
Defined.

(** X6.  In every reachable session [isCompleted] is the value of
    [checkWinCondition] on the current board: the session is completed
    exactly when its board is won.  No board of the undo history is won, and
    [initialTubes] is not won: neither undo nor reset ever puts up a won
    board. *)
Theorem reachable_completed_iff_won (s : GameState) :
  reachable s →
  isCompleted s = checkWinCondition (tubes s)
  ∧ Forall (λ b, checkWinCondition b = false) (history s)
  ∧ (∀ init, initialTubes s = Some init → checkWinCondition init = false).
Proof.
  intros [_ Hhist (init & Hinit & _ & Hwin) Hcompl _ _ _ _ _]%reachable_sessionInv.
  split_and!.
  - done.
  - eapply Forall_impl; [exact Hhist|]. by intros b [_ ?].
  - intros init' ?. by simplify_eq.
Qed.

Lemma reachable_completed_iff_won_witness :
  ∃ s, reachable s ∧ moves s = 1 ∧ isCompleted s = checkWinCondition (tubes s).
Proof.
  played_session Hr.
  destruct (reachable_completed_iff_won _ Hr) as (Hc & _).
  eexists. split; [exact Hr|]. split; [reflexivity | exact Hc].
Defined.

(** X7.  In every reachable session the two flags are never both set,
    [moves] is not negative and counts at least the boards of the undo
    history (undo takes a board off the history and leaves [moves]),
    [timeLeft] never exceeds [totalTime], and [totalTime] and [maxMoves] are
    the limits of the session's level. *)
Theorem reachable_counters (s : GameState) :
  reachable s →
  ¬ (isCompleted s = true ∧ isFailed s = true)
  ∧ 0 ≤ moves s
  ∧ Z.of_nat (length (history s)) ≤ moves s
  ∧ timeLeft s ≤ totalTime s
  ∧ totalTime s = timeLimit (getLevelConfig (level s))
  ∧ maxMoves s = cfg_maxMoves (getLevelConfig (level s)).
Proof.
  intros Hreach. destruct (reachable_limits s Hreach) as [Htot Hmax].
  destruct (reachable_sessionInv s Hreach) as [_ _ _ _ Hflags _ [Hm Hh] Htime _].
  split_and!; try done.
  intros [Hc Hf]. by rewrite (Hflags Hc) in Hf.
Qed.

Lemma reachable_counters_witness :
  ∃ s, reachable s ∧ moves s = 1 ∧ Z.of_nat (length (history s)) ≤ moves s.
Proof.
  played_session Hr.
  destruct (reachable_counters _ Hr) as (_ & _ & Hh & _).
  eexists. split; [exact Hr|]. split; [reflexivity | exact Hh].
Defined.

(** X8.  In a reachable session of a level from 0 on: while playing, moves
    are left and time is left; [moves] never exceeds [maxMoves] and
    [timeLeft] is never negative; and a failed session failed for exactly
    one reason, which the title of the dialog names: either the time is up
    ([timeLeft] is 0, moves were left) or the moves are used up ([moves]
    equals [maxMoves], time was left). *)
Theorem reachable_budget (s : GameState) :
  reachable s → 0 ≤ level s →
  (isPlaying s → moves s < maxMoves s ∧ 0 < timeLeft s)
  ∧ moves s ≤ maxMoves s
  ∧ 0 ≤ timeLeft s
  ∧ (isFailed s = true →
       (failTitle s = "Time's Up!" ∧ timeLeft s = 0 ∧ moves s < maxMoves s)
       ∨ (failTitle s = "Out of Moves" ∧ 0 < timeLeft s ∧ moves s = maxMoves s)).
Proof.
  intros [_ _ _ _ _ _ _ _ Hbudget]%reachable_sessionInv Hl.
  destruct (Hbudget Hl) as (Hplay & Hfail & Hcompl).
  assert (Hcases : isPlaying s ∨ isFailed s = true ∨ isCompleted s = true).
  { unfold isPlaying. destruct (isCompleted s), (isFailed s); auto. }
  split_and!.
  - done.
  - destruct Hcases as [?|[?|?]]; [apply Hplay in H|apply Hfail in H|apply Hcompl in H]; lia.
  - destruct Hcases as [?|[?|?]]; [apply Hplay in H|apply Hfail in H|apply Hcompl in H]; lia.
  - intros Hf. unfold failTitle.
    destruct (Hfail Hf) as [[Ht Hm]|[Ht Hm]].
    + left. rewrite Ht. done.
    + right. destruct (Z.eqb_spec (timeLeft s) 0); [lia | done].
Qed.

Lemma reachable_budget_witness :
  ∃ s, reachable s ∧ moves s = 1 ∧ moves s < maxMoves s ∧ 0 < timeLeft s.
Proof.
  played_session Hr.
  destruct (reachable_budget _ Hr) as (Hplay & _).
  - vm_compute. discriminate.
  - eexists. split; [exact Hr|]. split; [reflexivity|].
    apply Hplay. split; reflexivity.
Defined.

(** X9.  Every ball of a reachable session has a color of the palette: its
    [colorId] is below the number of colors of the level, which is at most
    12, so the lookup [BALL_COLORS[ball.colorId]] of the Ball component is
    never [undefined]. *)
Theorem reachable_ballColor (s : GameState) (t : TubeData) (b : Ball) :
  reachable s → t ∈ tubes s → b ∈ balls t →
  (colorId b < levelColors (level s))%nat ∧ is_Some (ballColor b).
Proof.
  intros [Hboard _ _ _ _ _ _ _ _]%reachable_sessionInv Ht Hb.
  pose proof (boardOK_color_bound _ _ _ _ _ Hboard Ht Hb) as Hcol.
  split; [done|]. unfold ballColor. apply lookup_lt_is_Some_2.
  pose proof (levelColors_range (level s)). simpl. lia.
Qed.

Lemma reachable_ballColor_witness :
  ∃ s, reachable s ∧ moves s = 1
       ∧ is_Some (ballColor {| ball_id := "ball-2"; colorId := 0%nat |}).
Proof.
  played_session Hr.
  eexists. split; [exact Hr|]. split; [reflexivity|].
  edestruct reachable_ballColor as [_ Hcolor].
  - exact Hr.
  - apply list_elem_of_In. vm_compute. right. left. reflexivity.
  - apply list_elem_of_In. vm_compute. left. reflexivity.
  - exact Hcolor.
Defined.

(** ** The Tube component *)

Lemma tubeIsCompleted_defined (t : TubeData) :
  (0 < capacity t)%nat ∨ balls t ≠ [] →
  ∃ b, tubeIsCompleted t = Some b
       ∧ (b = true ↔ length (balls t) = capacity t ∧ monochrome (balls t)).
Proof.
  unfold tubeIsCompleted. intros Hdef.
  destruct (Nat.eqb_spec (length (balls t)) (capacity t)) as [Hlen|Hlen]; simpl.
  - destruct (isAllSame_monochrome (balls t)) as (b & Hb & Hiff).
    { destruct Hdef as [?|?]; [|done]. intros E. rewrite E in Hlen. simpl in Hlen. lia. }
    unfold isAllSame in Hb. exists b. split; [done|]. tauto.
  - exists false. split; [done|]. split; [done | by intros [? _]].
Qed.

(** X10.  [isCompleted] of the Tube component is defined for every tube of
    positive capacity and for every non-empty tube, and is true exactly for
    a tube full to its own capacity with balls of one color; on an empty
    tube of capacity 0 it reads [balls[0]] of an empty array and fails. *)
Theorem tubeIsCompleted_spec (t : TubeData) :
  ((0 < capacity t)%nat ∨ balls t ≠ [] →
   ∃ b, tubeIsCompleted t = Some b
        ∧ (b = true ↔ length (balls t) = capacity t ∧ monochrome (balls t)))
  ∧ (capacity t = 0%nat → balls t = [] → tubeIsCompleted t = None).
Proof.
  split; [apply tubeIsCompleted_defined|].
  unfold tubeIsCompleted. intros Hcap ->. by rewrite Hcap.
Qed.

Lemma tubeIsCompleted_spec_witness :
  ∃ b, tubeIsCompleted (tube 0 fourReds) = Some b
       ∧ (b = true ↔ length fourReds = TUBE_CAPACITY ∧ monochrome fourReds).
Proof.
  destruct (tubeIsCompleted_spec (tube 0 fourReds)) as [Hdef _].
  apply Hdef. left. vm_compute. lia.
Defined.

(** X11.  In a reachable session the Tube component never fails, and the
    session is completed exactly when every tube is empty or glows as
    completed: the per-tube display and the win test of the game agree. *)
Theorem reachable_tubes_completed (s : GameState) :
  reachable s →
  (∀ t, t ∈ tubes s → is_Some (tubeIsCompleted t))
  ∧ (isCompleted s = true
     ↔ ∀ t, t ∈ tubes s → balls t = [] ∨ tubeIsCompleted t = Some true).
Proof.
  intros [Hboard _ _ Hcompl _ _ _ _ _]%reachable_sessionInv.
  assert (Hcap : ∀ t, t ∈ tubes s → capacity t = TUBE_CAPACITY).
  { intros t [i Hi]%list_elem_of_lookup. by destruct (ok_tube _ _ _ Hboard i t Hi) as (_ & ? & _). }
  assert (Hglow : ∀ t, t ∈ tubes s →
            ∃ b, tubeIsCompleted t = Some b ∧ (b = true ↔ presolved t)).
  { intros t Ht. destruct (tubeIsCompleted_defined t) as (b & Hb & Hiff).
    { left. rewrite (Hcap t Ht). unfold TUBE_CAPACITY. lia. }
    exists b. split; [done|]. unfold presolved. by rewrite <- (Hcap t Ht). }
  split.
  - intros t Ht. destruct (Hglow t Ht) as (b & -> & _). by eauto.
  - rewrite Hcompl, checkWinCondition_Forall, Forall_forall.
    split; intros H t Ht; destruct (Hglow t Ht) as (b & Hb & Hiff).
    + destruct (H t Ht) as [?|Hpre]; [by left|]. right.
      apply Hiff in Hpre. by subst.
    + destruct (H t Ht) as [?|Hb']; [by left|]. right.
      apply Hiff. congruence.
Qed.

Lemma reachable_tubes_completed_witness :
  ∃ s, reachable s ∧ moves s = 1 ∧ ∀ t, t ∈ tubes s → is_Some (tubeIsCompleted t).
Proof.
  played_session Hr.
  destruct (reachable_tubes_completed _ Hr) as [Hdef _].
  eexists. split; [exact Hr|]. split; [reflexivity | exact Hdef].
Defined.

(** ** The session: clicks that select *)

Lemma withSelection_same (s : GameState) :
  withSelection s (selectedTubeId s) = s.
Proof. by destruct s. Qed.

(** X12.  With nothing selected, a click on a tube that holds a ball
    selects it, and a second click on the same tube gives back the session
    exactly as it was; a click on an empty tube or on an id that is not on
    the board changes nothing; and a completed or failed session ignores
    every click. *)
Theorem handleTubeClick_select (s : GameState) (id : nat) :
  (isPlaying s → selectedTubeId s = None →
   ∀ t, findTube (tubes s) id = Some t → balls t ≠ [] →
     handleTubeClick s id = Some (withSelection s (Some id))
     ∧ handleTubeClick (withSelection s (Some id)) id = Some s)
  ∧ (isPlaying s → selectedTubeId s = None →
     (findTube (tubes s) id = None
      ∨ ∃ t, findTube (tubes s) id = Some t ∧ balls t = []) →
     handleTubeClick s id = Some s)
  ∧ (isCompleted s = true ∨ isFailed s = true → handleTubeClick s id = Some s).
Proof.
  unfold handleTubeClick. split_and!.
  - intros [Hc Hf] Hsel t Hfind Hne. cbn [withSelection isCompleted isFailed selectedTubeId].
    rewrite Hc, Hf, Hsel, Hfind. cbn [orb].
    destruct (length (balls t) =? 0)%nat eqn:Hlen.
    { by apply length_zero_iff in Hlen. }
    split; [done|]. rewrite Nat.eqb_refl. f_equal.
    rewrite <- Hsel at 1. unfold withSelection. simpl. by destruct s.
  - intros [Hc Hf] Hsel Hfind. rewrite Hc, Hf, Hsel. cbn [orb].
    destruct Hfind as [->|(t & -> & ->)]; done.
  - intros [->| ->]; [done|]. by rewrite orb_true_r.
Qed.

Lemma handleTubeClick_select_witness :
  handleTubeClick (sampleSession None 0 63) 1
  = Some (withSelection (sampleSession None 0 63) (Some 1%nat))
  ∧ handleTubeClick (withSelection (sampleSession None 0 63) (Some 1%nat)) 1
    = Some (sampleSession None 0 63).
Proof.
  destruct (handleTubeClick_select (sampleSession None 0 63) 1) as (Hsel & _).
  apply (Hsel ltac:(split; reflexivity) eq_refl (tube 1 fourBlues)).
  - reflexivity.
  - discriminate.
Defined.

(** ** The session: undo and the Undo button *)

(** X13.  The Undo button is enabled exactly when undo changes the session,
    and then undo shortens the history by one board. *)
Theorem canUndo_spec (s : GameState) :
  (canUndo s = true ↔ handleUndo s ≠ s)
  ∧ (canUndo s = true →
     S (length (history (handleUndo s))) = length (history s)).
Proof.
  assert (Hlen : canUndo s = true →
            S (length (history (handleUndo s))) = length (history s)).
  { unfold canUndo. intros [[Hh%Nat.ltb_lt Hc%negb_true_iff]%andb_true_iff
                             Hf%negb_true_iff]%andb_true_iff.
    destruct (last_is_Some (history s)) as [b Hlast].
    { intros E. rewrite E in Hh. simpl in Hh. lia. }
    apply take_pred_last in Hlast.
    rewrite (handleUndo_playing s (take (length (history s) - 1) (history s)) b);
      [|done|done].
    simpl. rewrite length_take. lia. }
  split; [|done]. split.
  - intros Hcan%Hlen Heq. rewrite Heq in Hcan. lia.
  - intros Hne. destruct (canUndo s) eqn:Hcan; [done|]. exfalso. apply Hne.
    apply handleUndo_noop. unfold canUndo in Hcan.
    destruct (history s); [by left|]. simpl in Hcan.
    destruct (isCompleted s); [by auto|]. destruct (isFailed s); by auto.
Qed.

Lemma canUndo_spec_witness :
  ∃ s, reachable s ∧ S (length (history (handleUndo s))) = length (history s).
Proof.
  played_session Hr.
  eexists. split; [exact Hr|].
  apply canUndo_spec. reflexivity.
Defined.

(** X14.  The history is a stack: while playing, as many undos as boards
    were pushed put back the oldest of them and leave the history as it was
    before they were pushed, with [moves] unchanged. *)
Theorem handleUndo_stack (s : GameState) (h bs : list (list TubeData))
    (b : list TubeData) :
  isPlaying s → history s = h ++ b :: bs →
  let s' := Nat.iter (S (length bs)) handleUndo s in
  tubes s' = b ∧ history s' = h ∧ moves s' = moves s
  ∧ isPlaying s' ∧ selectedTubeId s' = None.
Proof.
  revert s. induction bs as [|b' bs IH] using rev_ind; intros s Hplay Hh.
  - simpl. rewrite (handleUndo_playing s h b) by done. done.
  - rewrite length_app, Nat.add_1_r.
    rewrite Nat.iter_succ_r.
    assert (Hh' : history s = (h ++ b :: bs) ++ [b'])
      by (by rewrite Hh, <- (assoc_L (++))).
    rewrite (handleUndo_playing s (h ++ b :: bs) b') by done.
    match goal with
    | |- context [Nat.iter _ handleUndo ?s1] =>
        destruct (IH s1) as (Ht & Hhist & Hm & Hp & Hsel); [done|done|]
    end.
    done.
Qed.

Lemma handleUndo_stack_witness :
  ∃ s, reachable s ∧ moves s = 1
       ∧ moves (Nat.iter 1 handleUndo s) = moves s
       ∧ history (Nat.iter 1 handleUndo s) = [].
Proof.
  played_session Hr.
  match type of Hr with
  | reachable ?s =>
      edestruct (handleUndo_stack s [] []) as (_ & Hh & Hm & _);
        [split; reflexivity | reflexivity |]
  end.
  eexists. split; [exact Hr|]. split; [reflexivity|].
  split; [exact Hm | exact Hh].
Defined.

(** ** The session: the timer *)

Lemma withClock_same (s : GameState) : withClock s (timeLeft s) (isFailed s) = s.
Proof. by destruct s. Qed.

(** X15.  The countdown: from a playing session, [k] ticks with [k] below
    [timeLeft] take [k] off [timeLeft] and change nothing else, and the
    tick that reaches 0 sets [timeLeft] to 0 and fails the session; the
    board, the moves and the history are never touched. *)
Theorem tick_countdown (s : GameState) (k : nat) :
  isPlaying s →
  (Z.of_nat k < timeLeft s →
   Nat.iter k tick s = withClock s (timeLeft s - Z.of_nat k) false
   ∧ timerRuns (Nat.iter k tick s) = true)
  ∧ (Z.of_nat k = timeLeft s → (0 < k)%nat →
     Nat.iter k tick s = withClock s 0 true
     ∧ timerRuns (Nat.iter k tick s) = false).
Proof.
  intros [Hc Hf].
  assert (Hrun : ∀ j, Z.of_nat j < timeLeft s →
            Nat.iter j tick s = withClock s (timeLeft s - Z.of_nat j) false).
  { induction j as [|j IH]; intros Hj.
    - simpl. rewrite Z.sub_0_r, <- Hf. by rewrite withClock_same.
    - rewrite Nat.iter_succ, IH by lia. unfold tick, withClock. simpl.
      destruct (Z.leb_spec (timeLeft s - Z.of_nat j - 1) 0); [lia|].
      f_equal; lia. }
  split.
  - intros Hk. rewrite (Hrun k Hk). split; [done|].
    unfold timerRuns, withClock. simpl. rewrite Hc. simpl.
    apply Z.ltb_lt. lia.
  - intros Hk Hpos. destruct k as [|j]; [lia|].
    rewrite Nat.iter_succ, Hrun by lia. unfold tick, withClock, timerRuns. simpl.
    destruct (Z.leb_spec (timeLeft s - Z.of_nat j - 1) 0); [|lia].
    split; [done|]. by rewrite Hc.
Qed.

Lemma tick_countdown_witness :
  Nat.iter 5 tick (sampleSession None 0 63)
  = withClock (sampleSession None 0 63) 120 false.
Proof.
  destruct (tick_countdown (sampleSession None 0 63) 5) as [Hrun _].
  - split; reflexivity.
  - apply Hrun. vm_compute. reflexivity.
Defined.

(** ** The session: reset forgets the play *)

Lemma handleReset_ext (rand : nat → Q) (uuid : nat → string) (s1 s2 : GameState) :
  level s1 = level s2 → initialTubes s1 = initialTubes s2 →
  handleReset rand uuid s1 = handleReset rand uuid s2.
Proof. unfold handleReset. by intros -> ->. Qed.

Lemma handleTubeClick_frame (s s' : GameState) (id : nat) :
  handleTubeClick s id = Some s' →
  level s' = level s ∧ initialTubes s' = initialTubes s.
Proof.
  unfold handleTubeClick.
  destruct (isCompleted s || isFailed s); [by intros [= <-]|].
  destruct (selectedTubeId s) as [selected|].
  - destruct (selected =? id)%nat; [by intros [= <-]|].
    destruct (findTube (tubes s) selected) as [sourceTube|]; [|done]. simpl.
    destruct (findTube (tubes s) id) as [destTube|]; [|done]. simpl.
    destruct (isValidMove sourceTube destTube).
    + destruct (last (balls sourceTube)); [|done]. by intros [= <-].
    + destruct (0 <? length (balls destTube))%nat; by intros [= <-].
  - destruct (findTube (tubes s) id) as [t|]; [|by intros [= <-]].
    destruct (length (balls t) =? 0)%nat; by intros [= <-].
Qed.

(** X16.  Reset depends on nothing that play changes: after any click, undo
    or tick it gives the same session as before it, and a second reset
    changes nothing. *)
Theorem handleReset_forgets (rand : nat → Q) (uuid : nat → string) (s : GameState) :
  (∀ id s', handleTubeClick s id = Some s' →
     handleReset rand uuid s' = handleReset rand uuid s)
  ∧ handleReset rand uuid (handleUndo s) = handleReset rand uuid s
  ∧ handleReset rand uuid (tick s) = handleReset rand uuid s
  ∧ (∀ s', handleReset rand uuid s = Some s' → handleReset rand uuid s' = Some s').
Proof.
  split_and!.
  - intros id s' [? ?]%handleTubeClick_frame. by apply handleReset_ext.
  - apply handleReset_ext; unfold handleUndo; destruct (_ || _); try done;
      by destruct (last (history s)).
  - by apply handleReset_ext.
  - intros s'. unfold handleReset.
    destruct (initialTubes s) as [init|]; cbn [mbind option_bind default].
    + intros [= <-]. cbn [initialTubes level mbind option_bind default].
      by rewrite !deepClone_id.
    + destruct (generateLevel _ _ _) as [board|]; [|done]. cbn [mbind option_bind].
      intros [= <-]. cbn [initialTubes level mbind option_bind default].
      by rewrite !deepClone_id.
Qed.

Lemma handleReset_forgets_witness :
  ∃ s1, handleTubeClick (sampleSession (Some 0%nat) 0 63) 2 = Some s1
        ∧ handleReset sampleRand sampleUuid s1
          = handleReset sampleRand sampleUuid (sampleSession (Some 0%nat) 0 63).
Proof.
  eexists. split; [vm_compute; reflexivity|].
  apply (handleReset_forgets sampleRand sampleUuid (sampleSession (Some 0%nat) 0 63)
           ) with 2%nat.
  vm_compute. reflexivity.
Defined.

(** ** The menu: unlocking and choosing levels *)

(** X17.  A win never takes an unlocked level away: the frontier does not
    decrease, so no level becomes locked; it stays within [TOTAL_LEVELS] if
    it was; it changes only to two past the level won; and recording the
    same win again changes nothing. *)
Theorem unlockAfterWin_spec (prev : GameState) (unlockedLevels : Z) :
  let unlocked' := unlockAfterWin prev unlockedLevels in
  unlockedLevels ≤ unlocked'
  ∧ (unlocked' = unlockedLevels ∨ unlocked' = level prev + 2)
  ∧ (unlockedLevels ≤ TOTAL_LEVELS → unlocked' ≤ TOTAL_LEVELS)
  ∧ (∀ idx, isLocked idx unlockedLevels = false → isLocked idx unlocked' = false)
  ∧ unlockAfterWin prev unlocked' = unlocked'.
Proof.
  unfold unlockAfterWin, isLocked, TOTAL_LEVELS. simpl.
  destruct (Z.leb_spec unlockedLevels (level prev + 1));
    destruct (Z.ltb_spec (level prev + 1) 30); simpl;
    (split_and!; [lia | auto | lia | |]).
  all: try (intros idx Hidx%Z.ltb_ge; apply Z.ltb_ge; lia).
  all: repeat match goal with
         | |- context [(?a <=? ?b)] => destruct (Z.leb_spec a b)
         | |- context [(?a <? ?b)] => destruct (Z.ltb_spec a b)
         end; simpl; lia.
Qed.

Lemma unlockAfterWin_spec_witness :
  isLocked 1 (unlockAfterWin (sampleSession None 10 63) 2) = false
  ∧ unlockAfterWin (sampleSession None 10 63) 1 = 2.
Proof.
  destruct (unlockAfterWin_spec (sampleSession None 10 63) 2) as (_ & _ & _ & Hlock & _).
  split; [apply Hlock|]; reflexivity.
Defined.

(** X18.  Whenever the win dialog offers [Next Level], the level it starts
    is unlocked once the win is recorded, whatever the frontier was. *)
Theorem next_level_unlocked (prev : GameState) (unlockedLevels : Z) :
  nextLevelOffered prev = true →
  isLocked (level prev + 1) (unlockAfterWin prev unlockedLevels) = false.
Proof.
  unfold nextLevelOffered, unlockAfterWin, isLocked, TOTAL_LEVELS.
  intros Hnext%Z.ltb_lt. apply Z.ltb_ge.
  destruct (Z.leb_spec unlockedLevels (level prev + 1));
    destruct (Z.ltb_spec (level prev + 1) 30); simpl; lia.
Qed.

Lemma next_level_unlocked_witness :
  isLocked 1 (unlockAfterWin (sampleSession None 10 63) 1) = false.
Proof.
  apply (next_level_unlocked (sampleSession None 10 63) 1). reflexivity.
Defined.

(** X19.  Choosing a level in the menu always ends in a playing session of
    that level: a playing session of the chosen level is resumed as it is,
    with its moves, history and clock; in every other case the level is
    started anew, with no moves, an empty history and nothing selected. *)
Theorem handleLevelSelect_spec (rand : nat → Q) (uuid : nat → string)
    (gameState : option GameState) (levelIndex : Z) (s' : GameState) :
  handleLevelSelect rand uuid gameState levelIndex = Some s' →
  level s' = levelIndex ∧ isPlaying s' ∧ reachableOrResumed gameState s'
  ∧ (∀ gs, gameState = Some gs → level gs = levelIndex → isPlaying gs → s' = gs)
  ∧ ((∀ gs, gameState = Some gs → level gs = levelIndex → ¬ isPlaying gs) →
     moves s' = 0 ∧ history s' = [] ∧ selectedTubeId s' = None
     ∧ timeLeft s' = totalTime s').
Proof.
  assert (Hinit : initLevel rand uuid levelIndex = Some s' →
            level s' = levelIndex ∧ isPlaying s' ∧ reachable s'
            ∧ moves s' = 0 ∧ history s' = [] ∧ selectedTubeId s' = None
            ∧ timeLeft s' = totalTime s').
  { intros Hs'. pose proof (reach_init _ _ _ _ Hs') as Hreach.
    unfold initLevel in Hs'. destruct (generateLevel _ _ _); [|done].
    cbn [mbind option_bind] in Hs'. injection Hs' as <-. by split_and!. }
  unfold handleLevelSelect, reachableOrResumed.
  destruct gameState as [gs|].
  - destruct (Z.eqb_spec (level gs) levelIndex) as [Hl|Hl]; cbn [andb].
    + destruct (isCompleted gs) eqn:Hc; cbn [negb andb].
      * intros (? & ? & ? & ?)%Hinit. split_and!; [done|done|by right| |done].
        intros gs' [= <-] _ [? _]. congruence.
      * destruct (isFailed gs) eqn:Hf; cbn [negb].
        -- intros (? & ? & ? & ?)%Hinit. split_and!; [done|done|by right| |done].
           intros gs' [= <-] _ [_ ?]. congruence.
        -- intros [= <-]. split_and!; [done|done|by left|by intros ? [= <-]|].
           intros Hnot. exfalso. by eapply Hnot.
    + intros (? & ? & ? & ?)%Hinit. split_and!; [done|done|by right| |done].
      intros gs' [= <-] ?. congruence.
  - intros (? & ? & ? & ?)%Hinit. split_and!; [done|done|by right|done|done].
Qed.

Lemma handleLevelSelect_spec_witness :
  ∃ s', handleLevelSelect sampleRand sampleUuid (Some (sampleSession None 3 63)) 0
        = Some s'
        ∧ s' = sampleSession None 3 63.
Proof.
  eexists. split; [reflexivity|].
  edestruct (handleLevelSelect_spec sampleRand sampleUuid
               (Some (sampleSession None 3 63)) 0) as (_ & _ & _ & Hsame & _).
  - reflexivity.
  - apply Hsame; [reflexivity | reflexivity | split; reflexivity].
Defined.

(** ** The difficulty model: harder with every level *)

Local Transparent getLevelConfig.

Lemma numColors_step (l : Z) :
  numColors (getLevelConfig (l + 1)) = numColors (getLevelConfig l)
  ∨ numColors (getLevelConfig (l + 1)) = numColors (getLevelConfig l) + 1.
Proof. unfold getLevelConfig; simpl. case_leb; lia. Qed.

Local Opaque getLevelConfig.

(** X20.  The levels get harder one by one.  For every level from
    [- 2 ^ 48] to below [2 ^ 48], where the arithmetic of Numbers is exact:
    from the level to the next the shuffles grow by 6, the move limit by 6
    and the time limit by 9 seconds, and the number of colors stays or
    grows by one; the time limit gives at least a second and a half per
    allowed move on top of 30 seconds; the level has no more colors than
    the palette and no more than 14 tubes; and every later level up to
    [2 ^ 48] has more moves and more time. *)
Theorem getLevelConfig_progression (l : Z) :
  - 2 ^ 48 ≤ l < 2 ^ 48 →
  shuffles (getLevelConfig (l + 1)) = shuffles (getLevelConfig l) + 6
  ∧ cfg_maxMoves (getLevelConfig (l + 1)) = cfg_maxMoves (getLevelConfig l) + 6
  ∧ timeLimit (getLevelConfig (l + 1)) = timeLimit (getLevelConfig l) + 9
  ∧ (numColors (getLevelConfig (l + 1)) = numColors (getLevelConfig l)
     ∨ numColors (getLevelConfig (l + 1)) = numColors (getLevelConfig l) + 1)
  ∧ 3 * cfg_maxMoves (getLevelConfig l) ≤ 2 * (timeLimit (getLevelConfig l) - 30)
  ∧ numColors (getLevelConfig l) + numEmpty (getLevelConfig l) ≤ 14
  ∧ (∀ l', l < l' ≤ 2 ^ 48 →
       cfg_maxMoves (getLevelConfig l) < cfg_maxMoves (getLevelConfig l')
       ∧ timeLimit (getLevelConfig l) < timeLimit (getLevelConfig l')).
Proof.
  intros Hl.
  pose proof (numColors_range l) as Hc.
  change (Z.of_nat (length BALL_COLORS)) with 12 in Hc.
  destruct (getLevelConfig_exact l) as (Hs & Hm & Ht); [lia|].
  destruct (getLevelConfig_exact (l + 1)) as (Hs1 & Hm1 & Ht1); [lia|].
  split_and!.
  - lia.
  - lia.
  - lia.
  - apply numColors_step.
  - lia.
  - assert (E : numEmpty (getLevelConfig l) = 2) by (by vm_compute). lia.
  - intros l' Hl'.
    destruct (getLevelConfig_exact l') as (_ & Hm' & Ht'); [lia|]. lia.
Qed.

Lemma getLevelConfig_progression_witness :
  cfg_maxMoves (getLevelConfig 0) < cfg_maxMoves (getLevelConfig 5)
  ∧ timeLimit (getLevelConfig 0) < timeLimit (getLevelConfig 5).
Proof.
  assert (H0 : - 2 ^ 48 ≤ 0 < 2 ^ 48) by (split; by vm_compute).
  destruct (getLevelConfig_progression 0 H0) as (_ & _ & _ & _ & _ & _ & Hlater).
  apply Hlater. split; [lia | by vm_compute].
Defined.

(** ** Controls: the clock *)








(** ** The level generator: the scramble never stops early *)

Local Open Scope nat_scope.

Lemma boardOK_room (n colors : nat) (tubes : list TubeData) :
  boardOK n colors tubes → colors < n →
  ∃ j d, tubes !! j = Some d ∧ length (balls d) < capacity d.
Proof.
  intros Hok Hfree.
  destruct (list_find (λ t, length (balls t) < capacity t) tubes) as [[j d]|] eqn:Hfind.
  - apply list_find_Some in Hfind as (Hj & Hroom & _). by eauto.
  - exfalso. rewrite list_find_None, Forall_forall in Hfind.
    assert (Hall : ∀ x, x ∈ tubes → TUBE_CAPACITY ≤ length (balls x)).
    { intros x Hx. pose proof Hx as [i Hi]%list_elem_of_lookup.
      destruct (ok_tube _ _ _ Hok i x Hi) as (_ & Hcap & _).
      specialize (Hfind x Hx). simpl in Hfind. lia. }
    apply (sum_list_with_ge (λ t, length (balls t))) in Hall.
    fold (totalBalls tubes) in Hall.
    rewrite (ok_total _ _ _ Hok), (ok_length _ _ _ Hok) in Hall.
    unfold TUBE_CAPACITY in Hall. lia.
Qed.

(** With a color and an empty tube's worth of room, some move is legal. *)
Lemma availableMoves_nonempty (n colors : nat) (tubes : list TubeData) :
  boardOK n colors tubes → 0 < colors → colors < n →
  ∃ m, m ∈ availableMoves tubes n.
Proof.
  intros Hok Hcolor Hfree.
  destruct (boardOK_room n colors tubes Hok Hfree) as (j & d & Hj & Hroom).
  destruct (totalBalls_pos tubes) as (t & [i Hi]%list_elem_of_lookup & Hballs).
  { rewrite (ok_total _ _ _ Hok). unfold TUBE_CAPACITY. lia. }
  assert (Hlt : ∀ k x, tubes !! k = Some x → k < n).
  { intros k x Hk%lookup_lt_Some. by rewrite (ok_length _ _ _ Hok) in Hk. }
  assert (Hmove : ∀ a b ta tb, a ≠ b → tubes !! a = Some ta → tubes !! b = Some tb →
            balls ta ≠ [] → length (balls tb) < capacity tb →
            ∃ m, m ∈ availableMoves tubes n).
  { intros a b ta tb Hab Ha Hb Hne Hr. exists {| from := a; to := b |}.
    apply elem_of_availableMoves. split_and!; [by eapply Hlt..|].
    split; [done|]. by exists ta, tb. }
  destruct (decide (i = j)) as [->|Hij]; [|by eapply (Hmove i j)].
  simplify_eq.
  set (k := if decide (j = 0) then 1 else 0).
  assert (Hkj : k ≠ j) by (unfold k; case_decide; lia).
  destruct (lookup_lt_is_Some_2 tubes k) as [tk Hk].
  { rewrite (ok_length _ _ _ Hok). unfold k; case_decide; lia. }
  destruct (balls tk) as [|b bs] eqn:Hbk.
  - eapply (Hmove j k); [done..|].
    destruct (ok_tube _ _ _ Hok k tk Hk) as (_ & -> & _).
    rewrite Hbk. unfold TUBE_CAPACITY. simpl. lia.
  - eapply (Hmove k j); [done..| |done]. by rewrite Hbk.
Qed.

(** X22.  On a well-formed board with at least one color and more tubes
    than colors, the scramble loop never takes its early exit: a run of
    [remaining] iterations makes exactly [remaining] legal moves. *)
Theorem shuffleLoop_exact (rand : nat → Q) (n colors : nat) :
  0 < colors → colors < n →
  ∀ remaining i tubes previousSource tubes',
    boardOK n colors tubes →
    shuffleLoop rand n remaining i tubes previousSource = Some tubes' →
    nsteps legalStep remaining tubes tubes'.
Proof.
  intros Hcolor Hfree.
  induction remaining as [|remaining IH]; intros i tubes previousSource tubes' Hok Hrun.
  { simpl in Hrun. simplify_eq. constructor. }
  cbn [shuffleLoop] in Hrun.
  destruct (Nat.ltb_spec 0 (length (movePool tubes n previousSource))) as [_|Hnil].
  2:{ exfalso.
      destruct (availableMoves_nonempty n colors tubes Hok Hcolor Hfree) as [m Hm].
      destruct (movePool tubes n previousSource) eqn:Hpool; [|simpl in Hnil; lia].
      apply movePool_nil in Hpool. rewrite Hpool in Hm. by apply elem_of_nil in Hm. }
  destruct (arrayGet _ _) as [m|] eqn:Hm; [|done].
  cbn [mbind option_bind] in Hrun.
  destruct (performMove tubes m) as [tubes1|] eqn:Hmove; [|done].
  cbn [mbind option_bind] in Hrun.
  apply arrayGet_elem_of, elem_of_movePool, elem_of_availableMoves in Hm
    as (_ & _ & Hlegal).
  assert (Hstep : legalStep tubes tubes1) by (by exists m).
  eapply nsteps_l; [exact Hstep|].
  eapply IH; [|exact Hrun]. by eapply legalStep_boardOK.
Qed.

Lemma shuffleLoop_exact_witness :
  ∃ tubes', shuffleLoop sampleRand 6 60 0 (solvedBoard sampleUuid 4 6) (-1) = Some tubes'
            ∧ nsteps legalStep 60 (solvedBoard sampleUuid 4 6) tubes'.
Proof.
  eassert (Hrun : shuffleLoop sampleRand 6 60 0 (solvedBoard sampleUuid 4 6) (-1) = Some _)
    by (vm_compute; reflexivity).
  eexists. split; [exact Hrun|].
  apply (shuffleLoop_exact sampleRand 6 4 ltac:(lia) ltac:(lia) 60 0 _ (-1)%Z).
  - apply (solvedBoard_boardOK sampleUuid 4 6). vm_compute. lia.
  - exact Hrun.
Defined.

(** ** The session: no ball is lost *)

(** A valid move of the player is a legal scramble move, performed. *)
Lemma moveBall_legalStep (n colors : nat) (tubes : list TubeData) (selected id : nat)
    (src dst : TubeData) (ball : Ball) :
  boardOK n colors tubes →
  findTube tubes selected = Some src → findTube tubes id = Some dst →
  isValidMove src dst = true → last (balls src) = Some ball →
  legalStep tubes (moveBall tubes src dst ball).
Proof.
  intros Hok Hsrc Hdst Hvalid Hlast.
  destruct (isValidMove_true _ _ Hvalid) as (Hids & _ & Hroom).
  pose proof (boardOK_lookup_id _ _ _ _ _ Hok Hsrc) as Hi.
  pose proof (boardOK_lookup_id _ _ _ _ _ Hok Hdst) as Hj.
  assert (Hne : selected ≠ id) by (intros ->; simplify_eq).
  rewrite (moveBall_insert tubes selected id src dst ball);
    [|by eapply boardOK_NoDup_ids|done..].
  exists {| from := selected; to := id |}. split.
  - split; [done|]. exists src, dst. split_and!; [done..| |done].
    intros E. by rewrite E in Hlast.
  - unfold performMove. cbn [from to]. rewrite Hi. cbn [mbind option_bind].
    rewrite Hlast. cbn [mbind option_bind].
    rewrite list_lookup_insert_ne by done. by rewrite Hj.
Qed.

(** What a click can do to the boards of a session: nothing, or one valid
    move. *)
Lemma handleTubeClick_cases (s s' : GameState) (id : nat) :
  handleTubeClick s id = Some s' →
  initialTubes s' = initialTubes s
  ∧ ((tubes s' = tubes s ∧ history s' = history s)
     ∨ ∃ selected src dst ball,
         findTube (tubes s) selected = Some src
         ∧ findTube (tubes s) id = Some dst
         ∧ isValidMove src dst = true ∧ last (balls src) = Some ball
         ∧ tubes s' = moveBall (tubes s) src dst ball
         ∧ history s' = history s ++ [tubes s]).
Proof.
  unfold handleTubeClick.
  destruct (isCompleted s || isFailed s); [intros [= <-]; by auto|].
  destruct (selectedTubeId s) as [selected|].
  - destruct (selected =? id)%nat; [intros [= <-]; by auto|].
    destruct (findTube (tubes s) selected) as [src|] eqn:Hsrc; [|done].
    cbn [mbind option_bind].
    destruct (findTube (tubes s) id) as [dst|] eqn:Hdst; [|done].
    cbn [mbind option_bind].
    destruct (isValidMove src dst) eqn:Hvalid.
    + destruct (last (balls src)) as [ball|] eqn:Hlast; [|done].
      cbn [mbind option_bind]. intros [= <-]. split; [done|]. right.
      by exists selected, src, dst, ball.
    + destruct (0 <? length (balls dst))%nat; intros [= <-]; by auto.
  - destruct (findTube (tubes s) id) as [t|]; [|intros [= <-]; by auto].
    destruct (length (balls t) =? 0)%nat; intros [= <-]; by auto.
Qed.

Lemma reachable_ballsKept (s : GameState) : reachable s → ballsKept s.
Proof.
  induction 1 as [rand uuid l s Hinit|s id s' Hreach IH Hclick|s Hreach IH
                 |rand uuid s s' Hreach IH Hreset|s Hreach IH _ _].
  - unfold initLevel in Hinit. destruct (generateLevel _ _ _) as [board|]; [|done].
    cbn [mbind option_bind] in Hinit. injection Hinit as <-.
    exists board. cbn [initialTubes tubes history]. by rewrite deepClone_id.
  - destruct IH as (init & Hinit & Hboard & Hhist).
    destruct (handleTubeClick_cases _ _ _ Hclick) as [Hi [[Ht Hh]|Hmove]].
    + exists init. by rewrite Hi, Ht, Hh.
    + destruct Hmove as (selected & src & dst & ball & Hsrc & Hdst & Hvalid & Hlast
                         & Ht & Hh).
      exists init. rewrite Hi, Ht, Hh. split_and!; [done| |].
      * rewrite <- Hboard. apply legalStep_allBalls.
        eapply moveBall_legalStep; [|done..].
        apply (inv_board _ (reachable_sessionInv _ Hreach)).
      * apply Forall_app. split; [done|]. by constructor.
  - destruct IH as (init & Hinit & Hboard & Hhist).
    exists init. unfold handleUndo. destruct (_ || _); [done|].
    destruct (last (history s)) as [b|] eqn:Hlast; [|done].
    cbn [initialTubes tubes history]. split_and!; [done| |by apply Forall_take].
    rewrite Forall_forall in Hhist. by apply Hhist, last_elem_of.
  - destruct IH as (init & Hinit & Hboard & Hhist).
    unfold handleReset in Hreset. rewrite Hinit in Hreset.
    cbn [mbind option_bind default] in Hreset. injection Hreset as <-.
    exists init. cbn [initialTubes tubes history]. by rewrite deepClone_id.
  - done.
Qed.

(** X23.  No ball is lost, made or replaced in play: in every reachable
    session the current board and every board of the undo history hold
    exactly the balls of [initialTubes], ids and colors, in some
    arrangement; so if the balls started with distinct ids they have
    distinct ids on every board. *)
Theorem reachable_balls_kept (s : GameState) :
  reachable s →
  ∃ init, initialTubes s = Some init
          ∧ allBalls (tubes s) ≡ₚ allBalls init
          ∧ Forall (λ b, allBalls b ≡ₚ allBalls init) (history s)
          ∧ (NoDup (ball_id <$> allBalls init) →
             NoDup (ball_id <$> allBalls (tubes s))).
Proof.
  intros (init & Hinit & Hboard & Hhist)%reachable_ballsKept.
  exists init. split_and!; [done..|]. by rewrite Hboard.
Qed.

Lemma reachable_balls_kept_witness :
  ∃ s init, reachable s ∧ moves s = 1%Z ∧ initialTubes s = Some init
            ∧ allBalls (tubes s) ≡ₚ allBalls init.
Proof.
  played_session Hr.
  destruct (reachable_balls_kept _ Hr) as (init & Hinit & Hboard & _).
  eexists _, init. split; [exact Hr|]. split; [reflexivity|].
  split; [exact Hinit | exact Hboard].
Defined.

(** ** The session: what a won board looks like *)

Lemma totalBalls_full_or_empty (tubes : list TubeData) :
  (∀ t, t ∈ tubes → balls t = [] ∨ length (balls t) = TUBE_CAPACITY) →
  totalBalls tubes = TUBE_CAPACITY * length (filter (λ t, balls t ≠ []) tubes)
  ∧ length tubes
    = length (filter (λ t, balls t = []) tubes)
      + length (filter (λ t, balls t ≠ []) tubes).
Proof.
  unfold totalBalls. induction tubes as [|t tubes IH]; intros Hall;
    [split; reflexivity|].
  destruct IH as [IH1 IH2]; [intros; apply Hall; by right|].
  cbn [sum_list_with]. rewrite !filter_cons.
  destruct (Hall t) as [Hempty|Hfull]; [left|..].
  - repeat case_decide; try done. rewrite Hempty. simpl.
    unfold TUBE_CAPACITY in *. lia.
  - assert (balls t ≠ []) by (intros E; by rewrite E in Hfull).
    repeat case_decide; try done. rewrite Hfull. simpl.
    unfold TUBE_CAPACITY in *. lia.
Qed.

(** X24.  A completed session shows the solved puzzle in full: every tube
    that holds a ball holds 4 of one color, there are as many such tubes as
    the level has colors, and exactly two tubes are empty. *)
Theorem reachable_completed_board (s : GameState) :
  reachable s → isCompleted s = true →
  (∀ t, t ∈ tubes s → balls t ≠ [] →
     length (balls t) = TUBE_CAPACITY ∧ monochrome (balls t))
  ∧ length (filter (λ t, balls t ≠ []) (tubes s)) = levelColors (level s)
  ∧ length (filter (λ t, balls t = []) (tubes s)) = 2.
Proof.
  intros [Hboard _ _ Hcompl _ _ _ _ _]%reachable_sessionInv Hc.
  rewrite Hcompl in Hc. apply checkWinCondition_Forall in Hc.
  rewrite Forall_forall in Hc.
  destruct (totalBalls_full_or_empty (tubes s)) as [Htotal Hlen].
  { intros t Ht. destruct (Hc t Ht) as [?|[? _]]; auto. }
  rewrite (ok_total _ _ _ Hboard) in Htotal.
  rewrite (ok_length _ _ _ Hboard) in Hlen.
  unfold TUBE_CAPACITY in Htotal.
  split_and!; [|lia|lia].
  intros t Ht Hne. by destruct (Hc t Ht).
Qed.

Lemma clickAll_reachable (ids : list nat) (s s' : GameState) :
  reachable s → clickAll s ids = Some s' → reachable s'.
Proof.
  revert s. induction ids as [|i ids IH]; intros s Hr; cbn [clickAll].
  - by intros [= <-].
  - destruct (handleTubeClick s i) as [s1|] eqn:Hclick; [|done].
    cbn [mbind option_bind]. apply IH. by eapply reach_click.
Qed.

Lemma reachable_completed_board_witness :
  ∃ s, reachable s ∧ isCompleted s = true ∧ moves s = 11%Z
       ∧ length (filter (λ t, balls t ≠ []) (tubes s)) = 4
       ∧ length (filter (λ t, balls t = []) (tubes s)) = 2.
Proof.
  sample_session H0 Hr0.
  match type of H0 with
  | _ = Some ?s0 =>
      eassert (Hplay : clickAll s0 solvingClicks = Some _)
        by (vm_compute; reflexivity)
  end.
  pose proof (clickAll_reachable _ _ _ Hr0 Hplay) as Hr.
  destruct (reachable_completed_board _ Hr eq_refl) as (_ & Hfull & Hempty).
  eexists. split; [exact Hr|]. split; [reflexivity|]. split; [reflexivity|].
  split; [exact Hfull | exact Hempty].
Defined.
